(** * rabbitpy transport core and rmqid message operations

    A shallow embedding of [rabbitpy/io.py] (the event loop [IOLoop] and the
    connection thread [IO]) and of [rmqid/message.py] ([Message.ack],
    [Message.nack], [Message.publish]).

    Python objects become records, the mutable attributes of [IO] and of
    [IOLoop._data] are threaded explicitly through every method, and a
    method that can raise returns a [result].  The frame codec ([pamqp]),
    the sockets and the poller are collaborators outside the repository:
    the codec is a section variable, the operating system is an explicit
    per-iteration input. *)

From Stdlib Require Import ZArith List Lia Bool String.
From Stdlib Require Import Strings.Byte.
From stdpp Require Import base option list gmap strings pretty.

Local Open Scope Z_scope.

(** Python truthiness of a sequence: [if xlist:], [bool(write_buffer)]. *)
Definition truthy {A} (l : list A) : bool :=
  match l with [] => false | _ :: _ => true end.

Definition bytes := list byte.

Module IO.

(** ** Collaborators that live outside [io.py] *)

(** Modelled from the spec: the names of the Signal Set ([rabbitpy.events],
    absent from the sources).  [io.py] refers to these four names. *)
Inductive event := SOCKET_CLOSE | SOCKET_CLOSED | SOCKET_OPENED | EXCEPTION_RAISED.

#[global] Instance event_eq_dec : EqDecision event.
Proof. solve_decision. Defined.

Definition event_code (e : event) : nat :=
  match e with
  | SOCKET_CLOSE => 0 | SOCKET_CLOSED => 1
  | SOCKET_OPENED => 2 | EXCEPTION_RAISED => 3
  end%nat.

Definition code_event (n : nat) : option event :=
  match n with
  | 0 => Some SOCKET_CLOSE | 1 => Some SOCKET_CLOSED
  | 2 => Some SOCKET_OPENED | 3 => Some EXCEPTION_RAISED
  | _ => None
  end%nat.

#[global] Instance event_countable : Countable event.
Proof. apply (inj_countable event_code code_event). by intros []. Defined.

(** Modelled from the spec: the Signal Set API [set(name)], [clear(name)],
    [isSet(name)], each flag independent of the others. *)
Definition events_set (e : event) (evs : gset event) : gset event := {[ e ]} ∪ evs.
Definition events_clear (e : event) (evs : gset event) : gset event := evs ∖ {[ e ]}.
Definition is_set (e : event) (evs : gset event) : bool := bool_decide (e ∈ evs).

(** Modelled from the spec: the lifecycle states of [base.StatefulObject]
    (absent from the sources). *)
Inductive lifecycle := OPENING | OPEN | CLOSING | CLOSED.

(** [socket.error]: [errno] is [None] when the error carries no number. *)
Record socket_error := { errno : option Z; strerror : string }.

(** What [on_error] receives: the literal ['Connection reset'] from [_poll],
    or the caught [socket.error] from [_read] and [_write]. *)
Inductive error_arg :=
| ErrStr (msg : string)
| ErrSocket (e : socket_error).

(** [str(exception)]: a [socket.error] made of a number and a text
    prints as ['[Errno N] text'], one made of a text alone as that text. *)
Definition str (a : error_arg) : string :=
  match a with
  | ErrStr m => m
  | ErrSocket e =>
      match errno e with
      | Some n => "[Errno " +:+ pretty n +:+ "] " +:+ strerror e
      | None => strerror e
      end
  end.

(** The records of [rabbitpy.exceptions] placed on the exception queue,
    built from [args = [host, port, str(exception)]]. *)
Inductive fault :=
| ConnectionResetException (host : string) (port : Z) (msg : string)
| ConnectionException (host : string) (port : Z) (msg : string).

(** Exceptions that escape a method. *)
Inductive exn :=
| KeyError (key : option Z)
| IndexError
| EnvironmentError (e : socket_error)
| TypeError.

Definition EINTR : Z := 4.

(** One entry of [socket.getaddrinfo]. *)
Record addrinfo := {
  af : Z; socktype : Z; proto : Z; canonname : string; sockaddr : string * Z
}.

Record socket := {
  sock_af : Z;
  sock_peer : string * Z;
  sock_timeout : Z;
  sock_ssl : bool
}.

(** The network as [_connect] sees it: whether [socket.getaddrinfo],
    [socket.socket] and [sock.connect] raise [socket.error], and whether
    [ssl.wrap_socket], called with keyword arguments it knows, raises a
    [socket.error] ([ssl.SSLError] is one) or something else. *)
Record network := {
  has_ipv6 : bool;
  getaddrinfo : string -> Z -> Z -> option (list addrinfo);
  create_fails : addrinfo -> option socket_error;
  wrap_fails : addrinfo -> option (socket_error + exn);
  connect_fails : string * Z -> option socket_error
}.

(** What [_create_socket] comes to: the socket, a [socket.error], or
    another exception. *)
Inductive created :=
| Created (sock : socket)
| CreateFailed (e : socket_error)
| CreateRaised (e : exn).

Definition AF_UNSPEC : Z := 0.
Definition AF_INET : Z := 2.

(** What one call of [fd.send(frame_data)] does. *)
Inductive send_outcome :=
| SendOk (bytes_sent : nat)
| SendTimeout
| SendError (e : socket_error).

(** What one call of [fd.recv(MAX_READ)] does. *)
Inductive recv_outcome :=
| RecvOk (data : bytes)
| RecvTimeout
| RecvError (e : socket_error).

(** Observable dispatch steps of [on_read], in program order. *)
Inductive dispatch_event {Frame : Type} :=
| LockAcquire
| OnFrame (f : Frame)
| LockRelease
| QueuePut (channel_id : Z) (f : Frame).
Arguments dispatch_event : clear implicits.

Section Transport.

Context {Frame Consumer : Type}.

(** [pamqp.frame.marshal(frame, channel_id)]. *)
Variable marshal : Frame -> Z -> bytes.
(** [pamqp.frame.unmarshal(data)]: [None] when it raises
    [UnmarshalingException] or [AMQPFrameError], otherwise
    [(byte_count, channel_id, frame)]. *)
Variable unmarshal : bytes -> option (nat * Z * Frame).
(** The channel object: [int(channel)], [channel.open], and for channel 0
    [channel.on_frame(frame)], which may put frames on the write queue. *)
Variable channel_int : Consumer -> Z.
Variable channel_open : Consumer -> bool.
Variable on_frame : Consumer -> Frame -> Consumer * list (Z * Frame).

(** ** State of [IO] and of its [IOLoop] *)

(** The connection arguments [_args] that [io.py] reads; a value that was
    not given is [None]. *)
Record conn_args := {
  host : string; port : Z; ssl : bool;
  keyfile : option string; certfile : option string;
  verify : option Z; ssl_version : option Z;
  cacertfile : option string
}.

Record io := mk_io {
  args : conn_args  (* _args *);
  fd_fileno : Z  (* _data.fd.fileno() *);
  trigger_fileno : Z  (* _data.write_trigger.fileno() *);
  events : gset event  (* _events *);
  exceptions : list fault  (* _exceptions, a Queue *);
  write_queue : list (Z * Frame)  (* _write_queue, a Queue *);
  buffer : bytes  (* _buffer *);
  lock : nat  (* _lock, an RLock: its depth *);
  channels : gmap Z (Consumer * list Frame)  (* _channels *);
  socket_ : option socket  (* _socket *);
  state : option lifecycle  (* _state *);
  running : bool  (* _data.running *);
  write_buffer : list bytes  (* _data.write_buffer, a deque *);
  sent : bytes  (* bytes the data socket accepted, in order *);
  enqueued : list (Z * Frame)  (* every pair ever put on _write_queue *);
  trace : list (dispatch_event Frame)  (* dispatch steps performed so far *)
}.

Definition with_events (x : gset event) (s : io) : io :=
  mk_io (args s) (fd_fileno s) (trigger_fileno s) x (exceptions s) (write_queue
        s) (buffer s) (lock s) (channels s) (socket_ s) (state s) (running s)
        (write_buffer s) (sent s) (enqueued s) (trace s).
Definition with_exceptions (x : list fault) (s : io) : io :=
  mk_io (args s) (fd_fileno s) (trigger_fileno s) (events s) x (write_queue s)
        (buffer s) (lock s) (channels s) (socket_ s) (state s) (running s)
        (write_buffer s) (sent s) (enqueued s) (trace s).
Definition with_write_queue (x : list (Z * Frame)) (s : io) : io :=
  mk_io (args s) (fd_fileno s) (trigger_fileno s) (events s) (exceptions s) x
        (buffer s) (lock s) (channels s) (socket_ s) (state s) (running s)
        (write_buffer s) (sent s) (enqueued s) (trace s).
Definition with_buffer (x : bytes) (s : io) : io :=
  mk_io (args s) (fd_fileno s) (trigger_fileno s) (events s) (exceptions s)
        (write_queue s) x (lock s) (channels s) (socket_ s) (state s) (running
        s) (write_buffer s) (sent s) (enqueued s) (trace s).
Definition with_lock (x : nat) (s : io) : io :=
  mk_io (args s) (fd_fileno s) (trigger_fileno s) (events s) (exceptions s)
        (write_queue s) (buffer s) x (channels s) (socket_ s) (state s)
        (running s) (write_buffer s) (sent s) (enqueued s) (trace s).
Definition with_channels (x : gmap Z (Consumer * list Frame)) (s : io) : io :=
  mk_io (args s) (fd_fileno s) (trigger_fileno s) (events s) (exceptions s)
        (write_queue s) (buffer s) (lock s) x (socket_ s) (state s) (running
        s) (write_buffer s) (sent s) (enqueued s) (trace s).
Definition with_socket (x : option socket) (s : io) : io :=
  mk_io (args s) (fd_fileno s) (trigger_fileno s) (events s) (exceptions s)
        (write_queue s) (buffer s) (lock s) (channels s) x (state s) (running
        s) (write_buffer s) (sent s) (enqueued s) (trace s).
Definition with_state (x : option lifecycle) (s : io) : io :=
  mk_io (args s) (fd_fileno s) (trigger_fileno s) (events s) (exceptions s)
        (write_queue s) (buffer s) (lock s) (channels s) (socket_ s) x
        (running s) (write_buffer s) (sent s) (enqueued s) (trace s).
Definition with_running (x : bool) (s : io) : io :=
  mk_io (args s) (fd_fileno s) (trigger_fileno s) (events s) (exceptions s)
        (write_queue s) (buffer s) (lock s) (channels s) (socket_ s) (state s)
        x (write_buffer s) (sent s) (enqueued s) (trace s).
Definition with_write_buffer (x : list bytes) (s : io) : io :=
  mk_io (args s) (fd_fileno s) (trigger_fileno s) (events s) (exceptions s)
        (write_queue s) (buffer s) (lock s) (channels s) (socket_ s) (state s)
        (running s) x (sent s) (enqueued s) (trace s).
Definition with_sent (x : bytes) (s : io) : io :=
  mk_io (args s) (fd_fileno s) (trigger_fileno s) (events s) (exceptions s)
        (write_queue s) (buffer s) (lock s) (channels s) (socket_ s) (state s)
        (running s) (write_buffer s) x (enqueued s) (trace s).
Definition with_enqueued (x : list (Z * Frame)) (s : io) : io :=
  mk_io (args s) (fd_fileno s) (trigger_fileno s) (events s) (exceptions s)
        (write_queue s) (buffer s) (lock s) (channels s) (socket_ s) (state s)
        (running s) (write_buffer s) (sent s) x (trace s).
Definition with_trace (x : list (dispatch_event Frame)) (s : io) : io :=
  mk_io (args s) (fd_fileno s) (trigger_fileno s) (events s) (exceptions s)
        (write_queue s) (buffer s) (lock s) (channels s) (socket_ s) (state s)
        (running s) (write_buffer s) (sent s) (enqueued s) x.

(** A method either returns or raises; the state reached is kept in both
    cases, since the attributes already assigned stay assigned. *)
Inductive result :=
| Returned (s : io)
| Raised (e : exn) (s : io)
| Pending (s : io).
(* [Pending]: the call has not returned; the thread is still inside it,
   either waiting in the poller for input the trace does not contain, or
   inside a loop that does not end. *)

Definition and_then (r : result) (k : io -> result) : result :=
  match r with
  | Returned s => k s
  | Raised e s => Raised e s
  | Pending s => Pending s
  end.

Definition final (r : result) : io :=
  match r with Returned s => s | Raised _ s => s | Pending s => s end.


(** ** Methods of [IO] used by the loop *)

(** [_write_queue.put((channel_id, frame))], by a producer thread or by the
    channel-0 handler. *)
Definition put_frame (d : Z * Frame) (s : io) : io :=
  with_enqueued (enqueued s ++ [d]) (with_write_queue (write_queue s ++ [d]) s).

Definition put_frames (ds : list (Z * Frame)) (s : io) : io :=
  fold_left (fun acc d => put_frame d acc) ds s.

(** [self._channels[int(channel)] = channel, write_queue] *)
Definition add_channel (channel : Consumer) (queue : list Frame) (s : io) : result :=
  Returned (with_channels (<[channel_int channel := (channel, queue)]> (channels s)) s).

(** Modelled from the spec: [base.StatefulObject._set_state] (absent from
    the sources) records the new lifecycle state. *)
Definition _set_state (v : lifecycle) (s : io) : io := with_state (Some v) s.

(** The lookup [self._channels[0]] raises [KeyError] when channel 0 was
    never registered. *)
Definition on_error (exception : error_arg) (s : io) : result :=
  let h := host (args s) in
  let p := port (args s) in
  let m := str exception in
  match channels s !! 0 with
  | None => Raised (KeyError (Some 0)) s
  | Some (channel0, _) =>
      let s1 :=
        if channel_open channel0
        then with_exceptions (exceptions s ++ [ConnectionResetException h p m]) s
        else with_exceptions (exceptions s ++ [ConnectionException h p m]) s in
      Returned (with_events (events_set EXCEPTION_RAISED (events s1)) s1)
  end.

(** The triple [(remainder, channel_id, frame)] of the source has its last
    two components both [None] or both set; they are one [option] here. *)
Definition _get_frame_from_str (value : bytes) : bytes * option (Z * Frame) :=
  if negb (truthy value) then (value, None)
  else match unmarshal value with
       | None => (value, None)
       | Some (byte_count, channel_id, frame_in) =>
           (drop byte_count value, Some (channel_id, frame_in))
       end.

Definition _read_frame (s : io) : io * option (Z * Frame) :=
  let '(rest, value) := _get_frame_from_str (buffer s) in
  (with_buffer rest s, value).

(** [self._channels[channel_id][1].put(frame_value)] *)
Definition _add_frame_to_queue (channel_id : Z) (frame_value : Frame) (s : io)
    : result :=
  match channels s !! channel_id with
  | None => Raised (KeyError (Some channel_id)) s
  | Some (channel, queue) =>
      Returned (with_trace (trace s ++ [QueuePut channel_id frame_value])
                 (with_channels
                    (<[channel_id := (channel, queue ++ [frame_value])]> (channels s)) s))
  end.

(** The body of [if value[0] == 0:]: take the lock, run the channel-0
    handler, release the lock. *)
Definition dispatch_channel0 (f : Frame) (s : io) : result :=
  let s1 := with_trace (trace s ++ [LockAcquire]) (with_lock (S (lock s)) s) in
  match channels s1 !! 0 with
  | None => Raised (KeyError (Some 0)) s1
  | Some (channel0, queue) =>
      let '(channel0', out) := on_frame channel0 f in
      let s2 := with_trace (trace s1 ++ [OnFrame f])
                  (with_channels (<[0 := (channel0', queue)]> (channels s1)) s1) in
      let s3 := put_frames out s2 in
      Returned (with_trace (trace s3 ++ [LockRelease]) (with_lock (pred (lock s3)) s3))
  end.

(** The [while self._buffer:] loop of [on_read].  [fuel] bounds the number
    of iterations; running out of it is [Pending].  When [_read_frame] gives
    [(None, None)] and the buffer is empty the source goes on to
    [_add_frame_to_queue(None, None)], whose lookup of the key [None] fails:
    registrations only create integer keys. *)
Fixpoint on_read_loop (fuel : nat) (s : io) : result :=
  if negb (truthy (buffer s)) then Returned s
  else match fuel with
       | O => Pending s
       | S fuel' =>
           let '(s1, value) := _read_frame s in
           match value with
           | None =>
               if truthy (buffer s1) then Returned s1
               else Raised (KeyError None) s1
           | Some (channel_id, frame_value) =>
               if channel_id =? 0
               then and_then (dispatch_channel0 frame_value s1) (on_read_loop fuel')
               else and_then (_add_frame_to_queue channel_id frame_value s1)
                             (on_read_loop fuel')
           end
       end.

(** A decoded frame of [byte_count >= 1] shortens the buffer, so one
    iteration per buffered byte is all the loop can need; a codec that
    reports a frame of zero bytes makes the source loop forever. *)
Definition on_read (data : bytes) (s : io) : result :=
  let s1 := with_buffer (buffer s ++ data) s in
  on_read_loop (length (buffer s1)) s1.

(** ** [IOLoop] *)

(** What the operating system and the producer threads do around one
    iteration of the loop. *)
Record poll_input := {
  produced : list (Z * Frame);        (* pairs put on the queue since the last drain *)
  poller_poll : bool -> list Z * list Z * list Z;   (* self._poller.poll(write_wanted) *)
  trigger_recv : option socket_error; (* write_trigger.recv(1024) raising *)
  recv_result : recv_outcome;
  send_result : send_outcome
}.

(** [while not write_queue.empty(): write_buffer.append(marshal(data[1], data[0]))] *)
Fixpoint drain (queue : list (Z * Frame)) (wb : list bytes) : list bytes :=
  match queue with
  | [] => wb
  | data :: rest => drain rest (wb ++ [marshal (snd data) (fst data)])
  end.

(** [fd.read(MAX_READ)] of a TLS socket and [fd.recv(MAX_READ)] of a plain
    one have the same three outcomes; [socket.timeout] is tested before its
    base class [socket.error]. *)
Definition _read (r : recv_outcome) (s : io) : result :=
  if negb (running s) then Returned s
  else match r with
       | RecvOk data => on_read data s
       | RecvTimeout => Returned s
       | RecvError e => on_error (ErrSocket e) (with_running false s)
       end.

(** [sent] records the bytes the socket took: the first [bytes_sent] of
    the chunk. *)
Definition _write (o : send_outcome) (s : io) : result :=
  if negb (running s) then Returned s
  else match write_buffer s with
       | [] => Raised IndexError s   (* popleft() on an empty deque *)
       | frame_data :: rest =>
           let s1 := with_write_buffer rest s in
           match o with
           | SendOk bytes_sent =>
               let s2 := with_sent (sent s1 ++ take bytes_sent frame_data) s1 in
               if (bytes_sent <? length frame_data)%nat
               then Returned (with_write_buffer (drop bytes_sent frame_data :: rest) s2)
               else Returned s2
           | SendTimeout => Returned (with_write_buffer (frame_data :: rest) s1)
           | SendError error =>
               if bool_decide (errno error = Some 35)
               then Returned (with_write_buffer (frame_data :: rest) s1)
               else on_error (ErrSocket error) (with_running false s1)
           end
       end.

(** One iteration: drain the queue into the write buffer, poll, then the
    error branch or the trigger, the read and the write, in that order. *)
Definition _poll (i : poll_input) (s : io) : result :=
  let s1 := with_write_buffer (drain (write_queue s) (write_buffer s))
              (with_write_queue [] s) in
  let '(rlist, wlist, xlist) := poller_poll i (truthy (write_buffer s1)) in
  if truthy xlist
  then on_error (ErrStr "Connection reset")
         (with_events (events_set SOCKET_CLOSE (events s1)) s1)
  else
    and_then
      (if bool_decide (trigger_fileno s1 ∈ rlist)
       then match trigger_recv i with
            | Some e => Raised (EnvironmentError e) s1
            | None => Returned s1
            end
       else Returned s1)
      (fun s2 =>
         and_then
           (if bool_decide (fd_fileno s2 ∈ rlist) then _read (recv_result i) s2
            else Returned s2)
           (fun s3 =>
              if truthy wlist && truthy (write_buffer s3)
              then _write (send_result i) s3
              else Returned s3)).

(** The [while self._data.running:] loop of [IOLoop.run], one [poll_input]
    per iteration. *)
Fixpoint run_loop (inputs : list poll_input) (s : io) : result :=
  if negb (running s) then Returned s
  else match inputs with
       | [] => Pending s
       | i :: rest =>
           match _poll i (put_frames (produced i) s) with
           | Returned s' =>
               if is_set SOCKET_CLOSE (events s') then Returned s'
               else run_loop rest s'
           | Raised (EnvironmentError e) s' =>
               if bool_decide (errno e = Some EINTR) then run_loop rest s'
               else if is_set SOCKET_CLOSE (events s') then Returned s'
                    else run_loop rest s'
           | Raised e s' => Raised e s'
           | Pending s' => Pending s'
           end
       end.

Definition IOLoop_run (inputs : list poll_input) (s : io) : result :=
  run_loop inputs (with_running true s).

(** [IOLoop.__init__]: a fresh write buffer, not running. *)
Definition IOLoop_init (s : io) : io :=
  with_write_buffer [] (with_running false s).

(** ** Connecting *)

Definition CONNECTION_TIMEOUT : Z := 3.

Definition _get_addr_info (net : network) (s : io) : list addrinfo :=
  let family := if negb (has_ipv6 net) then AF_INET else AF_UNSPEC in
  match getaddrinfo net (host (args s)) (port (args s)) family with
  | None => []
  | Some res => res
  end.

(** [IO.SSL_KWARGS]: the keyword of [ssl.wrap_socket] each connection
    argument is passed as. *)
Definition SSL_KWARGS : list (string * string) :=
  [("keyfile", "keyfile"); ("certfile", "certfile"); ("cert_reqs", "verify");
   ("ssl_version", "ssl_version"); ("cacerts", "cacertfile")].

(** [if self._args[key]:] for the keys of [SSL_KWARGS]: [None], the empty
    string and 0 are false. *)
Definition given_text (v : option string) : bool :=
  match v with Some (String _ _) => true | _ => false end.

Definition given_number (v : option Z) : bool :=
  match v with Some n => negb (n =? 0) | None => false end.

Definition arg_given (key : string) (a : conn_args) : bool :=
  if String.eqb key "keyfile" then given_text (keyfile a)
  else if String.eqb key "certfile" then given_text (certfile a)
  else if String.eqb key "verify" then given_number (verify a)
  else if String.eqb key "ssl_version" then given_number (ssl_version a)
  else if String.eqb key "cacertfile" then given_text (cacertfile a)
  else false.

(** The names of the keyword arguments [_create_socket] hands to
    [ssl.wrap_socket]. *)
Definition ssl_kwargs (a : conn_args) : list string :=
  "sock" :: "server_side" ::
  map fst (List.filter (fun p => arg_given (snd p) a) SSL_KWARGS).

(** The parameters of [ssl.wrap_socket]; a call with any other keyword
    raises [TypeError] before anything is done. *)
Definition wrap_socket_parameters : list string :=
  ["sock"; "keyfile"; "certfile"; "server_side"; "cert_reqs"; "ssl_version";
   "ca_certs"; "do_handshake_on_connect"; "suppress_ragged_eofs"; "ciphers"].

Definition wrap_socket_accepts (kwargs : list string) : bool :=
  forallb (fun k => bool_decide (k ∈ wrap_socket_parameters)) kwargs.

(** A new socket, wrapped for TLS when [_args['ssl']] is set. *)
Definition _create_socket (net : network) (a : addrinfo) (s : io) : created :=
  match create_fails net a with
  | Some e => CreateFailed e
  | None =>
      let sock := {| sock_af := af a; sock_peer := sockaddr a;
                     sock_timeout := -1; sock_ssl := false |} in
      if ssl (args s)
      then if wrap_socket_accepts (ssl_kwargs (args s))
           then match wrap_fails net a with
                | Some (inl e) => CreateFailed e
                | Some (inr e) => CreateRaised e
                | None => Created {| sock_af := af a; sock_peer := sockaddr a;
                                     sock_timeout := -1; sock_ssl := true |}
                end
           else CreateRaised TypeError
      else Created sock
  end.

(** [sock.settimeout(CONNECTION_TIMEOUT); sock.connect(address)] *)
Definition _connect_socket (net : network) (sock : socket) (address : string * Z)
    : socket + socket_error :=
  let sock' := {| sock_af := sock_af sock; sock_peer := address;
                  sock_timeout := CONNECTION_TIMEOUT; sock_ssl := sock_ssl sock |} in
  match connect_fails net address with
  | Some e => inr e
  | None => inl sock'
  end.

(** The [for ... in self._get_addr_info():] loop of [_connect]; the value
    is the local [sock] when the loop ends, or the exception that
    [except socket.error] does not catch. *)
Fixpoint connect_loop (net : network) (s : io) (addrs : list addrinfo)
    (sock : option socket) : option socket + exn :=
  match addrs with
  | [] => inl sock
  | a :: rest =>
      match _create_socket net a s with
      | CreateRaised e => inr e
      | CreateFailed _ => connect_loop net s rest None
      | Created sk =>
          match _connect_socket net sk (sockaddr a) with
          | inr _ => connect_loop net s rest None
          | inl sk' => inl (Some sk')
          end
      end
  end.

(** [socket.timeout] is a [socket.error], so every attempt that fails with
    one is caught and the next address is tried. *)
Definition _connect (net : network) (s : io) : result :=
  let s1 := _set_state OPENING s in
  match connect_loop net s1 (_get_addr_info net s1) None with
  | inr e => Raised e s1
  | inl None =>
      let s2 := with_exceptions
                  (exceptions s1 ++
                   [ConnectionException (host (args s1)) (port (args s1))
                                        "Could not connect"]) s1 in
      Returned (with_events (events_set EXCEPTION_RAISED (events s2)) s2)
  | inl (Some sock) =>
      let sock0 := {| sock_af := sock_af sock; sock_peer := sock_peer sock;
                      sock_timeout := 0; sock_ssl := sock_ssl sock |} in
      let s2 := with_socket (Some sock0) s1 in
      let s3 := with_events (events_set SOCKET_OPENED (events s2)) s2 in
      Returned (_set_state OPEN s3)
  end.

(** [IO.run], the body of the worker thread.  The remote name built from
    the socket's endpoints is a label for diagnostics and is left out. *)
Definition IO_run (net : network) (inputs : list poll_input) (s : io) : result :=
  and_then (_connect net s) (fun s1 =>
    match socket_ s1 with
    | None => Returned s1
    | Some _ =>
        and_then (IOLoop_run inputs (IOLoop_init s1)) (fun s2 =>
          if truthy (exceptions s2) && negb (is_set EXCEPTION_RAISED (events s2))
          then Returned (with_events (events_set EXCEPTION_RAISED (events s2)) s2)
          else Returned s2)
    end).

(** ** Vocabulary of the properties *)

(** The marshaled forms of a sequence of queued pairs, concatenated in
    order. *)
Definition marshal_all (queue : list (Z * Frame)) : bytes :=
  concat (map (fun data => marshal (snd data) (fst data)) queue).

(** Every byte of every pair ever enqueued is in exactly one place: already
    accepted by the socket, waiting in the write buffer, or still on the
    write queue, in that order. *)
Definition wire_inv (s : io) : Prop :=
  marshal_all (enqueued s) =
  sent s ++ concat (write_buffer s) ++ marshal_all (write_queue s).

(** The part of the state the write path is about. *)
Definition wire_view (s : io)
    : bytes * list bytes * list (Z * Frame) * list (Z * Frame) :=
  (sent s, write_buffer s, write_queue s, enqueued s).

(** The work the write path has left once the queue is drained: one unit
    for every chunk and one for every byte in it. *)
Definition backlog (s : io) : nat :=
  sum_list (map (fun chunk => S (length chunk))
                (drain (write_queue s) (write_buffer s))).

(** An iteration in which nobody enqueues, the poller reports only write
    readiness, and the send accepts at least one byte. *)
Definition sends_some (i : poll_input) : Prop :=
  produced i = []
  /\ (exists n, send_result i = SendOk n /\ (1 <= n)%nat)
  /\ forall w, exists wlist, poller_poll i w = ([], wlist, []) /\ wlist <> [].

(** A send that is not a fatal socket error: it reports a byte count, it
    times out, or it fails with errno 35. *)
Definition send_retryable (o : send_outcome) : bool :=
  match o with
  | SendOk _ | SendTimeout => true
  | SendError e => bool_decide (errno e = Some 35)
  end.

(** The buffer after [self._buffer += data]. *)
Definition feed (data : bytes) (s : io) : io := with_buffer (buffer s ++ data) s.

Definition map_result (g : io -> io) (r : result) : result :=
  match r with
  | Returned s => Returned (g s)
  | Raised e s => Raised e (g s)
  | Pending s => Pending (g s)
  end.

(** What [on_read] does with one decoded frame. *)
Definition dispatch (channel_id : Z) (frame_value : Frame) (s : io) : result :=
  if channel_id =? 0 then dispatch_channel0 frame_value s
  else _add_frame_to_queue channel_id frame_value s.

(** The read callback invoked once per received chunk, as [_read] does in
    successive iterations; an exception ends the thread, so no later chunk
    is delivered. *)
Fixpoint deliver (chunks : list bytes) (s : io) : result :=
  match chunks with
  | [] => Returned s
  | data :: rest => and_then (on_read data s) (deliver rest)
  end.

(** The contract of the frame codec that the read path relies on: a
    decoded frame occupies at least one and at most all of the bytes
    given, and it is decoded the same way whatever bytes follow it. *)
Definition codec_framed : Prop :=
  forall data n c f, unmarshal data = Some (n, c, f) -> (1 <= n <= length data)%nat.

Definition codec_prefix_stable : Prop :=
  forall data more n c f,
    unmarshal data = Some (n, c, f) -> unmarshal (data ++ more) = Some (n, c, f).

(** Nothing can be decoded from the buffer as it stands. *)
Definition stuck (s : io) : Prop :=
  buffer s = [] \/ unmarshal (buffer s) = None.

(** Two deliveries of one byte stream, in chunks and whole, end alike:
    both return in the same state, or both raise the same exception in
    states that differ only in the bytes the chunked delivery had not
    handed over yet. *)
Definition same_dispatch (parts whole : result) : Prop :=
  match parts, whole with
  | Returned a, Returned b => a = b
  | Raised e a, Raised e' b =>
      e = e' /\ exists undelivered, b = with_buffer (buffer a ++ undelivered) a
  | _, _ => False
  end.

(** The frames of a byte stream in decode order: the codec applied to the
    front of the stream for as long as it yields a frame. *)
Fixpoint decode_stream (fuel : nat) (data : bytes) : list (Z * Frame) :=
  match fuel with
  | O => []
  | S fuel' =>
      if negb (truthy data) then []
      else match unmarshal data with
           | None => []
           | Some (n, c, f) => (c, f) :: decode_stream fuel' (drop n data)
           end
  end.

(** The dispatch steps one frame calls for. *)
Definition dispatch_events (d : Z * Frame) : list (dispatch_event Frame) :=
  if fst d =? 0 then [LockAcquire; OnFrame (snd d); LockRelease]
  else [QueuePut (fst d) (snd d)].

(** The frames of a decoded sequence that belong to one channel. *)
Definition frames_for (channel_id : Z) (ds : list (Z * Frame)) : list Frame :=
  map snd (filter (fun d => fst d = channel_id) ds).

Definition queue_of (channel_id : Z) (s : io) : option (list Frame) :=
  snd <$> channels s !! channel_id.

Definition consumer_of (channel_id : Z) (s : io) : option Consumer :=
  fst <$> channels s !! channel_id.

(** The channel object after its handler ran on each frame in turn. *)
Definition handle_all (channel : Consumer) (fs : list Frame) : Consumer :=
  fold_left (fun ch f => fst (on_frame ch f)) fs channel.

(** An attempt on one address that ends in a [socket.error], from the
    creation of the socket or from its connection. *)
Definition attempt_fails (net : network) (s : io) (a : addrinfo) : Prop :=
  (exists e, _create_socket net a s = CreateFailed e)
  \/ ((exists sock, _create_socket net a s = Created sock)
      /\ is_Some (connect_fails net (sockaddr a))).

(** ** Stopping *)

(** [IO._close]; the second component is the socket on which [close()]
    was called, if any. *)
Definition _close (s : io) : io * option socket :=
  let s1 := _set_state CLOSING s in
  let closed := socket_ s1 in
  let s2 := with_events (events_clear SOCKET_OPENED (events s1)) s1 in
  let s3 := with_events (events_set SOCKET_CLOSED (events s2)) s2 in
  (_set_state CLOSED s3, closed).

(** [IO.stop] *)
Definition stop (s : io) : io * option socket := _close s.

(** The state once the write queue has been moved into the write buffer,
    as the first step of every iteration does. *)
Definition drained (s : io) : io :=
  with_write_buffer (drain (write_queue s) (write_buffer s)) (with_write_queue [] s).

(** The codec gives back what it was given, for the pairs of a queue: the
    marshaled form of each is not empty and, whatever follows it, is
    decoded to that pair and to its own length. *)
Definition codec_round_trip (queue : list (Z * Frame)) : Prop :=
  forall c f rest,
    (c, f) ∈ queue ->
    marshal f c <> []
    /\ unmarshal (marshal f c ++ rest) = Some (length (marshal f c), c, f).

(** The fault [on_error] records for an error, by the state of channel 0. *)
Definition fault_for (exception : error_arg) (channel0 : Consumer) (s : io) : fault :=
  if channel_open channel0
  then ConnectionResetException (host (args s)) (port (args s)) (str exception)
  else ConnectionException (host (args s)) (port (args s)) (str exception).

End Transport.

Arguments io : clear implicits.
Arguments result : clear implicits.
Arguments poll_input : clear implicits.

End IO.

(** * [rmqid/message.py] *)

Module Message.

(** The [pamqp] frames that [message.py] constructs, with the constructor
    defaults of [pamqp.specification]; [Basic_Nack] is the frame type of a
    negative acknowledgement. *)
Inductive frame {Value : Type} :=
| Basic_Ack (delivery_tag : Z) (multiple : bool)
| Basic_Nack (delivery_tag : Z) (multiple requeue : bool)
| Basic_Reject (delivery_tag : Z) (requeue : bool)
| Basic_Publish (exchange routing_key : string)
| ContentHeader (body_size : nat) (properties : gmap string Value)
| ContentBody (value : bytes).
Arguments frame : clear implicits.

(** The method frame a received message carries ([Basic.Deliver],
    [Basic.GetOk]): only its delivery tag is read. *)
Record method_frame := { delivery_tag : Z }.

Inductive exn :=
| ActionException (msg : string)
| ZeroDivisionError.

Section Messages.

Context {Value : Type}.

(** [pamqp.specification.Basic.Properties.attributes] *)
Variable attributes : list string.

(** The channel object ([rmqid.channel.Channel], absent from the sources):
    [maximum_frame_size] and the frames handed to [write_frame], in order. *)
Record channel := {
  maximum_frame_size : Z;
  written : list (frame Value)
}.

Definition write_frame (f : frame Value) (c : channel) : channel :=
  {| maximum_frame_size := maximum_frame_size c; written := written c ++ [f] |}.

Record message := {
  msg_channel : channel;                 (* self.channel *)
  body : bytes;                          (* self.body *)
  properties : gmap string Value;        (* self.properties *)
  method : option method_frame           (* self.method *)
}.

Definition with_channel (c : channel) (m : message) : message :=
  {| msg_channel := c; body := body m; properties := properties m;
     method := method m |}.

Definition with_properties (p : gmap string Value) (m : message) : message :=
  {| msg_channel := msg_channel m; body := body m; properties := p;
     method := method m |}.

Inductive result :=
| Returned (m : message)
| Raised (e : exn) (m : message).

Definition final (r : result) : message :=
  match r with Returned m => m | Raised _ m => m end.

(** [for key in invalid_keys: del self.properties[key]] *)
Definition _prune_invalid_properties (invalid_keys : list string) (m : message)
    : message :=
  with_properties (fold_left (fun p key => delete key p) invalid_keys (properties m)) m.

(** The property [_properties]: prune, then build [Basic.Properties]. *)
Definition _properties (m : message) : message * gmap string Value :=
  let invalid_keys :=
    filter (fun key => key ∉ attributes) (map fst (map_to_list (properties m))) in
  let m' := _prune_invalid_properties invalid_keys m in
  (m', properties m').

Definition ack (m : message) : result :=
  match method m with
  | None => Raised (ActionException "Can not ack non-received message") m
  | Some meth =>
      let basic_ack := Basic_Ack (delivery_tag meth) false in
      Returned (with_channel (write_frame basic_ack (msg_channel m)) m)
  end.

Definition nack (m : message) : result :=
  match method m with
  | None => Raised (ActionException "Can not nack non-received message") m
  | Some meth =>
      let basic_nack := Basic_Ack (delivery_tag meth) false in
      Returned (with_channel (write_frame basic_nack (msg_channel m)) m)
  end.

Definition reject (m : message) : result :=
  match method m with
  | None => Raised (ActionException "Can not reject non-received message") m
  | Some meth =>
      let basic_reject := Basic_Reject (delivery_tag meth) true in
      Returned (with_channel (write_frame basic_reject (msg_channel m)) m)
  end.

(** [self.body[start:end]] for [0 <= start]. *)
Definition slice (start stop : Z) (b : bytes) : bytes :=
  take (Z.to_nat stop - Z.to_nat start) (drop (Z.to_nat start) b).

(** [int(math.ceil(len(self.body) / float(maximum_frame_size)))], computed
    exactly; the divisor is not zero here. *)
Definition pieces (len size : Z) : Z := - ((- len) / size).

(** The [for offset in xrange(0, pieces):] loop, from [offset] on, with
    [count] iterations left. *)
Fixpoint write_body (count : nat) (offset : Z) (m : message) : message :=
  match count with
  | O => m
  | S count' =>
      let size := maximum_frame_size (msg_channel m) in
      let start := size * offset in
      let stop := start + size in
      let stop := if stop >? Z.of_nat (length (body m))
                  then Z.of_nat (length (body m)) else stop in
      write_body count' (offset + 1)
        (with_channel (write_frame (ContentBody (slice start stop (body m)))
                                   (msg_channel m)) m)
  end.

(** [exchange] is a name, or an object whose [name] is taken. *)
Definition publish (exchange : string + string) (routing_key : string)
    (m : message) : result :=
  let exchange := match exchange with inl name => name | inr name => name end in
  let method_frame := Basic_Publish exchange routing_key in
  let m1 := with_channel (write_frame method_frame (msg_channel m)) m in
  let '(m2, props) := _properties m1 in
  let header_frame := ContentHeader (length (body m2)) props in
  let m3 := with_channel (write_frame header_frame (msg_channel m2)) m2 in
  let size := maximum_frame_size (msg_channel m3) in
  if size =? 0 then Raised ZeroDivisionError m3
  else
    let n := pieces (Z.of_nat (length (body m3))) size in
    Returned (write_body (Z.to_nat n) 0 m3).

(** ** Construction *)

(** The property [_base_properties]; [now] is what [datetime.datetime.now()]
    returns at that moment. *)
Definition _base_properties (now : Value) : gmap string Value :=
  {[ "timestamp" := now ]}.

(** [uuid] is the [str(uuid.uuid4())] drawn by the call. *)
Definition _add_auto_message_id (uuid : Value) (m : message) : message :=
  with_properties (<["message_id" := uuid]> (properties m)) m.

(** [Message.__init__].  [properties or self._base_properties]: a
    dictionary without entries counts as false, like [None], and is
    replaced.  [method] is the class attribute, [None]. *)
Definition __init__ (chan : channel) (body_value : bytes)
    (props : gmap string Value) (auto_id : bool) (now uuid : Value) : message :=
  let m := {| msg_channel := chan; body := body_value;
              properties := if truthy (map_to_list props) then props
                            else _base_properties now;
              method := None |} in
  if auto_id && bool_decide (properties m !! "message_id" = None)
  then _add_auto_message_id uuid m
  else m.

(** ** Vocabulary of the properties *)

(** The [k]-th run of [size] bytes of a body. *)
Definition body_piece (size : Z) (b : bytes) (k : nat) : bytes :=
  take (Z.to_nat size) (drop (Z.to_nat size * k) b).

(** The frames one call of [publish] hands to the channel. *)
Definition published (before after : message) : list (frame Value) :=
  drop (length (written (msg_channel before))) (written (msg_channel after)).

End Messages.

Arguments channel : clear implicits.
Arguments message : clear implicits.
Arguments result : clear implicits.

End Message.

(** * The pollers of [io.py] *)

Module Pollers.

(** What a poller hands back: the readable, the writable and the errored
    descriptors. *)
Abbreviation ready := (list Z * list Z * list Z)%type.

(** [POLL_TIMEOUT = 3600.0], in seconds. *)
Definition POLL_TIMEOUT : Z := 3600.

(** ** [SelectPoller] *)

(** The argument lists of [select.select]; sockets are named by their
    descriptor, which is what [sock.fileno()] gives. *)
Record SelectPoller := {
  read : list Z * list Z * list Z * Z;      (* self.read *)
  write : list Z * list Z * list Z * Z      (* self.write *)
}.

Definition SelectPoller_init (fd write_trigger : Z) : SelectPoller :=
  {| read := ([fd; write_trigger], [], [fd], POLL_TIMEOUT);
     write := ([fd; write_trigger], [fd], [fd], POLL_TIMEOUT) |}.

(** [select.select(rlist, wlist, xlist, timeout)] as the operating system
    answers it: [None] when it raises [select.error]. *)
Definition select_call := list Z -> list Z -> list Z -> Z -> option ready.

Definition SelectPoller_poll (select : select_call) (write_wanted : bool)
    (p : SelectPoller) : ready :=
  let '(r, w, x, timeout) := if write_wanted then write p else read p in
  match select r w x timeout with
  | None => ([], [], [])
  | Some (rlist, wlist, xlist) => (rlist, wlist, xlist)
  end.

(** ** [PollPoller] *)

Definition POLLIN : Z := 1.
Definition POLLOUT : Z := 4.
Definition POLLERR : Z := 8.
Definition READ : Z := Z.lor POLLIN POLLERR.
Definition WRITE : Z := Z.lor (Z.lor POLLIN POLLOUT) POLLERR.

(** [_poll] is the [select.poll] object: the event mask registered for
    each descriptor. *)
Record PollPoller := {
  pp_fd : Z;                         (* self._fd *)
  pp_poll : gmap Z Z;                (* self._poll *)
  pp_write_in_last_poll : bool       (* self._write_in_last_poll *)
}.

Definition PollPoller_init (fd write_trigger : Z) : PollPoller :=
  {| pp_fd := fd;
     pp_poll := <[write_trigger := READ]> (<[fd := READ]> ∅);
     pp_write_in_last_poll := false |}.

(** [poll.modify(fd, eventmask)] raises [IOError] for a descriptor that
    was never registered: [None]. *)
Definition poll_modify (fd mask : Z) (registered : gmap Z Z) : option (gmap Z Z) :=
  match registered !! fd with
  | None => None
  | Some _ => Some (<[fd := mask]> registered)
  end.

Definition _update_poll (write_wanted : bool) (p : PollPoller) : option PollPoller :=
  if pp_write_in_last_poll p
  then if negb write_wanted
       then registered ← poll_modify (pp_fd p) READ (pp_poll p);
            Some {| pp_fd := pp_fd p; pp_poll := registered;
                    pp_write_in_last_poll := false |}
       else Some p
  else registered ← poll_modify (pp_fd p) WRITE (pp_poll p);
       Some {| pp_fd := pp_fd p; pp_poll := registered;
               pp_write_in_last_poll := true |}.

(** The [for fileno, event in events:] loop. *)
Fixpoint poll_events (events : list (Z * Z)) (acc : ready) : ready :=
  match events with
  | [] => acc
  | (fileno, event) :: rest =>
      let '(rlist, wlist, xlist) := acc in
      let rlist := if Z.land event POLLIN =? 0 then rlist else rlist ++ [fileno] in
      let wlist := if Z.land event POLLOUT =? 0 then wlist else wlist ++ [fileno] in
      let xlist := if Z.land event POLLERR =? 0 then xlist else xlist ++ [fileno] in
      poll_events rest (rlist, wlist, xlist)
  end.

(** [os] is what [self._poll.poll(POLL_TIMEOUT * 1000)] does: [None] when
    it raises [select.error], else the [(fileno, event)] pairs.  The
    result is [None] when [_update_poll] raised. *)
Definition PollPoller_poll (os : option (list (Z * Z))) (write_wanted : bool)
    (p : PollPoller) : option (PollPoller * ready) :=
  p' ← _update_poll write_wanted p;
  match os with
  | None => Some (p', ([], [], []))
  | Some events => Some (p', poll_events events ([], [], []))
  end.

(** Successive calls of [poll]. *)
Fixpoint PollPoller_polls (calls : list (bool * option (list (Z * Z))))
    (p : PollPoller) : option PollPoller :=
  match calls with
  | [] => Some p
  | (write_wanted, os) :: rest =>
      r ← PollPoller_poll os write_wanted p; PollPoller_polls rest (fst r)
  end.

(** ** [KQueuePoller] *)

(** [select.kevent(ident, filter, flags)]; [data] is 0 unless the kernel
    fills it in. *)
Record kevent := { ident : Z; filter : Z; flags : Z; data : Z }.

(** The constants of [select], with the values of <sys/event.h>. *)
Definition KQ_FILTER_READ : Z := -1.
Definition KQ_FILTER_WRITE : Z := -2.
Definition KQ_EV_ADD : Z := 1.
Definition KQ_EV_DELETE : Z := 2.
Definition KQ_EV_ERROR : Z := 16384.
Definition KQ_EV_EOF : Z := 32768.
Definition MAX_EVENTS : Z := 1000.

Definition change (id filt flag : Z) : kevent :=
  {| ident := id; filter := filt; flags := flag; data := 0 |}.

(** [submitted] lists the changes handed to [self._kqueue.control], in
    order. *)
Record KQueuePoller := {
  kq_fd : Z;                          (* self._fd *)
  kq_write_trigger : Z;               (* self._write_trigger *)
  kq_write_in_last_poll : bool;       (* self._write_in_last_poll *)
  kq_submitted : list kevent
}.

Definition KQueuePoller_init (fd write_trigger : Z) : KQueuePoller :=
  {| kq_fd := fd; kq_write_trigger := write_trigger;
     kq_write_in_last_poll := false;
     kq_submitted := [change fd KQ_FILTER_READ KQ_EV_ADD;
                      change write_trigger KQ_FILTER_READ KQ_EV_ADD] |}.

Definition kq_with_flag (b : bool) (p : KQueuePoller) : KQueuePoller :=
  {| kq_fd := kq_fd p; kq_write_trigger := kq_write_trigger p;
     kq_write_in_last_poll := b; kq_submitted := kq_submitted p |}.

Definition kq_submit (changes : list kevent) (p : KQueuePoller) : KQueuePoller :=
  {| kq_fd := kq_fd p; kq_write_trigger := kq_write_trigger p;
     kq_write_in_last_poll := kq_write_in_last_poll p;
     kq_submitted := kq_submitted p ++ changes |}.

(** The changelist is [None] when nothing changes. *)
Definition _changelist (write_wanted : bool) (p : KQueuePoller)
    : KQueuePoller * option (list kevent) :=
  if write_wanted && negb (kq_write_in_last_poll p)
  then (kq_with_flag true p, Some [change (kq_fd p) KQ_FILTER_WRITE KQ_EV_ADD])
  else if kq_write_in_last_poll p && negb write_wanted
       then (kq_with_flag false p,
             Some [change (kq_fd p) KQ_FILTER_WRITE KQ_EV_DELETE])
       else (p, None).

(** What the kernel does in one call of [poll]: the answer to the
    [control] call that waits for events ([None]: it raises
    [select.error]), and whether each of the two [control] calls of
    [_cleanup] raises. *)
Record kq_os := {
  kq_events : option (list kevent);
  kq_cleanup_fd_fails : option IO.socket_error;
  kq_cleanup_trigger_fails : option IO.socket_error
}.

(** [_cleanup]: two [control] calls; the list it builds for the write
    filter is its return value, which [poll] drops. *)
Definition _cleanup (os : kq_os) (p : KQueuePoller)
    : KQueuePoller * (option (list kevent) + IO.socket_error) :=
  let p1 := kq_submit [change (kq_fd p) KQ_FILTER_READ KQ_EV_DELETE] p in
  match kq_cleanup_fd_fails os with
  | Some e => (p1, inr e)
  | None =>
      let p2 := kq_submit [change (kq_write_trigger p) KQ_FILTER_READ KQ_EV_DELETE]
                          p1 in
      match kq_cleanup_trigger_fails os with
      | Some e => (p2, inr e)
      | None =>
          (p2, inl (if kq_write_in_last_poll p
                    then Some [change (kq_fd p) KQ_FILTER_WRITE KQ_EV_DELETE]
                    else None))
      end
  end.

(** The [for event in events:] loop. *)
Fixpoint kq_classify (events : list kevent) (acc : ready) : ready :=
  match events with
  | [] => acc
  | event :: rest =>
      let '(rlist, wlist, xlist) := acc in
      let rlist := if filter event =? KQ_FILTER_READ
                   then rlist ++ [ident event] else rlist in
      let wlist := if filter event =? KQ_FILTER_READ then wlist
                   else if filter event =? KQ_FILTER_WRITE
                        then wlist ++ [ident event] else wlist in
      let xlist := if Z.land (flags event) KQ_EV_ERROR =? 0 then xlist
                   else xlist ++ [ident event] in
      let xlist := if Z.land (flags event) KQ_EV_EOF =? KQ_EV_EOF
                   then xlist ++ [data event] else xlist in
      kq_classify rest (rlist, wlist, xlist)
  end.

(** [poll]: the lists, or the error a [control] call of [_cleanup]
    raised. *)
Definition KQueuePoller_poll (os : kq_os) (write_wanted : bool) (p : KQueuePoller)
    : KQueuePoller * (ready + IO.socket_error) :=
  let '(p1, changes) := _changelist write_wanted p in
  let p2 := kq_submit (default [] changes) p1 in
  match kq_events os with
  | None => (p2, inl ([], [], []))
  | Some events =>
      let '(rlist, wlist, xlist) := kq_classify events ([], [], []) in
      if truthy xlist
      then match _cleanup os p2 with
           | (p3, inr e) => (p3, inr e)
           | (p3, inl _) => (p3, inl (rlist, wlist, xlist))
           end
      else (p2, inl (rlist, wlist, xlist))
  end.

Fixpoint KQueuePoller_polls (calls : list (bool * kq_os)) (p : KQueuePoller)
    : KQueuePoller :=
  match calls with
  | [] => p
  | (write_wanted, os) :: rest =>
      KQueuePoller_polls rest (fst (KQueuePoller_poll os write_wanted p))
  end.

(** ** Vocabulary of the properties *)

(** [select] answers with descriptors it was asked about. *)
Definition select_sound (select : select_call) : Prop :=
  forall r w x timeout rlist wlist xlist,
    select r w x timeout = Some (rlist, wlist, xlist) ->
    rlist ⊆ r /\ wlist ⊆ w /\ xlist ⊆ x.

(** The flag of a [PollPoller] tells the mask its descriptor is
    registered with. *)
Definition pp_consistent (p : PollPoller) : Prop :=
  pp_poll p !! pp_fd p = Some (if pp_write_in_last_poll p then WRITE else READ).

(** Whether the write filter of [fd] is on after the changes of a list
    were applied in order, starting from [on]. *)
Fixpoint write_filter_on (fd : Z) (changes : list kevent) (on : bool) : bool :=
  match changes with
  | [] => on
  | c :: rest =>
      write_filter_on fd rest
        (if (ident c =? fd) && (filter c =? KQ_FILTER_WRITE)
         then if flags c =? KQ_EV_ADD then true
              else if flags c =? KQ_EV_DELETE then false else on
         else on)
  end.

(** The poller an [IOLoop] holds, and the choice [_create_poller] makes by
    what the [select] module of the platform offers. *)
Inductive poller :=
| UsePoll (p : PollPoller)
| UseKQueue (p : KQueuePoller)
| UseSelect (p : SelectPoller).

Record platform := { has_poll : bool; has_kqueue : bool }.

Definition _create_poller (pl : platform) (fd write_trigger : Z) : poller :=
  if has_poll pl then UsePoll (PollPoller_init fd write_trigger)
  else if has_kqueue pl then UseKQueue (KQueuePoller_init fd write_trigger)
  else UseSelect (SelectPoller_init fd write_trigger).

(** What the operating system does in one call of [poll], for each kind of
    poller. *)
Record os_poll := {
  os_select : select_call;
  os_poll_events : option (list (Z * Z));
  os_kqueue : kq_os
}.

(** [self._poller.poll(write_wanted)]: the lists, or [None] when the call
    raised. *)
Definition poller_poll (os : os_poll) (write_wanted : bool) (p : poller)
    : option ready :=
  match p with
  | UsePoll p => snd <$> PollPoller_poll (os_poll_events os) write_wanted p
  | UseKQueue p =>
      match snd (KQueuePoller_poll (os_kqueue os) write_wanted p) with
      | inl lists => Some lists
      | inr _ => None
      end
  | UseSelect p => Some (SelectPoller_poll (os_select os) write_wanted p)
  end.

(** The input of one iteration of the loop whose poller is [p], when the
    call of [poll] returns. *)
Definition iteration {Frame : Type} (os : os_poll) (p : poller)
    (trigger_recv : option IO.socket_error) (recv : IO.recv_outcome)
    (send : IO.send_outcome) : IO.poll_input Frame :=
  {| IO.produced := [];
     IO.poller_poll := fun w => default ([], [], []) (poller_poll os w p);
     IO.trigger_recv := trigger_recv;
     IO.recv_result := recv;
     IO.send_result := send |}.

End Pollers.

(** * A small codec and consumer to run the definitions on *)

Module Sample.

Definition byte_of_nat (n : nat) : byte :=
  match Byte.of_nat (n mod 256) with Some b => b | None => x00 end.

(** A frame is its payload; on the wire it is the channel id, the payload
    length and the payload. *)
Definition marshal (f : bytes) (channel_id : Z) : bytes :=
  byte_of_nat (Z.to_nat channel_id) :: byte_of_nat (length f) :: f.

Definition unmarshal (data : bytes) : option (nat * Z * bytes) :=
  match data with
  | c :: n :: rest =>
      if (Byte.to_nat n <=? length rest)%nat
      then Some (2 + Byte.to_nat n, Z.of_nat (Byte.to_nat c),
                 take (Byte.to_nat n) rest)%nat
      else None
  | _ => None
  end.

Record consumer := { id : Z; open : bool; handled : list bytes }.

Definition on_frame (c : consumer) (f : bytes) : consumer * list (Z * bytes) :=
  ({| id := id c; open := open c; handled := handled c ++ [f] |}, []).

Definition channel0 : consumer := {| id := 0; open := true; handled := [] |}.
Definition channel5 : consumer := {| id := 5; open := true; handled := [] |}.

Definition fresh (chans : gmap Z (consumer * list bytes)) : IO.io bytes consumer :=
  {| IO.args := {| IO.host := "localhost"; IO.port := 5672; IO.ssl := false;
                   IO.keyfile := None; IO.certfile := None; IO.verify := None;
                   IO.ssl_version := None; IO.cacertfile := None |};
     IO.fd_fileno := 3; IO.trigger_fileno := 4;
     IO.events := ∅; IO.exceptions := []; IO.write_queue := [];
     IO.buffer := []; IO.lock := 0; IO.channels := chans;
     IO.socket_ := None; IO.state := None; IO.running := true;
     IO.write_buffer := []; IO.sent := []; IO.enqueued := []; IO.trace := [] |}.

(** A poll that reports the data socket writable, nothing readable, no
    error, and whose send accepts [n] bytes. *)
Definition writable (produced : list (Z * bytes)) (n : nat) : IO.poll_input bytes :=
  {| IO.produced := produced;
     IO.poller_poll := fun _ => ([], [3], []);
     IO.trigger_recv := None;
     IO.recv_result := IO.RecvTimeout;
     IO.send_result := IO.SendOk n |}.

(** A poll that reports the data socket readable and delivers [data]. *)
Definition readable (data : bytes) : IO.poll_input bytes :=
  {| IO.produced := [];
     IO.poller_poll := fun _ => ([3], [], []);
     IO.trigger_recv := None;
     IO.recv_result := IO.RecvOk data;
     IO.send_result := IO.SendTimeout |}.

(** A poll that reports the data socket in the errored set. *)
Definition errored : IO.poll_input bytes :=
  {| IO.produced := [];
     IO.poller_poll := fun _ => ([3], [3], [3]);
     IO.trigger_recv := None;
     IO.recv_result := IO.RecvOk [];
     IO.send_result := IO.SendOk 0 |}.

(** Channels 0 and 5 registered, their queues empty. *)
Definition registry : gmap Z (consumer * list bytes) :=
  <[5 := (channel5, [])]> (<[0 := (channel0, [])]> ∅).

Definition payload8 : bytes := ["a"; "b"; "c"; "d"; "e"; "f"; "g"; "h"]%byte.
Definition frameA : bytes := ["A"]%byte.
Definition frameB : bytes := ["B"]%byte.

(** Another channel object that also answers to id 5. *)
Definition channel5b : consumer := {| id := 5; open := false; handled := [] |}.

(** Frame B on channel 7, which [registry] does not hold. *)
Definition stray : bytes := marshal frameB 7.

(** EAGAIN as Linux numbers it, and as the BSDs and macOS number it. *)
Definition eagain_linux : IO.socket_error :=
  {| IO.errno := Some 11; IO.strerror := "Resource temporarily unavailable" |}.
Definition eagain_bsd : IO.socket_error :=
  {| IO.errno := Some 35; IO.strerror := "Resource temporarily unavailable" |}.

Definition refused : IO.socket_error :=
  {| IO.errno := Some 111; IO.strerror := "Connection refused" |}.

Definition addr (ip : string) : IO.addrinfo :=
  {| IO.af := 2; IO.socktype := 1; IO.proto := 6; IO.canonname := "";
     IO.sockaddr := (ip, 5672) |}.

(** A host that resolves to two addresses, both refusing the connection. *)
Definition unreachable : IO.network :=
  {| IO.has_ipv6 := true;
     IO.getaddrinfo := fun _ _ _ => Some [addr "10.0.0.1"; addr "10.0.0.2"];
     IO.create_fails := fun _ => None;
     IO.wrap_fails := fun _ => None;
     IO.connect_fails := fun _ => Some refused |}.

(** A codec whose frames end in a marker byte.  Its decoder reports a
    frame, and counts the marker in, as soon as the header and the payload
    are there: it does not wait for the marker. *)
Definition frame_end : byte := "206"%byte.

Definition marshal_marked (f : bytes) (channel_id : Z) : bytes :=
  marshal f channel_id ++ [frame_end].

Definition unmarshal_marked (data : bytes) : option (nat * Z * bytes) :=
  match unmarshal data with
  | Some (n, c, f) => Some (S n, c, f)
  | None => None
  end.

(** Frames A and B on channel 5, on the wire of the marked codec. *)
Definition marked_stream : bytes := marshal_marked frameA 5 ++ marshal_marked frameB 5.

(** A host that resolves to one address, which accepts. *)
Definition reachable : IO.network :=
  {| IO.has_ipv6 := true;
     IO.getaddrinfo := fun _ _ _ => Some [addr "10.0.0.1"];
     IO.create_fails := fun _ => None;
     IO.wrap_fails := fun _ => None;
     IO.connect_fails := fun _ => None |}.

(** A fresh connection configured for TLS with a CA certificate file. *)
Definition tls_args : IO.conn_args :=
  {| IO.host := "localhost"; IO.port := 5671; IO.ssl := true;
     IO.keyfile := None; IO.certfile := None; IO.verify := None;
     IO.ssl_version := None; IO.cacertfile := Some "/etc/ssl/ca.pem" |}.

Definition fresh_tls (chans : gmap Z (consumer * list bytes)) : IO.io bytes consumer :=
  {| IO.args := tls_args;
     IO.fd_fileno := 3; IO.trigger_fileno := 4;
     IO.events := ∅; IO.exceptions := []; IO.write_queue := [];
     IO.buffer := []; IO.lock := 0; IO.channels := chans;
     IO.socket_ := None; IO.state := None; IO.running := true;
     IO.write_buffer := []; IO.sent := []; IO.enqueued := []; IO.trace := [] |}.

(** Frame A on channel 0 followed by frame B on channel 5, on the wire. *)
Definition stream : bytes := marshal frameA 0 ++ marshal frameB 5.

(** A host whose first address refuses and whose second accepts. *)
Definition flaky : IO.network :=
  {| IO.has_ipv6 := true;
     IO.getaddrinfo := fun _ _ _ => Some [addr "10.0.0.1"; addr "10.0.0.2"];
     IO.create_fails := fun _ => None;
     IO.wrap_fails := fun _ => None;
     IO.connect_fails := fun a =>
       if String.eqb (fst a) "10.0.0.1" then Some refused else None |}.

(** The data socket is readable and writable, and the read fails. *)
Definition read_fails : IO.poll_input bytes :=
  {| IO.produced := [];
     IO.poller_poll := fun _ => ([3], [3], []);
     IO.trigger_recv := None;
     IO.recv_result := IO.RecvError refused;
     IO.send_result := IO.SendOk 1 |}.

(** The data socket is writable and the send fails. *)
Definition send_fails (e : IO.socket_error) : IO.poll_input bytes :=
  {| IO.produced := [];
     IO.poller_poll := fun _ => ([], [3], []);
     IO.trigger_recv := None;
     IO.recv_result := IO.RecvTimeout;
     IO.send_result := IO.SendError e |}.

(** The poll comes back empty-handed. *)
Definition quiet : IO.poll_input bytes :=
  {| IO.produced := [];
     IO.poller_poll := fun _ => ([], [], []);
     IO.trigger_recv := None;
     IO.recv_result := IO.RecvTimeout;
     IO.send_result := IO.SendTimeout |}.

(** Frames A and B put on the write queue of a fresh connection. *)
Definition outbound : list (Z * bytes) := [(0, frameA); (5, frameB)].
Definition loaded : IO.io bytes consumer := IO.put_frames outbound (fresh registry).

(** A platform whose [select] module has [poll]. *)
Definition linux : Pollers.platform :=
  {| Pollers.has_poll := true; Pollers.has_kqueue := false |}.

(** A [select] that reports everything it was asked about. *)
Definition select_all : Pollers.select_call := fun r w x _ => Some (r, w, x).

(** Every wait is interrupted. *)
Definition interrupted : Pollers.os_poll :=
  {| Pollers.os_select := fun _ _ _ _ => None;
     Pollers.os_poll_events := None;
     Pollers.os_kqueue := {| Pollers.kq_events := None;
                             Pollers.kq_cleanup_fd_fails := None;
                             Pollers.kq_cleanup_trigger_fails := None |} |}.

(** The peer has gone: [poll] reports POLLIN and POLLERR on the data
    socket, the kernel queue a read event flagged EV_EOF. *)
Definition eof_event : Pollers.kevent :=
  {| Pollers.ident := 3; Pollers.filter := Pollers.KQ_FILTER_READ;
     Pollers.flags := Pollers.KQ_EV_EOF; Pollers.data := 0 |}.

Definition peer_gone : Pollers.os_poll :=
  {| Pollers.os_select := select_all;
     Pollers.os_poll_events := Some [(3, 9)];
     Pollers.os_kqueue := {| Pollers.kq_events := Some [eof_event];
                             Pollers.kq_cleanup_fd_fails := None;
                             Pollers.kq_cleanup_trigger_fails := None |} |}.

End Sample.

(** * Properties of the transport *)

Module IOSpec.
Import IO.

Section Facts.

Context {Frame Consumer : Type}.
Variable marshal : Frame -> Z -> bytes.
Variable unmarshal : bytes -> option (nat * Z * Frame).
Variable channel_int : Consumer -> Z.
Variable channel_open : Consumer -> bool.
Variable on_frame : Consumer -> Frame -> Consumer * list (Z * Frame).

Abbreviation io := (IO.io Frame Consumer).
Abbreviation result := (IO.result Frame Consumer).
Abbreviation poll_input := (IO.poll_input Frame).
Abbreviation marshal_all := (IO.marshal_all marshal).
Abbreviation wire_inv := (IO.wire_inv marshal).
Abbreviation on_error := (IO.on_error channel_open).
Abbreviation on_read_loop := (IO.on_read_loop unmarshal on_frame).
Abbreviation on_read := (IO.on_read unmarshal on_frame).
Abbreviation dispatch_channel0 := (IO.dispatch_channel0 on_frame).
Abbreviation _read := (IO._read unmarshal channel_open on_frame).
Abbreviation _write := (IO._write channel_open).
Abbreviation _poll := (IO._poll marshal unmarshal channel_open on_frame).
Abbreviation run_loop := (IO.run_loop marshal unmarshal channel_open on_frame).
Abbreviation IOLoop_run := (IO.IOLoop_run marshal unmarshal channel_open on_frame).
Abbreviation IO_run := (IO.IO_run marshal unmarshal channel_open on_frame).

(** *** The write path keeps every byte in order *)

Lemma wire_inv_view (s s' : io) :
  wire_view s' = wire_view s -> wire_inv s -> wire_inv s'.
Proof.
  unfold wire_view, IO.wire_inv. intros Hv Hs.
  injection Hv as -> -> -> ->. exact Hs.
Qed.

Lemma marshal_all_app (q1 q2 : list (Z * Frame)) :
  marshal_all (q1 ++ q2) = marshal_all q1 ++ marshal_all q2.
Proof. unfold IO.marshal_all. by rewrite map_app, concat_app. Qed.

Lemma drain_concat (q : list (Z * Frame)) (wb : list bytes) :
  concat (IO.drain marshal q wb) = concat wb ++ marshal_all q.
Proof.
  revert wb. induction q as [|d q IH]; intros wb; simpl.
  - unfold IO.marshal_all. simpl. by rewrite app_nil_r.
  - rewrite IH, concat_app. simpl. rewrite app_nil_r, <- app_assoc.
    reflexivity.
Qed.

Lemma put_frame_inv (d : Z * Frame) (s : io) :
  wire_inv s -> wire_inv (put_frame d s).
Proof.
  unfold IO.wire_inv, put_frame. simpl. intros H.
  rewrite !marshal_all_app, H, <- !app_assoc. reflexivity.
Qed.

Lemma put_frames_inv (ds : list (Z * Frame)) (s : io) :
  wire_inv s -> wire_inv (put_frames ds s).
Proof.
  revert s. induction ds as [|d ds IH]; intros s H; simpl; [done|].
  apply IH, put_frame_inv, H.
Qed.

Lemma on_error_view (a : error_arg) (s : io) :
  wire_view (final (on_error a s)) = wire_view s.
Proof.
  unfold IO.on_error. destruct (channels s !! 0) as [[c q]|]; [|done].
  by destruct (channel_open c).
Qed.

Lemma on_error_inv (a : error_arg) (s : io) :
  wire_inv s -> wire_inv (final (on_error a s)).
Proof. apply wire_inv_view, on_error_view. Qed.

Lemma _add_frame_to_queue_view (c : Z) (f : Frame) (s : io) :
  wire_view (final (_add_frame_to_queue c f s)) = wire_view s.
Proof.
  unfold _add_frame_to_queue. by destruct (channels s !! c) as [[ch q]|].
Qed.

Lemma dispatch_channel0_inv (f : Frame) (s : io) :
  wire_inv s -> wire_inv (final (dispatch_channel0 f s)).
Proof.
  intros H. unfold IO.dispatch_channel0. simpl.
  destruct (channels s !! 0) as [[c q]|]; [|exact H].
  destruct (on_frame c f) as [c' out]. simpl.
  eapply wire_inv_view; [reflexivity|]. simpl.
  apply put_frames_inv. eapply wire_inv_view; [|exact H]. reflexivity.
Qed.

Lemma and_then_inv (P : io -> Prop) (r : result) (k : io -> result) :
  P (final r) -> (forall s, P s -> P (final (k s))) -> P (final (and_then r k)).
Proof. destruct r; simpl; auto. Qed.

Lemma on_read_loop_inv (fuel : nat) (s : io) :
  wire_inv s -> wire_inv (final (on_read_loop fuel s)).
Proof.
  revert s. induction fuel as [|fuel IH]; intros s H; simpl.
  - by destruct (truthy (buffer s)).
  - destruct (truthy (buffer s)); simpl; [|exact H].
    unfold _read_frame.
    destruct (_get_frame_from_str unmarshal (buffer s)) as [rest [[c f]|]].
    + assert (H1 : wire_inv (with_buffer rest s))
        by (eapply wire_inv_view; [|exact H]; reflexivity).
      destruct (c =? 0).
      * apply and_then_inv; [by apply dispatch_channel0_inv | exact IH].
      * apply and_then_inv; [|exact IH].
        eapply wire_inv_view; [apply _add_frame_to_queue_view | exact H1].
    + by destruct (truthy (buffer (with_buffer rest s))).
Qed.

Lemma on_read_inv (data : bytes) (s : io) :
  wire_inv s -> wire_inv (final (on_read data s)).
Proof.
  intros H. unfold IO.on_read. apply on_read_loop_inv.
  eapply wire_inv_view; [|exact H]. reflexivity.
Qed.

Lemma _read_inv (r : recv_outcome) (s : io) :
  wire_inv s -> wire_inv (final (_read r s)).
Proof.
  intros H. unfold IO._read. destruct (running s); simpl; [|exact H].
  destruct r as [data| |e]; simpl; [by apply on_read_inv | exact H |].
  apply on_error_inv. eapply wire_inv_view; [|exact H]. reflexivity.
Qed.

(** A send that is not fatal moves a prefix of the front chunk from the
    write buffer to the socket and leaves the rest where it was. *)
Lemma _write_inv (o : send_outcome) (s : io) :
  send_retryable o = true -> wire_inv s -> wire_inv (final (_write o s)).
Proof.
  intros Ho H. unfold IO._write. destruct (running s); simpl; [|exact H].
  destruct (write_buffer s) as [|frame_data rest] eqn:Hwb; [exact H|].
  unfold IO.wire_inv in *. rewrite Hwb in H. simpl in H.
  destruct o as [n| |e]; simpl in *.
  - destruct (n <? length frame_data)%nat eqn:Hn; simpl.
    + rewrite H, <- !app_assoc. f_equal.
      rewrite !app_assoc. by rewrite take_drop.
    + apply Nat.ltb_ge in Hn.
      rewrite H, <- !app_assoc. by rewrite firstn_all2.
  - exact H.
  - rewrite Ho. simpl. exact H.
Qed.

Lemma _poll_inv (i : poll_input) (s : io) :
  send_retryable (send_result i) = true ->
  wire_inv s -> wire_inv (final (_poll i s)).
Proof.
  intros Ho H. unfold IO._poll.
  set (s1 := with_write_buffer _ _).
  assert (H1 : wire_inv s1).
  { unfold IO.wire_inv in *. subst s1. simpl.
    rewrite drain_concat, H, <- !app_assoc.
    replace (marshal_all []) with (@nil byte) by reflexivity.
    by rewrite app_nil_r. }
  destruct (poller_poll i (truthy (write_buffer s1))) as [[rl wl] xl].
  destruct (truthy xl).
  - apply on_error_inv. eapply wire_inv_view; [|exact H1]. reflexivity.
  - apply and_then_inv.
    + destruct (bool_decide _); [|exact H1]. by destruct (trigger_recv i).
    + intros s2 H2. apply and_then_inv.
      * destruct (bool_decide _); [by apply _read_inv | exact H2].
      * intros s3 H3. destruct (truthy wl && truthy (write_buffer s3));
          [by apply _write_inv | exact H3].
Qed.

Lemma run_loop_inv (inputs : list poll_input) (s : io) :
  Forall (fun i => send_retryable (send_result i) = true) inputs ->
  wire_inv s -> wire_inv (final (run_loop inputs s)).
Proof.
  intros Hall. revert s.
  induction Hall as [|i inputs Hi Hall IH]; intros s H; simpl.
  - by destruct (running s).
  - destruct (running s); simpl; [|exact H].
    pose proof (_poll_inv i (put_frames (produced i) s) Hi
                  (put_frames_inv _ _ H)) as Hp.
    destruct (_poll i (put_frames (produced i) s)) as [s'|e s'|s']; simpl in Hp.
    + destruct (is_set SOCKET_CLOSE (events s')); [exact Hp | by apply IH].
    + destruct e as [k| |e|]; try exact Hp.
      destruct (bool_decide _); [by apply IH|].
      destruct (is_set SOCKET_CLOSE (events s')); [exact Hp | by apply IH].
    + exact Hp.
Qed.

(** *** Every byte is transmitted in the end *)

Lemma drain_app (q : list (Z * Frame)) (wb : list bytes) :
  drain marshal q wb = wb ++ map (fun d => marshal (snd d) (fst d)) q.
Proof.
  revert wb. induction q as [|d q IH]; intros wb; simpl.
  - by rewrite app_nil_r.
  - by rewrite IH, <- app_assoc.
Qed.

Lemma backlog_0 (s : io) :
  backlog marshal s = 0%nat -> write_buffer s = [] /\ write_queue s = [].
Proof.
  unfold backlog. rewrite drain_app.
  destruct (write_buffer s) as [|chunk wb]; [|simpl; lia].
  destruct (write_queue s) as [|d q]; [done | simpl; lia].
Qed.

(** One iteration that sends some bytes leaves less work. *)
Lemma _poll_sends_some (i : poll_input) (s : io) :
  sends_some i -> running s = true ->
  exists s',
    _poll i s = Returned s'
    /\ running s' = true
    /\ events s' = events s
    /\ enqueued s' = enqueued s
    /\ (backlog marshal s' < backlog marshal s
        \/ backlog marshal s = 0 /\ backlog marshal s' = 0)%nat.
Proof.
  intros (_ & (n & Hsend & Hn) & Hpoll) Hrun. unfold IO._poll, backlog.
  destruct (Hpoll (truthy (write_buffer
              (with_write_buffer (drain marshal (write_queue s) (write_buffer s))
                 (with_write_queue [] s))))) as (wl & -> & Hwl).
  simpl. destruct wl as [|w wl]; [done|]. simpl.
  destruct (drain marshal (write_queue s) (write_buffer s)) as [|chunk rest] eqn:Hd.
  - simpl. eexists. split; [reflexivity|]. simpl. repeat split; [done|].
    by right.
  - simpl. unfold IO._write. simpl. rewrite Hrun, Hsend. simpl.
    destruct (n <? length chunk)%nat eqn:Hlt.
    + eexists. split; [reflexivity|]. simpl. repeat split; [done|].
      left. rewrite length_drop. apply Nat.ltb_lt in Hlt. lia.
    + eexists. split; [reflexivity|]. simpl. repeat split; [done|].
      left. lia.
Qed.

(** Given as many such iterations as there is work, the loop empties the
    queue and the write buffer, whatever byte counts the sends report. *)
Lemma run_loop_drains (inputs : list poll_input) (s : io) :
  Forall sends_some inputs ->
  running s = true ->
  is_set SOCKET_CLOSE (events s) = false ->
  (backlog marshal s <= length inputs)%nat ->
  write_buffer (final (run_loop inputs s)) = []
  /\ write_queue (final (run_loop inputs s)) = [].
Proof.
  intros Hall. revert s.
  induction Hall as [|i inputs Hi Hall IH]; intros s Hrun Hclose Hwork.
  - simpl in *. rewrite Hrun. simpl. apply backlog_0. lia.
  - simpl. rewrite Hrun. simpl.
    destruct (_poll_sends_some i s Hi Hrun) as (s' & Hp & Hrun' & Hev & _ & Hless).
    destruct Hi as (-> & _). simpl. rewrite Hp, Hev, Hclose.
    apply IH; [done | by rewrite Hev |]. simpl in Hwork. lia.
Qed.

(** So the bytes transmitted are then the marshaled forms of all the
    enqueued pairs, in enqueue order. *)
Lemma run_loop_transmits_everything (inputs : list poll_input) (s : io) :
  wire_inv s ->
  Forall sends_some inputs ->
  running s = true ->
  is_set SOCKET_CLOSE (events s) = false ->
  (backlog marshal s <= length inputs)%nat ->
  sent (final (run_loop inputs s)) = marshal_all (enqueued s).
Proof.
  intros Hinv Hall Hrun Hclose Hwork.
  destruct (run_loop_drains inputs s Hall Hrun Hclose Hwork) as [Hwb Hwq].
  assert (Hret : Forall (fun i => send_retryable (send_result i) = true) inputs).
  { eapply Forall_impl; [exact Hall|]. intros i (_ & (n & -> & _) & _). done. }
  pose proof (run_loop_inv inputs s Hret Hinv) as Hfin.
  unfold IO.wire_inv in Hfin. rewrite Hwb, Hwq in Hfin. simpl in Hfin.
  replace (marshal_all []) with (@nil byte) in Hfin by reflexivity.
  rewrite app_nil_r in Hfin. rewrite <- Hfin. f_equal.
  clear -Hall Hrun. revert s Hrun.
  induction Hall as [|i inputs Hi Hall IH]; intros s Hrun; simpl.
  - by rewrite Hrun.
  - rewrite Hrun. simpl.
    destruct (_poll_sends_some i s Hi Hrun) as (s' & Hp & Hrun' & Hev & He & _).
    destruct Hi as (Hprod & _). rewrite Hprod. simpl. rewrite Hp.
    destruct (is_set SOCKET_CLOSE (events s')); [done|].
    rewrite IH by done. exact He.
Qed.

Lemma put_frames_enqueued (ds : list (Z * Frame)) (s : io) :
  enqueued (put_frames ds s) = enqueued s ++ ds
  /\ events (put_frames ds s) = events s
  /\ running (put_frames ds s) = running s.
Proof.
  revert s. induction ds as [|d ds IH]; intros s; simpl.
  - by rewrite app_nil_r.
  - destruct (IH (put_frame d s)) as (He & Hev & Hr).
    rewrite He, Hev, Hr. simpl. by rewrite <- app_assoc.
Qed.

(** C1. Start in a state where every enqueued byte is accounted for (a
    fresh connection is one), put any sequence of pairs on the write
    queue and run the loop over iterations that each find the socket
    writable and whose sends accept any number of bytes, at least one
    each, for as many iterations as there is work.  Then the bytes the
    socket accepted are exactly the marshaled forms of all enqueued pairs
    in enqueue order, and nothing is left pending.  Over any iterations in
    which no send fails fatally, with pairs enqueued in between, reads,
    timeouts and retries, the bytes accepted followed by the chunks in the
    write buffer and the marshaled queue are always that concatenation:
    no byte is lost or duplicated.  A send that reports fewer bytes than
    the front chunk holds transmits that prefix and puts the remaining
    suffix back at the front of the write buffer. *)
Theorem C1_transmitted_bytes_in_enqueue_order (s : io) :
  wire_inv s ->
  (forall (queue : list (Z * Frame)) (inputs : list poll_input),
     is_set SOCKET_CLOSE (events s) = false ->
     Forall sends_some inputs ->
     (backlog marshal (put_frames queue s) <= length inputs)%nat ->
     let s' := final (IOLoop_run inputs (put_frames queue s)) in
     sent s' = marshal_all (enqueued s ++ queue)
     /\ write_buffer s' = []
     /\ write_queue s' = [])
  /\ (forall inputs : list poll_input,
        Forall (fun i => send_retryable (send_result i) = true) inputs ->
        let s' := final (IOLoop_run inputs s) in
        marshal_all (enqueued s') =
          sent s' ++ concat (write_buffer s') ++ marshal_all (write_queue s'))
  /\ forall (st : io) (chunk : bytes) (rest : list bytes) (n : nat),
       running st = true -> write_buffer st = chunk :: rest ->
       (n < length chunk)%nat ->
       exists st',
         _write (SendOk n) st = Returned st'
         /\ sent st' = sent st ++ take n chunk
         /\ write_buffer st' = drop n chunk :: rest
         /\ take n chunk ++ drop n chunk = chunk.
Proof.
  intros Hs. split; [|split].
  - intros queue inputs Hclose Hall Hwork s'.
    destruct (put_frames_enqueued queue s) as (Henq & Hev & _).
    set (s0 := with_running true (put_frames queue s)).
    assert (Hinv0 : wire_inv s0).
    { eapply wire_inv_view; [|apply (put_frames_inv queue s Hs)]. reflexivity. }
    assert (Hclose0 : is_set SOCKET_CLOSE (events s0) = false)
      by (subst s0; simpl; by rewrite Hev).
    subst s'. unfold IO.IOLoop_run. fold s0.
    rewrite (run_loop_transmits_everything inputs s0 Hinv0 Hall eq_refl Hclose0 Hwork).
    split; [subst s0; simpl; by rewrite Henq|].
    exact (run_loop_drains inputs s0 Hall eq_refl Hclose0 Hwork).
  - intros inputs Hall s'. subst s'. unfold IO.IOLoop_run.
    apply run_loop_inv; [exact Hall|].
    eapply wire_inv_view; [|exact Hs]. reflexivity.
  - intros st chunk rest n Hrun Hwb Hn.
    unfold IO._write. rewrite Hrun, Hwb. simpl.
    apply Nat.ltb_lt in Hn. rewrite Hn.
    eexists. split; [reflexivity|]. simpl.
    repeat split. apply take_drop.
Qed.

(** *** Faults *)

Lemma is_set_events_set (e : event) (evs : gset event) :
  is_set e (events_set e evs) = true.
Proof. unfold is_set, events_set. apply bool_decide_eq_true. set_solver. Qed.

Lemma is_set_events_set_mono (e e' : event) (evs : gset event) :
  is_set e evs = true -> is_set e (events_set e' evs) = true.
Proof.
  unfold is_set, events_set. rewrite !bool_decide_eq_true. set_solver.
Qed.

(** What [on_error] does when channel 0 is registered. *)
Lemma on_error_registered (a : error_arg) (s : io) (channel0 : Consumer)
    (queue0 : list Frame) :
  channels s !! 0 = Some (channel0, queue0) ->
  on_error a s =
  Returned
    (with_events (events_set EXCEPTION_RAISED (events s))
       (with_exceptions
          (exceptions s ++
           [if channel_open channel0
            then ConnectionResetException (host (args s)) (port (args s)) (str a)
            else ConnectionException (host (args s)) (port (args s)) (str a)]) s)).
Proof.
  intros H. unfold IO.on_error. rewrite H. by destruct (channel_open channel0).
Qed.

(** C4. When the poll of an iteration returns a non-empty errored set
    (and channel 0 is registered), [_poll] returns with SOCKET_CLOSE set,
    the signal on which the loop leaves, and EXCEPTION_RAISED set, exactly
    one fault appended to the exception queue, a connection-reset fault if
    the channel-0 consumer is open and a connection-error fault if not;
    nothing was sent, nothing was read or dispatched, and the write buffer
    holds the drained queue untouched.  The running flag and the lifecycle
    state are as before. *)
Theorem C4_errored_poll_closes_with_one_fault
    (i : poll_input) (s : io) (channel0 : Consumer) (queue0 : list Frame)
    (rlist wlist xlist : list Z) :
  channels s !! 0 = Some (channel0, queue0) ->
  poller_poll i (truthy (drain marshal (write_queue s) (write_buffer s)))
    = (rlist, wlist, xlist) ->
  xlist <> [] ->
  exists s',
    _poll i s = Returned s'
    /\ is_set SOCKET_CLOSE (events s') = true
    /\ is_set EXCEPTION_RAISED (events s') = true
    /\ exceptions s' =
         exceptions s ++
         [if channel_open channel0
          then ConnectionResetException (host (args s)) (port (args s))
                                        "Connection reset"
          else ConnectionException (host (args s)) (port (args s))
                                   "Connection reset"]
    /\ sent s' = sent s
    /\ buffer s' = buffer s
    /\ trace s' = trace s
    /\ channels s' = channels s
    /\ write_buffer s' = drain marshal (write_queue s) (write_buffer s)
    /\ running s' = running s
    /\ state s' = state s.
Proof.
  intros Hc Hp Hx. unfold IO._poll. simpl. rewrite Hp.
  destruct xlist as [|x xs]; [done|]. simpl.
  erewrite on_error_registered by exact Hc.
  eexists. split; [reflexivity|]. simpl. repeat split.
  - apply is_set_events_set_mono, is_set_events_set.
  - apply is_set_events_set.
Qed.

(** The loop leaves after such an iteration. *)
Lemma run_loop_exits_when_closed (i : poll_input) (rest : list poll_input) (s s' : io) :
  running s = true ->
  _poll i (put_frames (produced i) s) = Returned s' ->
  is_set SOCKET_CLOSE (events s') = true ->
  run_loop (i :: rest) s = Returned s'.
Proof. intros Hr Hp Hc. simpl. by rewrite Hr, Hp, Hc. Qed.

(** C5, as the code has it.  A decoded frame on a channel other than 0
    that is not registered makes the loop of [on_read] raise [KeyError]
    for that channel id: the bytes of the frame are gone from the buffer,
    no queue received the frame, the exception queue and the signals are
    as before.  [_read] lets the exception through, and so does the loop
    of [IOLoop.run], which ends by it. *)
Theorem C5_unregistered_channel_raises_KeyError
    (fuel : nat) (s : io) (n : nat) (c : Z) (f : Frame) :
  truthy (buffer s) = true ->
  unmarshal (buffer s) = Some (n, c, f) ->
  c <> 0 ->
  channels s !! c = None ->
  (exists s',
     on_read_loop (S fuel) s = Raised (KeyError (Some c)) s'
     /\ buffer s' = drop n (buffer s)
     /\ channels s' = channels s
     /\ trace s' = trace s
     /\ exceptions s' = exceptions s
     /\ events s' = events s)
  /\ (forall data st e st',
        running st = true -> on_read data st = Raised e st' ->
        _read (RecvOk data) st = Raised e st')
  /\ (forall i rest st k st',
        running st = true ->
        _poll i (put_frames (produced i) st) = Raised (KeyError k) st' ->
        run_loop (i :: rest) st = Raised (KeyError k) st').
Proof.
  intros Ht Hu Hc0 Hc. split; [|split].
  - simpl. rewrite Ht. simpl. unfold _read_frame, IO._get_frame_from_str.
    rewrite Ht, Hu. simpl. apply Z.eqb_neq in Hc0. rewrite Hc0.
    unfold _add_frame_to_queue. simpl. rewrite Hc. simpl.
    eexists. split; [reflexivity|]. by simpl.
  - intros data st e st' Hr H. unfold IO._read. rewrite Hr. simpl. exact H.
  - intros i rest st k st' Hr H. simpl. by rewrite Hr, H.
Qed.

(** C6, as the code has it.  [add_channel] always returns, and afterwards
    the registry maps the channel's id to the pair just given, whatever it
    held for that id before; every other id is as before. *)
Theorem C6_add_channel_replaces (channel : Consumer) (queue : list Frame) (s : io) :
  exists s',
    add_channel channel_int channel queue s = Returned s'
    /\ channels s' !! channel_int channel = Some (channel, queue)
    /\ (forall k, k <> channel_int channel -> channels s' !! k = channels s !! k)
    /\ exceptions s' = exceptions s
    /\ events s' = events s.
Proof.
  unfold add_channel. eexists. split; [reflexivity|]. simpl.
  split; [apply lookup_insert_eq|]. split; [|done].
  intros k Hk. by apply lookup_insert_ne.
Qed.

(** A send that fails with errno 35 puts the whole chunk back at the
    front; the loop keeps running and no fault is recorded. *)
Lemma _write_errno_35_retries (e : socket_error) (s : io) (chunk : bytes)
    (rest : list bytes) :
  running s = true -> write_buffer s = chunk :: rest -> errno e = Some 35 ->
  _write (SendError e) s = Returned (with_write_buffer (chunk :: rest) s).
Proof.
  intros Hr Hwb He. unfold IO._write. rewrite Hr, Hwb. simpl.
  by rewrite bool_decide_eq_true_2.
Qed.

(** *** Connecting *)

Lemma connect_loop_all_fail (net : network) (s : io) (addrs : list addrinfo)
    (sock : option socket) :
  Forall (attempt_fails net s) addrs ->
  addrs <> [] \/ sock = None ->
  connect_loop net s addrs sock = inl None.
Proof.
  intros Hall. revert sock. induction Hall as [|a addrs Ha Hall IH]; intros sock Hs.
  - destruct Hs as [Hs|Hs]; [done | by rewrite Hs].
  - simpl. destruct Ha as [[e He]|[[sk Hsk] [e He]]].
    + rewrite He. apply IH. by right.
    + rewrite Hsk. unfold _connect_socket. rewrite He. apply IH. by right.
Qed.

(** With TLS and a CA certificate file configured, the keywords handed to
    [ssl.wrap_socket] include [cacerts], which it does not have. *)
Lemma cacertfile_not_accepted (a : conn_args) :
  given_text (cacertfile a) = true ->
  wrap_socket_accepts (ssl_kwargs a) = false.
Proof.
  intros Hca. unfold wrap_socket_accepts, ssl_kwargs, SSL_KWARGS.
  cbn [List.filter snd]. unfold arg_given. cbn [String.eqb Ascii.eqb Bool.eqb].
  rewrite Hca.
  destruct (given_text (keyfile a)), (given_text (certfile a)),
           (given_number (verify a)), (given_number (ssl_version a));
    vm_compute; reflexivity.
Qed.

Lemma connect_loop_raises (net : network) (s : io) (pre post : list addrinfo)
    (a : addrinfo) (e : exn) (sock : option socket) :
  Forall (attempt_fails net s) pre ->
  _create_socket net a s = CreateRaised e ->
  connect_loop net s (pre ++ a :: post) sock = inr e.
Proof.
  intros Hpre Ha. revert sock.
  induction Hpre as [|b pre Hb Hpre IH]; intros sock; simpl.
  - by rewrite Ha.
  - destruct Hb as [[x Hx]|[[sk Hsk] [x Hx]]].
    + rewrite Hx. apply IH.
    + rewrite Hsk. unfold _connect_socket. rewrite Hx. apply IH.
Qed.

(** C8, where the code departs from it.  With TLS on and a CA certificate
    file configured, the first address for which [socket.socket] gives a
    socket makes [_create_socket] call [ssl.wrap_socket] with the keyword
    [cacerts]; the [TypeError] is no [socket.error], so it leaves
    [_connect] and the worker thread: no fault is recorded, no signal is
    set, the state stays OPENING and the later addresses are not tried. *)
Theorem C8_cacertfile_raises_TypeError
    (net : network) (inputs : list poll_input) (s : io)
    (pre post : list addrinfo) (a : addrinfo) :
  ssl (args s) = true ->
  given_text (cacertfile (args s)) = true ->
  _get_addr_info net s = pre ++ a :: post ->
  Forall (fun b => is_Some (create_fails net b)) pre ->
  create_fails net a = None ->
  exists s',
    IO_run net inputs s = Raised TypeError s'
    /\ state s' = Some OPENING
    /\ state s' <> Some OPEN
    /\ exceptions s' = exceptions s
    /\ events s' = events s
    /\ socket_ s' = socket_ s.
Proof.
  intros Hssl Hca Haddr Hpre Hc. unfold IO.IO_run, IO._connect.
  change (_get_addr_info net (_set_state OPENING s)) with (_get_addr_info net s).
  rewrite Haddr.
  rewrite (connect_loop_raises net (_set_state OPENING s) pre post a TypeError None).
  - eexists. split; [reflexivity|]. by simpl.
  - eapply Forall_impl; [exact Hpre|]. intros b [e He]. left. exists e.
    unfold _create_socket. by rewrite He.
  - unfold _create_socket. rewrite Hc.
    change (args (_set_state OPENING s)) with (args s).
    by rewrite Hssl, cacertfile_not_accepted.
Qed.

(** *** The read path *)

Abbreviation dispatch := (IO.dispatch on_frame).
Abbreviation deliver := (IO.deliver unmarshal on_frame).
Abbreviation stuck := (IO.stuck unmarshal).
Abbreviation codec_framed := (IO.codec_framed unmarshal).
Abbreviation codec_prefix_stable := (IO.codec_prefix_stable unmarshal).
Abbreviation decode_stream := (IO.decode_stream unmarshal).
Abbreviation dispatch_events := (@IO.dispatch_events Frame).
Abbreviation frames_for := (@IO.frames_for Frame).
Abbreviation queue_of := (@IO.queue_of Frame Consumer).
Abbreviation consumer_of := (@IO.consumer_of Frame Consumer).
Abbreviation handle_all := (IO.handle_all on_frame).

Lemma with_buffer_id (s : io) : with_buffer (buffer s) s = s.
Proof. by destruct s. Qed.

Lemma put_frames_closed (out : list (Z * Frame)) (s : io) :
  put_frames out s =
  with_enqueued (enqueued s ++ out) (with_write_queue (write_queue s ++ out) s).
Proof.
  revert s. induction out as [|d out IH]; intros s.
  - simpl. rewrite !app_nil_r. by destruct s.
  - change (put_frames (d :: out) s) with (put_frames out (put_frame d s)).
    rewrite IH. simpl. rewrite <- !app_assoc. reflexivity.
Qed.

Lemma dispatch_with_buffer (c : Z) (f : Frame) (b : bytes) (s : io) :
  dispatch c f (with_buffer b s) = map_result (with_buffer b) (dispatch c f s).
Proof.
  unfold IO.dispatch, IO.dispatch_channel0, _add_frame_to_queue.
  destruct (c =? 0); simpl.
  - destruct (channels s !! 0) as [[ch q]|]; [|reflexivity].
    destruct (on_frame ch f) as [ch' out]. simpl.
    rewrite !put_frames_closed. reflexivity.
  - destruct (channels s !! c) as [[ch q]|]; reflexivity.
Qed.

Lemma dispatch_buffer (c : Z) (f : Frame) (s : io) :
  buffer (final (dispatch c f s)) = buffer s.
Proof.
  unfold IO.dispatch, IO.dispatch_channel0, _add_frame_to_queue.
  destruct (c =? 0); simpl.
  - destruct (channels s !! 0) as [[ch q]|]; [|reflexivity].
    destruct (on_frame ch f) as [ch' out]. simpl.
    rewrite !put_frames_closed. reflexivity.
  - destruct (channels s !! c) as [[ch q]|]; reflexivity.
Qed.

Lemma dispatch_not_pending (c : Z) (f : Frame) (s s' : io) :
  dispatch c f s <> Pending s'.
Proof.
  unfold IO.dispatch, IO.dispatch_channel0, _add_frame_to_queue.
  destruct (c =? 0); simpl.
  - destruct (channels s !! 0) as [[ch q]|]; [|discriminate].
    by destruct (on_frame ch f).
  - by destruct (channels s !! c) as [[ch q]|].
Qed.

Lemma truthy_nil {A} (l : list A) : truthy l = false <-> l = [].
Proof. by destruct l. Qed.

Lemma on_read_loop_nil (fuel : nat) (s : io) :
  buffer s = [] -> on_read_loop fuel s = Returned s.
Proof. intros H. destruct fuel; simpl; by rewrite H. Qed.

(** One iteration of the loop on a buffer that is not empty. *)
Lemma on_read_loop_S (fuel : nat) (s : io) :
  truthy (buffer s) = true ->
  on_read_loop (S fuel) s =
  match unmarshal (buffer s) with
  | None => Returned s
  | Some (n, c, f) =>
      and_then (dispatch c f (with_buffer (drop n (buffer s)) s)) (on_read_loop fuel)
  end.
Proof.
  intros H. simpl. rewrite H. simpl.
  unfold _read_frame, IO._get_frame_from_str. rewrite H. simpl.
  destruct (unmarshal (buffer s)) as [[[n c] f]|]; simpl.
  - unfold IO.dispatch. by destruct (c =? 0).
  - rewrite H. by rewrite with_buffer_id.
Qed.

Lemma on_read_loop_buffer_le (fuel : nat) (s : io) :
  (length (buffer (final (on_read_loop fuel s))) <= length (buffer s))%nat.
Proof.
  revert s. induction fuel as [|fuel IH]; intros s.
  - simpl. by destruct (truthy (buffer s)).
  - destruct (truthy (buffer s)) eqn:Ht.
    + rewrite on_read_loop_S by done.
      destruct (unmarshal (buffer s)) as [[[n c] f]|]; [|done].
      pose proof (dispatch_buffer c f (with_buffer (drop n (buffer s)) s)) as Hb.
      destruct (dispatch _ _ _) as [s2|e s2|s2]; simpl in *.
      * etrans; [apply IH|]. rewrite Hb, length_drop. lia.
      * rewrite Hb, length_drop. lia.
      * rewrite Hb, length_drop. lia.
    + apply truthy_nil in Ht. by rewrite on_read_loop_nil.
Qed.

Lemma on_read_loop_returned_stuck (fuel : nat) (s s' : io) :
  on_read_loop fuel s = Returned s' -> stuck s'.
Proof.
  revert s. induction fuel as [|fuel IH]; intros s.
  - simpl. destruct (truthy (buffer s)) eqn:Ht; simpl; [discriminate|].
    intros [= <-]. left. by apply truthy_nil.
  - destruct (truthy (buffer s)) eqn:Ht.
    + rewrite on_read_loop_S by done.
      destruct (unmarshal (buffer s)) as [[[n c] f]|] eqn:Hu.
      * destruct (dispatch _ _ _) as [s2|e s2|s2]; simpl; try discriminate.
        apply IH.
      * intros [= <-]. by right.
    + apply truthy_nil in Ht. rewrite on_read_loop_nil by done.
      intros [= <-]. by left.
Qed.

Section Codec.

Hypothesis Hframed : codec_framed.

(** With a codec that consumes at least one byte per frame the loop ends
    within one iteration per buffered byte, and more fuel changes
    nothing. *)
Lemma on_read_loop_fuel (m k1 k2 : nat) (s : io) :
  (length (buffer s) <= m)%nat -> (m <= k1)%nat -> (m <= k2)%nat ->
  on_read_loop k1 s = on_read_loop k2 s.
Proof.
  revert k1 k2 s. induction m as [|m IH]; intros k1 k2 s Hlen H1 H2.
  - assert (buffer s = []) by (destruct (buffer s); [done | simpl in Hlen; lia]).
    by rewrite !on_read_loop_nil.
  - destruct (truthy (buffer s)) eqn:Ht.
    + destruct k1 as [|k1]; [lia|]. destruct k2 as [|k2]; [lia|].
      rewrite !on_read_loop_S by done.
      destruct (unmarshal (buffer s)) as [[[n c] f]|] eqn:Hu; [|done].
      apply Hframed in Hu.
      pose proof (dispatch_buffer c f (with_buffer (drop n (buffer s)) s)) as Hb.
      destruct (dispatch _ _ _) as [s2|e s2|s2]; simpl in *; try done.
      apply IH; [|lia|lia]. rewrite Hb, length_drop. lia.
    + apply truthy_nil in Ht. by rewrite !on_read_loop_nil.
Qed.

Lemma on_read_loop_not_pending (k : nat) (s s' : io) :
  (length (buffer s) <= k)%nat -> on_read_loop k s <> Pending s'.
Proof.
  revert s. induction k as [|k IH]; intros s Hlen.
  - assert (buffer s = []) by (destruct (buffer s); [done | simpl in Hlen; lia]).
    by rewrite on_read_loop_nil.
  - destruct (truthy (buffer s)) eqn:Ht.
    + rewrite on_read_loop_S by done.
      destruct (unmarshal (buffer s)) as [[[n c] f]|] eqn:Hu; [|done].
      apply Hframed in Hu.
      pose proof (dispatch_buffer c f (with_buffer (drop n (buffer s)) s)) as Hb.
      pose proof (dispatch_not_pending c f (with_buffer (drop n (buffer s)) s)) as Hnp.
      destruct (dispatch _ _ _) as [s2|e s2|s2]; simpl in *;
        [|done|by destruct (Hnp s2)].
      apply IH. rewrite Hb, length_drop. lia.
    + apply truthy_nil in Ht. by rewrite on_read_loop_nil.
Qed.

(** *** Dispatch *)

Lemma frames_for_cons (c : Z) (d : Z * Frame) (ds : list (Z * Frame)) :
  frames_for c (d :: ds) = frames_for c [d] ++ frames_for c ds.
Proof.
  unfold frames_for. rewrite (filter_cons (fun d => fst d = c) d ds).
  rewrite (filter_cons (fun d => fst d = c) d []).
  by destruct (decide (fst d = c)).
Qed.

Lemma frames_for_eq (c : Z) (f : Frame) : frames_for c [(c, f)] = [f].
Proof.
  unfold frames_for. rewrite (filter_cons (fun d => fst d = c) (c, f) []).
  simpl. by destruct (decide (c = c)).
Qed.

Lemma frames_for_ne (c c' : Z) (f : Frame) : c <> c' -> frames_for c' [(c, f)] = [].
Proof.
  intros Hne. unfold frames_for.
  rewrite (filter_cons (fun d => fst d = c') (c, f) []).
  simpl. by destruct (decide (c = c')).
Qed.

(** The dispatch of one frame whose channel is registered. *)
Lemma dispatch_registered (c : Z) (f : Frame) (s : io) :
  is_Some (channels s !! c) ->
  exists s2,
    dispatch c f s = Returned s2
    /\ trace s2 = trace s ++ dispatch_events (c, f)
    /\ buffer s2 = buffer s
    /\ lock s2 = lock s
    /\ exceptions s2 = exceptions s
    /\ (forall c', is_Some (channels s2 !! c') <-> is_Some (channels s !! c'))
    /\ (forall c' q, c' <> 0 -> queue_of c' s = Some q ->
          queue_of c' s2 = Some (q ++ frames_for c' [(c, f)]))
    /\ (forall q, queue_of 0 s = Some q -> queue_of 0 s2 = Some q)
    /\ (forall ch0, consumer_of 0 s = Some ch0 ->
          consumer_of 0 s2 = Some (handle_all ch0 (frames_for 0 [(c, f)]))).
Proof.
  intros [[ch q] Hc]. unfold IO.dispatch, dispatch_events. simpl.
  destruct (c =? 0) eqn:Hz.
  - apply Z.eqb_eq in Hz. subst c. unfold IO.dispatch_channel0. simpl.
    rewrite Hc. destruct (on_frame ch f) as [ch' out] eqn:Hof.
    rewrite put_frames_closed.
    eexists. split; [reflexivity|]. simpl.
    rewrite <- !app_assoc. repeat split.
    + intros [x Hx]. destruct (decide (c' = 0)) as [->|Hne]; [by eexists|].
      rewrite lookup_insert_ne in Hx by done. by eexists.
    + intros [x Hx]. destruct (decide (c' = 0)) as [->|Hne].
      * rewrite lookup_insert_eq. by eexists.
      * rewrite lookup_insert_ne by done. by eexists.
    + intros c' q' Hne. unfold queue_of. simpl.
      rewrite lookup_insert_ne by done. intros ->.
      by rewrite frames_for_ne, app_nil_r.
    + intros q'. unfold queue_of. simpl. rewrite lookup_insert_eq, Hc. simpl.
      by intros [= ->].
    + intros ch0. unfold consumer_of. simpl. rewrite lookup_insert_eq, Hc.
      simpl. intros [= ->]. by rewrite Hof.
  - apply Z.eqb_neq in Hz. unfold _add_frame_to_queue. rewrite Hc.
    eexists. split; [reflexivity|]. simpl. repeat split.
    + intros [x Hx]. destruct (decide (c' = c)) as [->|Hne]; [by eexists|].
      rewrite lookup_insert_ne in Hx by done. by eexists.
    + intros [x Hx]. destruct (decide (c' = c)) as [->|Hne].
      * rewrite lookup_insert_eq. by eexists.
      * rewrite lookup_insert_ne by done. by eexists.
    + intros c' q' Hne. unfold queue_of. simpl.
      destruct (decide (c' = c)) as [->|Hne'].
      * rewrite lookup_insert_eq, Hc. simpl. intros [= ->].
        by rewrite frames_for_eq.
      * rewrite lookup_insert_ne by done. intros ->.
        by rewrite frames_for_ne, app_nil_r.
    + intros q'. unfold queue_of. simpl. by rewrite lookup_insert_ne.
    + intros ch0. unfold consumer_of. simpl. rewrite lookup_insert_ne by done.
      intros ->. by rewrite frames_for_ne.
Qed.

Lemma on_read_loop_dispatches (k : nat) (s : io) :
  (length (buffer s) <= k)%nat ->
  (forall d, d ∈ decode_stream k (buffer s) -> is_Some (channels s !! fst d)) ->
  exists s',
    on_read_loop k s = Returned s'
    /\ trace s' = trace s ++ concat (map dispatch_events (decode_stream k (buffer s)))
    /\ lock s' = lock s
    /\ exceptions s' = exceptions s
    /\ (forall c q, c <> 0 -> queue_of c s = Some q ->
          queue_of c s' = Some (q ++ frames_for c (decode_stream k (buffer s))))
    /\ (forall q, queue_of 0 s = Some q -> queue_of 0 s' = Some q)
    /\ (forall ch0, consumer_of 0 s = Some ch0 ->
          consumer_of 0 s' =
          Some (handle_all ch0 (frames_for 0 (decode_stream k (buffer s))))).
Proof.
  revert s. induction k as [|k IH]; intros s Hlen Hreg.
  - assert (Hnil : buffer s = [])
      by (destruct (buffer s); [done | simpl in Hlen; lia]).
    exists s. rewrite on_read_loop_nil by done. simpl.
    rewrite app_nil_r. repeat split; try done.
    intros c q _ Hq. by rewrite app_nil_r.
  - destruct (truthy (buffer s)) eqn:Ht.
    + rewrite on_read_loop_S by done.
      cbn [IO.decode_stream] in *. rewrite Ht in *. cbn [negb] in *.
      destruct (unmarshal (buffer s)) as [[[n c] f]|] eqn:Hu.
      * pose proof (Hframed _ _ _ _ Hu) as Hn.
        set (s1 := with_buffer (drop n (buffer s)) s).
        destruct (dispatch_registered c f s1) as
          (s2 & Hd & Htr & Hbuf & Hlock & Hexc & Hdom & Hq & Hq0 & Hh).
        { apply (Hreg (c, f)). by left. }
        rewrite Hd. cbn [and_then].
        destruct (IH s2) as (s' & Hl & Htr' & Hlock' & Hexc' & Hq' & Hq0' & Hh').
        { rewrite Hbuf. subst s1. simpl. rewrite length_drop. lia. }
        { intros d Hd'. apply Hdom. subst s1. simpl. apply Hreg.
          right. by rewrite Hbuf in Hd'. }
        exists s'. split; [exact Hl|]. rewrite Hbuf in *. subst s1. simpl in *.
        repeat split.
        -- by rewrite Htr', Htr, <- app_assoc.
        -- by rewrite Hlock'.
        -- by rewrite Hexc'.
        -- intros c' q Hne Hc'. rewrite frames_for_cons, app_assoc.
           apply Hq'; [done|]. by apply Hq.
        -- intros q Hc'. by apply Hq0', Hq0.
        -- intros ch0 Hc'. rewrite frames_for_cons. unfold IO.handle_all.
           rewrite fold_left_app. apply Hh'. by apply Hh.
      * exists s. simpl. rewrite app_nil_r. repeat split; try done.
        intros c q _ Hq. by rewrite app_nil_r.
    + apply truthy_nil in Ht. exists s. rewrite on_read_loop_nil by done.
      rewrite Ht. destruct k; simpl; rewrite app_nil_r; repeat split; try done;
        intros c q _ Hq; by rewrite app_nil_r.
Qed.

(** C3. Let the frames of the buffered and received bytes, in decode
    order, all be on registered channels.  Then [on_read] returns, and the
    dispatch steps it performed are, frame by frame in decode order: for a
    frame on channel 0, taking the lock, the call of the channel-0 handler
    on that frame, releasing the lock; for a frame on another channel, one
    put on that channel's queue.  Each queue other than channel 0's has
    grown by the frames of its channel, in order; channel 0's queue is as
    before and its channel object is what the handler made of it, frame
    after frame; the lock is released again. *)
Theorem C3_dispatch_in_decode_order (data : bytes) (s : io) :
  let frames := decode_stream (length (buffer s ++ data)) (buffer s ++ data) in
  (forall d, d ∈ frames -> is_Some (channels s !! fst d)) ->
  exists s',
    on_read data s = Returned s'
    /\ trace s' = trace s ++ concat (map dispatch_events frames)
    /\ (forall c f, dispatch_events (c, f) =
          if c =? 0 then [LockAcquire; OnFrame f; LockRelease] else [QueuePut c f])
    /\ lock s' = lock s
    /\ (forall c q, c <> 0 -> queue_of c s = Some q ->
          queue_of c s' = Some (q ++ frames_for c frames))
    /\ (forall q, queue_of 0 s = Some q -> queue_of 0 s' = Some q)
    /\ (forall ch0, consumer_of 0 s = Some ch0 ->
          consumer_of 0 s' = Some (handle_all ch0 (frames_for 0 frames))).
Proof.
  intros frames Hreg.
  destruct (on_read_loop_dispatches (length (buffer s ++ data)) (feed data s))
    as (s' & Hl & Htr & Hlock & _ & Hq & Hq0 & Hh); [done | exact Hreg |].
  exists s'. split; [exact Hl|]. split; [exact Htr|]. split; [done|].
  split; [exact Hlock|]. split; [exact Hq|]. split; [exact Hq0 | exact Hh].
Qed.

Hypothesis Hstable : codec_prefix_stable.

(** Decoding a buffer with more bytes behind it goes through the frames
    of the buffer first, exactly as without them, and then carries on
    with what is left followed by the new bytes. *)
Lemma on_read_loop_feed (m k : nat) (s : io) (more : bytes) :
  (length (buffer s) <= m)%nat -> (m + length more <= k)%nat ->
  match on_read_loop k s with
  | Returned s1 => on_read_loop k (feed more s) = on_read_loop k (feed more s1)
  | Raised e s1 => on_read_loop k (feed more s) = Raised e (feed more s1)
  | Pending _ => False
  end.
Proof.
  revert k s. induction m as [|m IH]; intros k s Hlen Hk.
  - assert (buffer s = []) by (destruct (buffer s); [done | simpl in Hlen; lia]).
    by rewrite on_read_loop_nil.
  - destruct (truthy (buffer s)) eqn:Ht;
      [|apply truthy_nil in Ht; by rewrite on_read_loop_nil].
    destruct k as [|k]; [lia|].
    assert (Ht' : truthy (buffer (feed more s)) = true).
    { simpl. by destruct (buffer s). }
    rewrite (on_read_loop_S k s Ht), (on_read_loop_S k (feed more s) Ht').
    simpl buffer.
    destruct (unmarshal (buffer s)) as [[[n c] f]|] eqn:Hu.
    + rewrite (Hstable _ more _ _ _ Hu).
      pose proof (Hframed _ _ _ _ Hu) as Hn.
      rewrite drop_app_le by lia.
      change (with_buffer (drop n (buffer s) ++ more) (feed more s))
        with (with_buffer (drop n (buffer s) ++ more) s).
      rewrite !dispatch_with_buffer.
      pose proof (dispatch_buffer c f s) as Hb.
      pose proof (dispatch_not_pending c f s) as Hnp.
      destruct (dispatch c f s) as [s2|e s2|s2];
        cbn [and_then map_result final] in *;
        [| reflexivity | by destruct (Hnp s2)].
      set (s3 := with_buffer (drop n (buffer s)) s2).
      assert (Hlen3 : (length (buffer s3) <= m)%nat).
      { subst s3. simpl. rewrite length_drop. lia. }
      specialize (IH k s3 Hlen3 ltac:(lia)).
      change (with_buffer (drop n (buffer s) ++ more) s2) with (feed more s3).
      pose proof (on_read_loop_buffer_le k s3) as Hle.
      destruct (on_read_loop k s3) as [s1|e s1|s1];
        cbn [and_then map_result final] in *; [|done|done].
      rewrite IH. apply (on_read_loop_fuel (m + length more)); [|lia|lia].
      subst s3. simpl in *. rewrite length_app. lia.
    + rewrite on_read_loop_S by done. reflexivity.
Qed.

(** [on_read] on a buffer from which nothing can be decoded, given no new
    bytes, changes nothing. *)
Lemma on_read_nil_stuck (s : io) : stuck s -> on_read [] s = Returned s.
Proof.
  intros Hs. unfold IO.on_read. simpl. rewrite app_nil_r, with_buffer_id.
  destruct Hs as [Hs|Hs].
  - by apply on_read_loop_nil.
  - destruct (truthy (buffer s)) eqn:Ht;
      [|apply truthy_nil in Ht; by apply on_read_loop_nil].
    destruct (buffer s) as [|b bs] eqn:Hb; [done|]. simpl length.
    rewrite on_read_loop_S by (by rewrite Hb). by rewrite Hb, Hs.
Qed.

Lemma on_read_not_pending (data : bytes) (s s' : io) :
  on_read data s <> Pending s'.
Proof. unfold IO.on_read. by apply on_read_loop_not_pending. Qed.

(** Receiving [data ++ more] at once is receiving [data] and then, if the
    dispatch of its frames raised nothing, [more]. *)
Lemma on_read_app (data more : bytes) (s : io) :
  match on_read data s with
  | Returned s1 => on_read (data ++ more) s = on_read more s1
  | Raised e s1 => on_read (data ++ more) s = Raised e (feed more s1)
  | Pending _ => False
  end.
Proof.
  pose proof (on_read_loop_feed (length (buffer s ++ data))
                (length (buffer s ++ data) + length more) (feed data s) more
                ltac:(done) ltac:(lia)) as H.
  assert (Hwhole : on_read (data ++ more) s =
                   on_read_loop (length (buffer s ++ data) + length more)
                                (feed more (feed data s))).
  { unfold IO.on_read, feed. simpl. rewrite !app_assoc, <- !length_app.
    reflexivity. }
  assert (Hdata : on_read data s =
                  on_read_loop (length (buffer s ++ data) + length more) (feed data s)).
  { unfold IO.on_read. apply (on_read_loop_fuel (length (buffer s ++ data)));
      simpl; lia. }
  rewrite Hwhole, Hdata.
  pose proof (on_read_loop_buffer_le (length (buffer s ++ data) + length more)
                (feed data s)) as Hle.
  destruct (on_read_loop _ (feed data s)) as [s1|e s1|s1]; simpl in *; [|done|done].
  rewrite H. unfold IO.on_read.
  apply (on_read_loop_fuel (length (buffer s1 ++ more)));
    simpl; rewrite ?length_app in *; lia.
Qed.

Lemma deliver_same_dispatch (chunks : list bytes) (s : io) :
  stuck s \/ chunks <> [] ->
  same_dispatch (deliver chunks s) (on_read (concat chunks) s).
Proof.
  revert s. induction chunks as [|data rest IH]; intros s Hs.
  - destruct Hs as [Hs|]; [|done]. simpl. by rewrite on_read_nil_stuck.
  - simpl. pose proof (on_read_app data (concat rest) s) as Happ.
    unfold IO.on_read in Happ at 1.
    pose proof (on_read_loop_returned_stuck (length (buffer s ++ data)) (feed data s))
      as Hstuck.
    unfold IO.on_read at 1.
    destruct (on_read_loop _ _) as [s1|e s1|s1] eqn:Hr; simpl in *; [| |done].
    + rewrite Happ. apply IH. left. by apply Hstuck.
    + rewrite Happ. simpl. split; [done|]. by exists (concat rest).
Qed.

Lemma on_read_loop_suffix (fuel : nat) (s : io) :
  exists consumed, buffer s = consumed ++ buffer (final (on_read_loop fuel s)).
Proof.
  revert s. induction fuel as [|fuel IH]; intros s.
  - exists []. simpl. by destruct (truthy (buffer s)).
  - destruct (truthy (buffer s)) eqn:Ht;
      [|apply truthy_nil in Ht; rewrite on_read_loop_nil by done; by exists []].
    rewrite on_read_loop_S by done.
    destruct (unmarshal (buffer s)) as [[[n c] f]|]; [|by exists []].
    pose proof (dispatch_buffer c f (with_buffer (drop n (buffer s)) s)) as Hb.
    destruct (dispatch _ _ _) as [s2|e s2|s2]; cbn [and_then final] in *.
    + destruct (IH s2) as [consumed Hc]. exists (take n (buffer s) ++ consumed).
      rewrite <- app_assoc, <- Hc, Hb. simpl. by rewrite take_drop.
    + exists (take n (buffer s)). rewrite Hb. simpl. by rewrite take_drop.
    + exists (take n (buffer s)). rewrite Hb. simpl. by rewrite take_drop.
Qed.

End Codec.

(** C2, as the code has it.  [on_read] cuts the buffer by the byte count
    the codec reports and does not check it.  With a codec that frames its
    input (a decoded frame takes at least one and at most all of the bytes
    given, and is decoded the same whatever follows it), delivering a byte
    stream in any chunks dispatches exactly what delivering it as one
    chunk dispatches: both end in the same state, or both raise the same
    exception after the same dispatch steps with the same registry.
    Whenever [on_read] returns, the bytes it could not decode are the tail
    of what was buffered and received, and they stay in the buffer. *)
Theorem C2_chunking_does_not_change_dispatch (chunks : list bytes) (s : io) :
  codec_framed ->
  codec_prefix_stable ->
  stuck s \/ chunks <> [] ->
  let parts := deliver chunks s in
  let whole := on_read (concat chunks) s in
  same_dispatch parts whole
  /\ trace (final parts) = trace (final whole)
  /\ channels (final parts) = channels (final whole)
  /\ forall (data : bytes) (st st' : io),
       on_read data st = Returned st' ->
       stuck st' /\ exists consumed, buffer st ++ data = consumed ++ buffer st'.
Proof.
  intros Hframed Hstable Hs parts whole.
  pose proof (deliver_same_dispatch Hframed Hstable chunks s Hs) as Hsame.
  fold parts whole in Hsame.
  split; [exact Hsame|]. repeat split.
  - destruct parts as [a|e a|a], whole as [b|e' b|b]; simpl in *; try done.
    + by subst.
    + by destruct Hsame as (_ & u & ->).
  - destruct parts as [a|e a|a], whole as [b|e' b|b]; simpl in *; try done.
    + by subst.
    + by destruct Hsame as (_ & u & ->).
  - eapply on_read_loop_returned_stuck, H.
  - unfold IO.on_read in H.
    destruct (on_read_loop_suffix (length (buffer st ++ data)) (feed data st))
      as [consumed Hc].
    exists consumed. unfold feed in Hc. simpl in Hc. simpl in H.
    rewrite H in Hc. exact Hc.
Qed.

(** *** More of the loop and of the connection *)

Abbreviation drained := (IO.drained marshal).
Abbreviation fault_for := (IO.fault_for channel_open).
Abbreviation codec_round_trip := (IO.codec_round_trip marshal unmarshal).

Lemma on_error_fault (a : error_arg) (s : io) (channel0 : Consumer)
    (queue0 : list Frame) :
  channels s !! 0 = Some (channel0, queue0) ->
  on_error a s =
  Returned (with_events (events_set EXCEPTION_RAISED (events s))
              (with_exceptions (exceptions s ++ [fault_for a channel0 s]) s)).
Proof.
  intros H. rewrite (on_error_registered a s channel0 queue0 H).
  unfold IO.fault_for. by destruct (channel_open channel0).
Qed.

(** X7. Whenever the worker thread returns with a fault on the exception
    queue, EXCEPTION_RAISED is set, whatever happened in between. *)
Theorem IO_run_fault_is_signalled (net : network) (inputs : list poll_input)
    (s s' : io) :
  IO_run net inputs s = Returned s' ->
  exceptions s' <> [] ->
  is_set EXCEPTION_RAISED (events s') = true.
Proof.
  unfold IO.IO_run, IO._connect. intros Hr Hexc.
  assert (Hloop : forall s1 : io,
            and_then (IOLoop_run inputs (IOLoop_init s1))
              (fun s2 => if truthy (exceptions s2)
                            && negb (is_set EXCEPTION_RAISED (events s2))
                         then Returned (with_events
                                          (events_set EXCEPTION_RAISED (events s2)) s2)
                         else Returned s2) = Returned s' ->
            is_set EXCEPTION_RAISED (events s') = true).
  { intros s1 H. destruct (IOLoop_run _ _) as [s2|e s2|s2]; simpl in H; try done.
    destruct (truthy (exceptions s2)) eqn:Ht; simpl in H.
    - destruct (is_set EXCEPTION_RAISED (events s2)) eqn:Hs; simpl in H;
        injection H as <-; [done | apply is_set_events_set].
    - injection H as <-. by destruct (exceptions s2). }
  destruct (connect_loop _ _ _ _) as [[sock|]|e]; simpl in Hr.
  - by apply Hloop in Hr.
  - destruct (socket_ s) as [sk|]; [by apply Hloop in Hr|].
    injection Hr as <-. apply is_set_events_set.
  - done.
Qed.

(** A socket that [_create_socket] returns is for the address asked, and
    wrapped for TLS exactly when TLS is configured. *)
Lemma _create_socket_created (net : network) (a : addrinfo) (s : io) (sock : socket) :
  _create_socket net a s = Created sock ->
  sock = {| sock_af := af a; sock_peer := sockaddr a;
            sock_timeout := -1; sock_ssl := ssl (args s) |}.
Proof.
  unfold _create_socket. destruct (create_fails net a); [done|].
  destruct (ssl (args s)); [|by intros [= <-]].
  destruct (wrap_socket_accepts _); [|done].
  destruct (wrap_fails net a) as [[e|e]|]; try done. by intros [= <-].
Qed.

Lemma connect_loop_first (net : network) (s : io) (pre post : list addrinfo)
    (a : addrinfo) (created_sock : socket) (sock : option socket) :
  Forall (attempt_fails net s) pre ->
  _create_socket net a s = Created created_sock ->
  connect_fails net (sockaddr a) = None ->
  connect_loop net s (pre ++ a :: post) sock =
  inl (Some {| sock_af := af a; sock_peer := sockaddr a;
               sock_timeout := CONNECTION_TIMEOUT; sock_ssl := ssl (args s) |}).
Proof.
  intros Hpre Hc Hk. revert sock.
  induction Hpre as [|b pre Hb Hpre IH]; intros sock; simpl.
  - rewrite Hc. unfold _connect_socket. rewrite Hk.
    by rewrite (_create_socket_created _ _ _ _ Hc).
  - destruct Hb as [[x Hx]|[[sk Hsk] [x Hx]]].
    + rewrite Hx. apply IH.
    + rewrite Hsk. unfold _connect_socket. rewrite Hx. apply IH.
Qed.

(** X8. [_connect] takes the first resolved address on which both the
    socket creation and the connect succeed, after every earlier address
    failed with a [socket.error], and does not look at the later ones: the
    connection is OPEN, its socket is bound to that address and made
    non-blocking, TLS as configured, SOCKET_OPENED is set, and no fault is
    recorded. *)
Theorem _connect_first_success (net : network) (s : io)
    (pre post : list addrinfo) (a : addrinfo) (created_sock : socket) :
  _get_addr_info net s = pre ++ a :: post ->
  Forall (attempt_fails net s) pre ->
  _create_socket net a s = Created created_sock ->
  connect_fails net (sockaddr a) = None ->
  exists s',
    _connect net s = Returned s'
    /\ state s' = Some OPEN
    /\ socket_ s' = Some {| sock_af := af a; sock_peer := sockaddr a;
                            sock_timeout := 0; sock_ssl := ssl (args s) |}
    /\ is_set SOCKET_OPENED (events s') = true
    /\ exceptions s' = exceptions s
    /\ is_set EXCEPTION_RAISED (events s') = is_set EXCEPTION_RAISED (events s).
Proof.
  intros Haddr Hpre Hc Hk. unfold IO._connect.
  change (_get_addr_info net (_set_state OPENING s)) with (_get_addr_info net s).
  rewrite Haddr.
  rewrite (connect_loop_first net (_set_state OPENING s) pre post a created_sock None
             Hpre Hc Hk).
  eexists. split; [reflexivity|]. simpl.
  split; [done|]. split; [done|]. split; [apply is_set_events_set|].
  split; [done|].
  unfold is_set, events_set. apply bool_decide_ext.
  rewrite elem_of_union, elem_of_singleton. split; [|by right].
  by intros [?|?].
Qed.

(** X26. When every resolved address fails with a [socket.error] (in
    creating the socket or in connecting it; an empty resolution
    included), the worker thread returns without raising, the lifecycle
    state is OPENING and so not OPEN, there is still no socket, exactly
    one connection fault has been appended to the exception queue, and
    EXCEPTION_RAISED is set. *)
Theorem all_addresses_fail_is_reported
    (net : network) (inputs : list poll_input) (s : io) :
  socket_ s = None ->
  Forall (attempt_fails net s) (_get_addr_info net s) ->
  exists s',
    IO_run net inputs s = Returned s'
    /\ state s' = Some OPENING
    /\ state s' <> Some OPEN
    /\ socket_ s' = None
    /\ exceptions s' =
         exceptions s ++
         [ConnectionException (host (args s)) (port (args s)) "Could not connect"]
    /\ is_set EXCEPTION_RAISED (events s') = true
    /\ is_set SOCKET_OPENED (events s') = is_set SOCKET_OPENED (events s).
Proof.
  intros Hsock Hall. unfold IO.IO_run, IO._connect.
  change (_get_addr_info net (_set_state OPENING s)) with (_get_addr_info net s).
  rewrite (connect_loop_all_fail net (_set_state OPENING s) _ None Hall)
    by (by right).
  simpl. rewrite Hsock. eexists. split; [reflexivity|]. simpl.
  split; [done|]. split; [done|]. split; [exact Hsock|]. split; [done|].
  split; [apply is_set_events_set|].
  unfold is_set, events_set. apply bool_decide_ext.
  rewrite elem_of_union, elem_of_singleton. split; [|by right].
  by intros [?|?].
Qed.

Lemma run_loop_not_running (inputs : list poll_input) (s : io) :
  running s = false -> run_loop inputs s = Returned s.
Proof. intros H. destruct inputs; simpl; by rewrite H. Qed.

(** X9. When the data socket is readable and the read fails with a
    socket error other than a timeout, that iteration clears the running
    flag and records exactly one fault built from the error; it sends
    nothing, even if the socket is writable and chunks are waiting, and
    the loop leaves without another poll. *)
Theorem read_error_ends_the_loop (i : poll_input) (rest : list poll_input) (s : io)
    (e : socket_error) (channel0 : Consumer) (queue0 : list Frame)
    (rlist wlist : list Z) :
  running s = true ->
  produced i = [] ->
  channels s !! 0 = Some (channel0, queue0) ->
  poller_poll i (truthy (write_buffer (drained s))) = (rlist, wlist, []) ->
  (trigger_fileno s ∉ rlist \/ trigger_recv i = None) ->
  fd_fileno s ∈ rlist ->
  recv_result i = RecvError e ->
  exists s',
    run_loop (i :: rest) s = Returned s'
    /\ running s' = false
    /\ exceptions s' = exceptions s ++ [fault_for (ErrSocket e) channel0 s]
    /\ is_set EXCEPTION_RAISED (events s') = true
    /\ sent s' = sent s
    /\ write_buffer s' = write_buffer (drained s)
    /\ buffer s' = buffer s
    /\ trace s' = trace s.
Proof.
  intros Hrun Hprod Hc Hp Htrig Hfd Hrecv.
  cbn [IO.run_loop]. rewrite Hrun, Hprod. cbn [negb put_frames fold_left].
  unfold IO._poll. fold (drained s). rewrite Hp. cbn [truthy].
  assert (Ht : (if bool_decide (trigger_fileno (drained s) ∈ rlist)
                then match trigger_recv i with
                     | Some e0 => Raised (EnvironmentError e0) (drained s)
                     | None => Returned (drained s)
                     end
                else Returned (drained s)) = Returned (drained s)).
  { destruct Htrig as [Hn|Hn].
    - by rewrite bool_decide_eq_false_2.
    - rewrite Hn. by destruct (bool_decide _). }
  rewrite Ht. cbn [and_then].
  rewrite bool_decide_eq_true_2 by exact Hfd.
  unfold IO._read. change (running (drained s)) with (running s).
  rewrite Hrun, Hrecv. cbn [negb].
  rewrite (on_error_fault _ _ channel0 queue0) by exact Hc.
  cbn [and_then].
  match goal with |- context [if ?c then _write _ ?x else _] =>
    assert (Hw : (if c then _write (send_result i) x else Returned x) = Returned x)
  end.
  { destruct (truthy wlist && truthy _); [|done]. unfold IO._write. by simpl. }
  rewrite Hw.
  match goal with |- context [is_set SOCKET_CLOSE ?ev] =>
    destruct (is_set SOCKET_CLOSE ev)
  end.
  - eexists. split; [reflexivity|]. simpl. repeat split. apply is_set_events_set.
  - rewrite run_loop_not_running by done.
    eexists. split; [reflexivity|]. simpl. repeat split. apply is_set_events_set.
Qed.

(** X10. When the data socket is writable, a chunk is waiting and the
    send fails with a socket error that is neither a timeout nor errno
    35, that iteration clears the running flag and records exactly one
    fault; the chunk taken from the write buffer is not put back, so its
    bytes are neither sent nor kept, and the loop leaves. *)
Theorem send_error_ends_the_loop (i : poll_input) (rest : list poll_input) (s : io)
    (e : socket_error) (channel0 : Consumer) (queue0 : list Frame)
    (wlist : list Z) (chunk : bytes) (chunks : list bytes) :
  running s = true ->
  produced i = [] ->
  channels s !! 0 = Some (channel0, queue0) ->
  poller_poll i true = ([], wlist, []) ->
  wlist <> [] ->
  write_buffer (drained s) = chunk :: chunks ->
  send_result i = SendError e ->
  errno e <> Some 35 ->
  exists s',
    run_loop (i :: rest) s = Returned s'
    /\ running s' = false
    /\ exceptions s' = exceptions s ++ [fault_for (ErrSocket e) channel0 s]
    /\ is_set EXCEPTION_RAISED (events s') = true
    /\ sent s' = sent s
    /\ write_buffer s' = chunks
    /\ write_queue s' = []
    /\ (wire_inv s -> chunk <> [] -> ~ wire_inv s').
Proof.
  intros Hrun Hprod Hc Hp Hwl Hwb Hsend Herr.
  cbn [IO.run_loop]. rewrite Hrun, Hprod. cbn [negb put_frames fold_left].
  unfold IO._poll. fold (drained s). rewrite Hwb. cbn [truthy]. rewrite Hp.
  cbn [truthy]. rewrite bool_decide_eq_false_2 by apply not_elem_of_nil.
  cbn [and_then]. rewrite bool_decide_eq_false_2 by apply not_elem_of_nil.
  cbn [and_then]. destruct wlist as [|w wl]; [done|].
  rewrite Hwb. cbn [truthy andb].
  unfold IO._write. change (running (drained s)) with (running s).
  rewrite Hrun, Hwb, Hsend. cbn [negb].
  rewrite bool_decide_eq_false_2 by exact Herr.
  rewrite (on_error_fault _ _ channel0 queue0) by exact Hc.
  assert (Hinv : wire_inv s -> chunk <> [] ->
                 ~ (marshal_all (enqueued s) = sent s ++ concat chunks ++ [])).
  { unfold IO.wire_inv. intros Hs Hne Hs'.
    assert (Hd : concat (write_buffer (drained s)) =
                 concat (write_buffer s) ++ marshal_all (write_queue s))
      by apply drain_concat.
    rewrite Hwb in Hd. simpl in Hd. rewrite Hs, <- Hd in Hs'.
    apply (f_equal (@length _)) in Hs'. rewrite !length_app in Hs'.
    destruct chunk; [done|]. simpl in Hs'. lia. }
  match goal with |- context [is_set SOCKET_CLOSE ?ev] =>
    destruct (is_set SOCKET_CLOSE ev)
  end.
  - eexists. split; [reflexivity|]. simpl.
    repeat split; [apply is_set_events_set | exact Hinv].
  - rewrite run_loop_not_running by done.
    eexists. split; [reflexivity|]. simpl.
    repeat split; [apply is_set_events_set | exact Hinv].
Qed.

Lemma with_write_buffer_id (s : io) : with_write_buffer (write_buffer s) s = s.
Proof. by destruct s. Qed.

(** An iteration in which nothing gets through only drains the queue. *)
Lemma _poll_quiet (i : poll_input) (s : io)
    (rlist wlist : list Z) :
  poller_poll i (truthy (write_buffer (drained s))) = (rlist, wlist, []) ->
  (trigger_fileno s ∉ rlist \/ trigger_recv i = None) ->
  (fd_fileno s ∉ rlist \/ recv_result i = RecvTimeout) ->
  (wlist = [] \/ send_result i = SendTimeout) ->
  _poll i s = Returned (drained s).
Proof.
  intros Hp Htrig Hread Hwrite.
  unfold IO._poll. fold (drained s). rewrite Hp. cbn [truthy].
  assert (Ht : (if bool_decide (trigger_fileno (drained s) ∈ rlist)
                then match trigger_recv i with
                     | Some e0 => Raised (EnvironmentError e0) (drained s)
                     | None => Returned (drained s)
                     end
                else Returned (drained s)) = Returned (drained s)).
  { destruct Htrig as [Hn|Hn].
    - by rewrite bool_decide_eq_false_2.
    - rewrite Hn. by destruct (bool_decide _). }
  rewrite Ht. cbn [and_then].
  assert (Hr : (if bool_decide (fd_fileno (drained s) ∈ rlist)
                then _read (recv_result i) (drained s)
                else Returned (drained s)) = Returned (drained s)).
  { destruct Hread as [Hn|Hn].
    - by rewrite bool_decide_eq_false_2.
    - rewrite Hn. destruct (bool_decide (fd_fileno (drained s) ∈ rlist)); [|done].
      unfold IO._read. by destruct (running (drained s)). }
  rewrite Hr. cbn [and_then].
  destruct Hwrite as [->|Hsend]; [done|].
  destruct (write_buffer (drained s)) as [|chunk chunks] eqn:Hwb.
  - cbn [truthy]. by rewrite andb_false_r.
  - destruct (truthy wlist); [|done]. cbn [truthy andb].
    unfold IO._write. rewrite Hsend, Hwb.
    destruct (running (drained s)); [|done]. cbn [negb].
    f_equal. rewrite <- Hwb.
    change (with_write_buffer (write_buffer (drained s))
              (with_write_buffer chunks (drained s)))
      with (with_write_buffer (write_buffer (drained s)) (drained s)).
    apply with_write_buffer_id.
Qed.

(** X11. An iteration in which the poller reports no error and nothing
    gets through (the trigger is silent or drained, the data socket is
    not readable or its read times out, not writable or its send times
    out) only moves the write queue into the write buffer: nothing is
    read, sent, dispatched or recorded, a chunk whose send timed out is
    back at the front, and the loop stays running. *)
Theorem quiet_iteration_only_drains (i : poll_input) (s : io)
    (rlist wlist : list Z) :
  poller_poll i (truthy (write_buffer (drained s))) = (rlist, wlist, []) ->
  (trigger_fileno s ∉ rlist \/ trigger_recv i = None) ->
  (fd_fileno s ∉ rlist \/ recv_result i = RecvTimeout) ->
  (wlist = [] \/ send_result i = SendTimeout) ->
  _poll i s = Returned (drained s)
  /\ concat (write_buffer (drained s)) =
       concat (write_buffer s) ++ marshal_all (write_queue s)
  /\ write_queue (drained s) = []
  /\ running (drained s) = running s
  /\ sent (drained s) = sent s
  /\ buffer (drained s) = buffer s
  /\ trace (drained s) = trace s
  /\ exceptions (drained s) = exceptions s
  /\ events (drained s) = events s.
Proof.
  intros Hp Htrig Hread Hwrite.
  split; [by eapply _poll_quiet|]. split; [apply drain_concat | done].
Qed.

(** X12. Bytes from which the codec decodes no frame, and no bytes at
    all, make [on_read] return without any dispatch: the bytes received
    are appended to the buffer and everything else stays as it was.  On
    an empty buffer the codec is not even asked. *)
Theorem on_read_keeps_undecodable_bytes (data : bytes) (s : io) :
  buffer s ++ data = [] \/ unmarshal (buffer s ++ data) = None ->
  on_read data s = Returned (feed data s)
  /\ trace (feed data s) = trace s
  /\ channels (feed data s) = channels s
  /\ exceptions (feed data s) = exceptions s.
Proof.
  intros H. split; [|done]. unfold IO.on_read. fold (feed data s).
  destruct (truthy (buffer (feed data s))) eqn:Ht.
  - destruct H as [H|H]; [simpl in Ht; by rewrite H in Ht|].
    destruct (length (buffer (feed data s))) as [|k] eqn:Hlen.
    + simpl in *. by destruct (buffer s ++ data).
    + rewrite on_read_loop_S by done. simpl. by rewrite H.
  - apply truthy_nil in Ht. by apply on_read_loop_nil.
Qed.

(** X13. After [add_channel] has registered a channel with its queue, a
    buffer holding exactly one frame for that channel's id is consumed
    whole by [on_read] without a KeyError: for an id other than 0 the
    frame is put at the end of the registered queue, for the id 0 the
    registered channel's handler runs on it under the lock and the queue
    is left alone.  Entries under other ids are not touched. *)
Theorem registered_channel_receives (channel : Consumer) (queue : list Frame)
    (f : Frame) (data : bytes) (s : io) :
  buffer s = [] ->
  data <> [] ->
  unmarshal data = Some (length data, channel_int channel, f) ->
  exists s1 s2,
    add_channel channel_int channel queue s = Returned s1
    /\ on_read data s1 = Returned s2
    /\ buffer s2 = []
    /\ (channel_int channel <> 0 ->
          channels s2 !! channel_int channel = Some (channel, queue ++ [f])
          /\ trace s2 = trace s ++ [QueuePut (channel_int channel) f])
    /\ (channel_int channel = 0 ->
          channels s2 !! 0 = Some (fst (on_frame channel f), queue)
          /\ trace s2 = trace s ++ [LockAcquire; OnFrame f; LockRelease])
    /\ (forall k, k <> channel_int channel -> channels s2 !! k = channels s !! k).
Proof.
  intros Hbuf Hdata Hu. unfold add_channel.
  destruct data as [|b0 data']; [done|].
  destruct (on_frame channel f) as [ch' out] eqn:Hof.
  destruct (channel_int channel =? 0) eqn:Hz.
  - apply Z.eqb_eq in Hz. eexists. eexists. split; [reflexivity|].
    unfold IO.on_read. simpl buffer. rewrite Hbuf. cbn [app length].
    rewrite on_read_loop_S by done. cbn [buffer with_buffer]. rewrite Hu.
    rewrite drop_all. unfold IO.dispatch. rewrite Hz. cbn [Z.eqb].
    unfold IO.dispatch_channel0. simpl.
    rewrite lookup_insert_eq, Hof. rewrite put_frames_closed.
    cbn [and_then]. rewrite on_read_loop_nil by done.
    split; [reflexivity|]. simpl. split; [done|]. split; [intros; done|]. split.
    + intros _. rewrite lookup_insert_eq. split; [done|].
      by rewrite <- !app_assoc.
    + intros k Hk. by rewrite !lookup_insert_ne.
  - eexists. eexists. split; [reflexivity|].
    unfold IO.on_read. simpl buffer. rewrite Hbuf. cbn [app length].
    rewrite on_read_loop_S by done. cbn [buffer with_buffer]. rewrite Hu.
    rewrite drop_all. unfold IO.dispatch. rewrite Hz.
    apply Z.eqb_neq in Hz. unfold _add_frame_to_queue. simpl.
    rewrite lookup_insert_eq. cbn [and_then].
    rewrite on_read_loop_nil by done.
    split; [reflexivity|]. simpl. split; [done|]. split.
    + intros _. by rewrite lookup_insert_eq.
    + split; [intros; done|]. intros k Hk. by rewrite !lookup_insert_ne.
Qed.

(** *** From one connection to another *)

Lemma marshal_all_cons (c : Z) (f : Frame) (q : list (Z * Frame)) :
  marshal_all ((c, f) :: q) = marshal f c ++ marshal_all q.
Proof. reflexivity. Qed.

Lemma codec_round_trip_tail (d : Z * Frame) (q : list (Z * Frame)) :
  codec_round_trip (d :: q) -> codec_round_trip q.
Proof. intros H c f rest Hin. apply H. by right. Qed.

Lemma codec_round_trip_length (q : list (Z * Frame)) :
  codec_round_trip q -> (length q <= length (marshal_all q))%nat.
Proof.
  induction q as [|[c f] q IH]; intros H; [simpl; lia|].
  rewrite marshal_all_cons, length_app. simpl.
  destruct (H c f [] ltac:(by left)) as [Hne _].
  specialize (IH (codec_round_trip_tail _ _ H)).
  destruct (marshal f c); [done | simpl; lia].
Qed.

(** The loop of [on_read] on the marshaled forms of a sequence of pairs
    dispatches that sequence and leaves nothing in the buffer. *)
Lemma on_read_loop_marshal_all (q : list (Z * Frame)) (k : nat) (s : io) :
  (length q <= k)%nat ->
  codec_round_trip q ->
  (forall d, d ∈ q -> is_Some (channels s !! fst d)) ->
  buffer s = marshal_all q ->
  exists s',
    on_read_loop k s = Returned s'
    /\ buffer s' = []
    /\ trace s' = trace s ++ concat (map dispatch_events q)
    /\ lock s' = lock s
    /\ exceptions s' = exceptions s
    /\ (forall c q0, c <> 0 -> queue_of c s = Some q0 ->
          queue_of c s' = Some (q0 ++ frames_for c q))
    /\ (forall ch0, consumer_of 0 s = Some ch0 ->
          consumer_of 0 s' = Some (handle_all ch0 (frames_for 0 q))).
Proof.
  revert k s. induction q as [|[c f] q IH]; intros k s Hk Hrt Hreg Hbuf.
  - exists s. rewrite on_read_loop_nil by done. simpl. rewrite app_nil_r.
    repeat split; try done. intros c q0 _ Hq. by rewrite app_nil_r.
  - destruct k as [|k]; [simpl in Hk; lia|].
    destruct (Hrt c f (marshal_all q) ltac:(by left)) as [Hne Hu].
    rewrite marshal_all_cons in Hbuf.
    assert (Ht : truthy (buffer s) = true).
    { rewrite Hbuf. by destruct (marshal f c). }
    rewrite on_read_loop_S by done. rewrite Hbuf, Hu, drop_app_length.
    set (s1 := with_buffer (marshal_all q) s).
    destruct (dispatch_registered c f s1) as
      (s2 & Hd & Htr & Hb2 & Hlock & Hexc & Hdom & Hq & _ & Hh).
    { apply (Hreg (c, f)). by left. }
    rewrite Hd. cbn [and_then].
    destruct (IH k s2) as (s' & Hl & Hb' & Htr' & Hlock' & Hexc' & Hq' & Hh').
    { simpl in Hk. lia. }
    { by eapply codec_round_trip_tail. }
    { intros d Hd'. apply Hdom. apply Hreg. by right. }
    { by rewrite Hb2. }
    exists s'. split; [exact Hl|]. split; [exact Hb'|]. subst s1. simpl in *.
    repeat split.
    + by rewrite Htr', Htr, <- app_assoc.
    + by rewrite Hlock'.
    + by rewrite Hexc'.
    + intros c' q0 Hne' Hc'. rewrite frames_for_cons, app_assoc.
      apply Hq'; [done|]. by apply Hq.
    + intros ch0 Hc'. rewrite frames_for_cons. unfold IO.handle_all.
      rewrite fold_left_app. apply Hh'. by apply Hh.
Qed.

Lemma on_read_marshal_all (q : list (Z * Frame)) (s : io) :
  codec_round_trip q ->
  (forall d, d ∈ q -> is_Some (channels s !! fst d)) ->
  buffer s = [] ->
  exists s',
    on_read (marshal_all q) s = Returned s'
    /\ buffer s' = []
    /\ trace s' = trace s ++ concat (map dispatch_events q)
    /\ (forall c q0, c <> 0 -> queue_of c s = Some q0 ->
          queue_of c s' = Some (q0 ++ frames_for c q))
    /\ (forall ch0, consumer_of 0 s = Some ch0 ->
          consumer_of 0 s' = Some (handle_all ch0 (frames_for 0 q))).
Proof.
  intros Hrt Hreg Hbuf. unfold IO.on_read.
  destruct (on_read_loop_marshal_all q
              (length (buffer (with_buffer (buffer s ++ marshal_all q) s)))
              (with_buffer (buffer s ++ marshal_all q) s))
    as (s' & Hl & Hb & Htr & _ & _ & Hq & Hh).
  - simpl. rewrite Hbuf. simpl. by apply codec_round_trip_length.
  - exact Hrt.
  - exact Hreg.
  - simpl. by rewrite Hbuf.
  - exists s'. by repeat split.
Qed.

(** X14. Handing [on_read], on an empty buffer, the marshaled forms of a
    sequence of pairs whose channels are registered, with a codec that
    decodes each of them back, dispatches exactly that sequence in order
    and consumes every byte: the queue of each channel other than 0 grows
    by the frames of that channel, and channel 0's handler has run on its
    frames. *)
Theorem on_read_decodes_what_was_marshaled (q : list (Z * Frame)) (s : io) :
  codec_round_trip q ->
  (forall d, d ∈ q -> is_Some (channels s !! fst d)) ->
  buffer s = [] ->
  exists s',
    on_read (marshal_all q) s = Returned s'
    /\ buffer s' = []
    /\ trace s' = trace s ++ concat (map dispatch_events q)
    /\ (forall c q0, c <> 0 -> queue_of c s = Some q0 ->
          queue_of c s' = Some (q0 ++ frames_for c q))
    /\ (forall ch0, consumer_of 0 s = Some ch0 ->
          consumer_of 0 s' = Some (handle_all ch0 (frames_for 0 q))).
Proof. apply on_read_marshal_all. Qed.

(** X15. End to end: let one connection's loop transmit everything that
    was enqueued on it, in iterations that each send some bytes, and let
    the transmitted bytes reach another connection's [on_read] cut into
    any chunks.  With a codec that frames its input and decodes what it
    marshaled, the receiving side returns from every delivery, has
    dispatched exactly the enqueued pairs in enqueue order, and keeps no
    byte in its buffer. *)
Theorem transmitted_frames_are_dispatched
    (inputs : list poll_input) (sender receiver : io) (chunks : list bytes) :
  codec_framed -> codec_prefix_stable ->
  codec_round_trip (enqueued sender) ->
  wire_inv sender ->
  running sender = true ->
  is_set SOCKET_CLOSE (events sender) = false ->
  Forall sends_some inputs ->
  (backlog marshal sender <= length inputs)%nat ->
  buffer receiver = [] ->
  (forall d, d ∈ enqueued sender -> is_Some (channels receiver !! fst d)) ->
  concat chunks = sent (final (run_loop inputs sender)) ->
  exists receiver',
    deliver chunks receiver = Returned receiver'
    /\ buffer receiver' = []
    /\ trace receiver' =
         trace receiver ++ concat (map dispatch_events (enqueued sender))
    /\ (forall c q0, c <> 0 -> queue_of c receiver = Some q0 ->
          queue_of c receiver' = Some (q0 ++ frames_for c (enqueued sender))).
Proof.
  intros Hframed Hstable Hrt Hinv Hrun Hclose Hall Hwork Hbuf Hreg Hchunks.
  rewrite (run_loop_transmits_everything inputs sender Hinv Hall Hrun Hclose Hwork)
    in Hchunks.
  destruct (on_read_marshal_all (enqueued sender) receiver Hrt Hreg Hbuf)
    as (r' & Hr & Hb & Htr & Hq & _).
  pose proof (deliver_same_dispatch Hframed Hstable chunks receiver
                ltac:(left; by left)) as Hsame.
  rewrite Hchunks, Hr in Hsame.
  destruct (deliver chunks receiver) as [r1|e r1|r1]; simpl in Hsame; try done.
  subst r1. exists r'. by repeat split.
Qed.

(** *** Stopping *)

(** An iteration whose poll reports an errored descriptor. *)
Lemma _poll_errored (i : poll_input) (s : io) (channel0 : Consumer)
    (queue0 : list Frame) (rlist wlist xlist : list Z) :
  channels s !! 0 = Some (channel0, queue0) ->
  poller_poll i (truthy (write_buffer (drained s))) = (rlist, wlist, xlist) ->
  xlist <> [] ->
  exists s',
    _poll i s = Returned s'
    /\ is_set SOCKET_CLOSE (events s') = true
    /\ is_set EXCEPTION_RAISED (events s') = true
    /\ exceptions s' =
         exceptions s ++ [fault_for (ErrStr "Connection reset") channel0 s]
    /\ sent s' = sent s
    /\ buffer s' = buffer s
    /\ trace s' = trace s
    /\ write_buffer s' = write_buffer (drained s).
Proof.
  intros Hc Hp Hx. unfold IO._poll. fold (drained s). rewrite Hp.
  destruct xlist as [|x xs]; [done|]. cbn [truthy].
  rewrite (on_error_fault _ _ channel0 queue0) by exact Hc.
  eexists. split; [reflexivity|]. simpl. repeat split.
  - apply is_set_events_set_mono, is_set_events_set.
  - apply is_set_events_set.
Qed.

Lemma is_set_set_other (e e' : event) (evs : gset event) :
  e <> e' -> is_set e (events_set e' evs) = is_set e evs.
Proof.
  intros Hne. unfold is_set, events_set. apply bool_decide_ext.
  rewrite elem_of_union, elem_of_singleton. split; [|by right].
  by intros [?|?].
Qed.

Lemma is_set_clear_other (e e' : event) (evs : gset event) :
  e <> e' -> is_set e (events_clear e' evs) = is_set e evs.
Proof.
  intros Hne. unfold is_set, events_clear. apply bool_decide_ext.
  rewrite elem_of_difference, elem_of_singleton. split; [by intros [? _] | done].
Qed.

Lemma is_set_clear (e : event) (evs : gset event) :
  is_set e (events_clear e evs) = false.
Proof.
  unfold is_set, events_clear. apply bool_decide_eq_false.
  rewrite elem_of_difference, elem_of_singleton. by intros [_ ?].
Qed.

(** X25. [IO.stop] leaves the connection CLOSED with SOCKET_OPENED clear
    and SOCKET_CLOSED set, and calls [close()] on the socket exactly when
    there is one; the socket stays referenced.  It does not ask the event
    loop to leave: the running flag, SOCKET_CLOSE, EXCEPTION_RAISED and
    the exception queue are as before, and nothing waiting to be written
    or read is touched.  Stopping again changes no signal and no state. *)
Theorem stop_closes_without_ending_the_loop (s : io) :
  let s' := fst (stop s) in
  state s' = Some CLOSED
  /\ is_set SOCKET_OPENED (events s') = false
  /\ is_set SOCKET_CLOSED (events s') = true
  /\ snd (stop s) = socket_ s
  /\ socket_ s' = socket_ s
  /\ running s' = running s
  /\ is_set SOCKET_CLOSE (events s') = is_set SOCKET_CLOSE (events s)
  /\ is_set EXCEPTION_RAISED (events s') = is_set EXCEPTION_RAISED (events s)
  /\ exceptions s' = exceptions s
  /\ wire_view s' = wire_view s
  /\ buffer s' = buffer s
  /\ (forall e, is_set e (events (fst (stop s'))) = is_set e (events s'))
  /\ state (fst (stop s')) = state s'.
Proof.
  intros s'. subst s'. unfold stop, _close. simpl.
  split; [done|]. split.
  { rewrite is_set_set_other by done. apply is_set_clear. }
  split; [apply is_set_events_set|]. split; [done|]. split; [done|]. split; [done|].
  split. { by rewrite is_set_set_other, is_set_clear_other. }
  split. { by rewrite is_set_set_other, is_set_clear_other. }
  split; [done|]. split; [done|]. split; [done|]. split; [|done].
  intros e. destruct e.
  - by repeat first [rewrite is_set_set_other by done
                    | rewrite is_set_clear_other by done].
  - by rewrite !is_set_events_set.
  - rewrite !is_set_set_other by done. by rewrite !is_set_clear.
  - by repeat first [rewrite is_set_set_other by done
                    | rewrite is_set_clear_other by done].
Qed.

End Facts.

(** The sample codec keeps the codec contract. *)
Lemma sample_codec_framed : IO.codec_framed Sample.unmarshal.
Proof.
  intros data n c f. unfold Sample.unmarshal.
  destruct data as [|c0 [|n0 rest]]; try discriminate.
  destruct (Byte.to_nat n0 <=? length rest)%nat eqn:Hle; [|discriminate].
  apply Nat.leb_le in Hle. intros [= <- _ _]. simpl. lia.
Qed.

Lemma sample_codec_prefix_stable : IO.codec_prefix_stable Sample.unmarshal.
Proof.
  intros data more n c f. unfold Sample.unmarshal.
  destruct data as [|c0 [|n0 rest]]; try discriminate.
  destruct (Byte.to_nat n0 <=? length rest)%nat eqn:Hle; [|discriminate].
  apply Nat.leb_le in Hle. intros [= <- <- <-]. simpl.
  rewrite length_app.
  destruct (Byte.to_nat n0 <=? length rest + length more)%nat eqn:Hle';
    [|apply Nat.leb_gt in Hle'; lia].
  by rewrite take_app_le.
Qed.

(** *** The definitions on small inputs *)

Example sample_unmarshal_frame :
  Sample.unmarshal Sample.stream = Some (3%nat, 0, Sample.frameA).
Proof. reflexivity. Qed.

Example sample_unmarshal_incomplete :
  Sample.unmarshal (take 2 Sample.stream) = None.
Proof. reflexivity. Qed.

(** Of a 10-byte chunk the send accepts 6 bytes: the front of the write
    buffer becomes the other 4. *)
Example short_send_keeps_the_rest :
  let s := with_write_buffer [Sample.marshal Sample.payload8 1]
             (Sample.fresh Sample.registry) in
  let s' := final (IO._write Sample.open (SendOk 6) s) in
  write_buffer s' = [["e"; "f"; "g"; "h"]%byte]
  /\ sent s' = take 6 (Sample.marshal Sample.payload8 1).
Proof. by split. Qed.

(** The first address refuses, the second accepts: the connection is OPEN
    on the second address and no fault is recorded. *)
Example second_address_connects :
  let net := {| has_ipv6 := true;
                getaddrinfo := fun _ _ _ =>
                  Some [Sample.addr "10.0.0.1"; Sample.addr "10.0.0.2"];
                create_fails := fun _ => None;
                wrap_fails := fun _ => None;
                connect_fails := fun a =>
                  if String.eqb (fst a) "10.0.0.1" then Some Sample.refused
                  else None |} in
  let s' := final (IO._connect net (Sample.fresh Sample.registry)) in
  state s' = Some OPEN
  /\ (sock_peer <$> socket_ s') = Some ("10.0.0.2", 5672)
  /\ exceptions s' = []
  /\ is_set SOCKET_OPENED (events s') = true.
Proof. by repeat split. Qed.

(** A read error stops the loop and records one fault. *)
Example read_error_is_fatal :
  let i := {| produced := []; poller_poll := fun _ => ([3], [], []);
              trigger_recv := None; recv_result := RecvError Sample.refused;
              send_result := SendTimeout |} in
  let r := IO.IOLoop_run Sample.marshal Sample.unmarshal Sample.open
             Sample.on_frame [i] (Sample.fresh Sample.registry) in
  (exists s', r = Returned s')
  /\ running (final r) = false
  /\ exceptions (final r) = [ConnectionResetException "localhost" 5672 "[Errno 111] Connection refused"].
Proof.
  intros i r. split; [eexists; vm_compute; reflexivity|].
  split; vm_compute; reflexivity.
Qed.

(** The scenario of a 10-byte marshaled frame of which the first send
    accepts 6 bytes and the second the remaining 4. *)
Lemma C1_witness :
  let inputs := [Sample.writable [] 2; Sample.writable [] 1; Sample.writable [] 1;
                 Sample.writable [] 7; Sample.writable [] 1; Sample.writable [] 5;
                 Sample.writable [] 1; Sample.writable [] 1] in
  let s' := final (IO.IOLoop_run Sample.marshal Sample.unmarshal Sample.open
                     Sample.on_frame inputs
                     (IO.put_frames Sample.outbound (Sample.fresh ∅))) in
  sent s' = Sample.marshal Sample.frameA 0 ++ Sample.marshal Sample.frameB 5
  /\ write_buffer s' = [] /\ write_queue s' = [].
Proof.
  intros inputs.
  destruct (C1_transmitted_bytes_in_enqueue_order Sample.marshal Sample.unmarshal
              Sample.open Sample.on_frame (Sample.fresh ∅)) as (Hall & _);
    [reflexivity|].
  apply (Hall Sample.outbound inputs); [reflexivity | | vm_compute; lia].
  subst inputs.
  repeat (constructor;
          [split; [reflexivity|];
           split; [eexists; split; [reflexivity | simpl; lia]|];
           intros w; exists [3]; by split|]).
  constructor.
Defined.

(** Frame A on channel 0 and frame B on channel 5, cut into three chunks
    at places that are not frame boundaries. *)
Lemma C2_witness :
  let chunks := [take 2 Sample.stream; take 2 (drop 2 Sample.stream);
                 drop 4 Sample.stream] in
  let s := Sample.fresh Sample.registry in
  (IO.stuck Sample.unmarshal s \/ chunks <> [])
  /\ same_dispatch
       (IO.deliver Sample.unmarshal Sample.on_frame chunks s)
       (IO.on_read Sample.unmarshal Sample.on_frame (concat chunks) s).
Proof.
  intros chunks s.
  assert (H : IO.stuck Sample.unmarshal s \/ chunks <> []) by (by right).
  split; [exact H|].
  apply (C2_chunking_does_not_change_dispatch Sample.unmarshal Sample.on_frame
           chunks s sample_codec_framed sample_codec_prefix_stable H).
Defined.

(** C2 as stated fails with a codec that reports a frame before its last
    byte has arrived.  Cut the stream of frames A and B just before A's end
    marker: the first chunk dispatches A and empties the buffer, the marker
    then arrives at the head of the second chunk, nothing decodes any more,
    and B is never dispatched; delivered whole, the stream dispatches A
    and B. *)
Lemma C2_counterexample :
  let chunks := [take 3 Sample.marked_stream; drop 3 Sample.marked_stream] in
  let s := Sample.fresh Sample.registry in
  let parts := IO.deliver Sample.unmarshal_marked Sample.on_frame chunks s in
  let whole := IO.on_read Sample.unmarshal_marked Sample.on_frame (concat chunks) s in
  concat chunks = Sample.marked_stream
  /\ chunks <> []
  /\ trace (final parts) = [QueuePut 5 Sample.frameA]
  /\ trace (final whole) = [QueuePut 5 Sample.frameA; QueuePut 5 Sample.frameB]
  /\ buffer (final parts) = drop 3 Sample.marked_stream
  /\ buffer (final whole) = []
  /\ ~ same_dispatch parts whole
  /\ ~ IO.codec_framed Sample.unmarshal_marked.
Proof.
  intros chunks s parts whole.
  assert (Hp : parts = Returned (final parts)) by (vm_compute; reflexivity).
  assert (Hw : whole = Returned (final whole)) by (vm_compute; reflexivity).
  assert (Htp : trace (final parts) = [QueuePut 5 Sample.frameA])
    by (vm_compute; reflexivity).
  assert (Htw : trace (final whole) = [QueuePut 5 Sample.frameA; QueuePut 5 Sample.frameB])
    by (vm_compute; reflexivity).
  split; [reflexivity|]. split; [done|]. split; [exact Htp|]. split; [exact Htw|].
  split; [vm_compute; reflexivity|]. split; [vm_compute; reflexivity|].
  split.
  - rewrite Hp, Hw. simpl. intros Heq. rewrite Heq, Htw in Htp. discriminate.
  - intros Hframed.
    assert (H : (1 <= 4 <= length (take 3 Sample.marked_stream))%nat)
      by (apply (Hframed _ 4%nat 5 Sample.frameA); reflexivity).
    simpl in H. lia.
Qed.

(** The scenario: frame A on channel 0, then frame B on channel 5, both
    registered beforehand. *)
Lemma C3_witness :
  let s := Sample.fresh Sample.registry in
  exists s',
    IO.on_read Sample.unmarshal Sample.on_frame Sample.stream s = Returned s'
    /\ trace s' = [LockAcquire; OnFrame Sample.frameA; LockRelease;
                   QueuePut 5 Sample.frameB]
    /\ IO.queue_of 5 s' = Some [Sample.frameB].
Proof.
  intros s.
  destruct (C3_dispatch_in_decode_order Sample.unmarshal Sample.on_frame
              sample_codec_framed Sample.stream s)
    as (s' & Hr & Htr & _ & _ & Hq & _).
  - intros d Hd. vm_compute in Hd.
    apply elem_of_cons in Hd as [->|Hd]; [by eexists|].
    apply elem_of_cons in Hd as [->|Hd]; [by eexists|].
    by apply elem_of_nil in Hd.
  - exists s'. split; [exact Hr|]. split; [exact Htr|].
    by apply (Hq 5 []).
Defined.

Lemma C4_witness :
  let s := Sample.fresh Sample.registry in
  exists s',
    IO._poll Sample.marshal Sample.unmarshal Sample.open Sample.on_frame
      Sample.errored s = Returned s'
    /\ exceptions s' = [ConnectionResetException "localhost" 5672 "Connection reset"]
    /\ is_set SOCKET_CLOSE (events s') = true
    /\ is_set EXCEPTION_RAISED (events s') = true.
Proof.
  intros s.
  destruct (C4_errored_poll_closes_with_one_fault Sample.marshal Sample.unmarshal
              Sample.open Sample.on_frame Sample.errored s
              Sample.channel0 [] [3] [3] [3])
    as (s' & Hr & Hclose & Hexc & Hfault & _); [reflexivity | reflexivity | done |].
  exists s'. by repeat split.
Defined.

(** C5 fails as stated: a frame on the unregistered channel 7 ends the
    loop by [KeyError]; the exception queue stays empty and
    EXCEPTION_RAISED stays clear, so no fault has been surfaced, and the
    frame is in no queue and no longer in the buffer. *)
Lemma C5_counterexample :
  let s := Sample.fresh Sample.registry in
  let r := IO.IOLoop_run Sample.marshal Sample.unmarshal Sample.open
             Sample.on_frame [Sample.readable Sample.stray] s in
  (exists s', r = Raised (KeyError (Some 7)) s')
  /\ exceptions (final r) = []
  /\ is_set EXCEPTION_RAISED (events (final r)) = false
  /\ buffer (final r) = []
  /\ channels (final r) = Sample.registry
  /\ ~ (length (exceptions (final r)) > length (exceptions s))%nat.
Proof.
  intros s r. split; [by eexists|].
  repeat split. vm_compute. lia.
Qed.

Lemma C5_witness :
  let s := IO.feed Sample.stray (Sample.fresh Sample.registry) in
  exists s',
    IO.on_read_loop Sample.unmarshal Sample.on_frame 3 s
      = Raised (KeyError (Some 7)) s'
    /\ buffer s' = [] /\ exceptions s' = [].
Proof.
  intros s.
  destruct (C5_unregistered_channel_raises_KeyError Sample.marshal Sample.unmarshal
              Sample.open Sample.on_frame 2%nat s 3%nat 7 Sample.frameB)
    as ((s' & Hr & Hb & _ & _ & He & _) & _); [reflexivity | reflexivity | done | reflexivity |].
  exists s'. split; [exact Hr|]. by split.
Defined.

(** C6 fails as stated: registering a second channel object under the id
    5 that is already in use returns normally, flags nothing, and the
    registry now holds the second object in place of the first. *)
Lemma C6_counterexample :
  let s := Sample.fresh Sample.registry in
  exists s',
    add_channel Sample.id Sample.channel5b [] s = Returned s'
    /\ channels s !! 5 = Some (Sample.channel5, [])
    /\ channels s' !! 5 = Some (Sample.channel5b, [])
    /\ Sample.channel5 <> Sample.channel5b
    /\ exceptions s' = []
    /\ events s' = events s.
Proof. intros s. eexists. split; [reflexivity|]. by repeat split. Qed.

(** C7 at the failing input: a send that fails with EAGAIN as Linux
    numbers it (11, not 35) stops the loop, loses the chunk and records a
    fault, while the same failure numbered 35 puts the chunk back. *)
Lemma C7_eagain_11_is_fatal :
  let s := with_write_buffer [Sample.payload8] (Sample.fresh Sample.registry) in
  let s11 := final (IO._write Sample.open (SendError Sample.eagain_linux) s) in
  let s35 := final (IO._write Sample.open (SendError Sample.eagain_bsd) s) in
  (running s11 = false
   /\ write_buffer s11 = []
   /\ exceptions s11 =
        [ConnectionResetException "localhost" 5672
           "[Errno 11] Resource temporarily unavailable"]
   /\ is_set EXCEPTION_RAISED (events s11) = true)
  /\ (running s35 = true
      /\ write_buffer s35 = [Sample.payload8]
      /\ exceptions s35 = []
      /\ is_set EXCEPTION_RAISED (events s35) = false).
Proof. intros s s11 s35. by repeat split. Qed.

Lemma C8_witness :
  let s := Sample.fresh_tls Sample.registry in
  exists s',
    IO.IO_run Sample.marshal Sample.unmarshal Sample.open Sample.on_frame
      Sample.reachable [] s = Raised TypeError s'
    /\ state s' = Some OPENING
    /\ exceptions s' = []
    /\ is_set EXCEPTION_RAISED (events s') = false.
Proof.
  intros s.
  destruct (C8_cacertfile_raises_TypeError Sample.marshal Sample.unmarshal
              Sample.open Sample.on_frame Sample.reachable [] s [] []
              (Sample.addr "10.0.0.1"))
    as (s' & Hr & Hst & _ & Hexc & Hev & _);
    [reflexivity | reflexivity | reflexivity | constructor | reflexivity |].
  exists s'. split; [exact Hr|]. split; [exact Hst|]. by rewrite Hexc, Hev.
Defined.

Lemma all_addresses_fail_is_reported_witness :
  let s := Sample.fresh Sample.registry in
  exists s',
    IO.IO_run Sample.marshal Sample.unmarshal Sample.open Sample.on_frame
      Sample.unreachable [] s = Returned s'
    /\ state s' = Some OPENING
    /\ exceptions s' = [ConnectionException "localhost" 5672 "Could not connect"]
    /\ is_set EXCEPTION_RAISED (events s') = true.
Proof.
  intros s.
  destruct (all_addresses_fail_is_reported Sample.marshal Sample.unmarshal Sample.open
              Sample.on_frame Sample.unreachable [] s)
    as (s' & Hr & Hst & _ & _ & Hexc & Hev & _).
  - reflexivity.
  - repeat (constructor; [right; split; by eexists|]). constructor.
  - exists s'. by repeat split.
Defined.

Lemma sample_codec_round_trip :
  IO.codec_round_trip Sample.marshal Sample.unmarshal Sample.outbound.
Proof.
  intros c f rest Hin.
  apply elem_of_cons in Hin as [[= -> ->]|Hin]; [by split|].
  apply elem_of_cons in Hin as [[= -> ->]|Hin]; [by split|].
  by apply elem_of_nil in Hin.
Qed.

Lemma IO_run_fault_is_signalled_witness :
  let s := Sample.fresh Sample.registry in
  let s' := final (IO.IO_run Sample.marshal Sample.unmarshal Sample.open
                     Sample.on_frame Sample.unreachable [] s) in
  exceptions s' <> [] /\ is_set EXCEPTION_RAISED (events s') = true.
Proof.
  intros s s'.
  assert (Hexc : exceptions s' <> []) by done.
  split; [exact Hexc|].
  apply (IO_run_fault_is_signalled Sample.marshal Sample.unmarshal Sample.open
           Sample.on_frame Sample.unreachable [] s s'); [reflexivity | exact Hexc].
Defined.

Lemma _connect_first_success_witness :
  let s := Sample.fresh Sample.registry in
  exists s',
    IO._connect Sample.flaky s = Returned s'
    /\ state s' = Some OPEN
    /\ (sock_peer <$> socket_ s') = Some ("10.0.0.2", 5672)
    /\ exceptions s' = [].
Proof.
  intros s.
  destruct (_connect_first_success Sample.flaky s [Sample.addr "10.0.0.1"] []
              (Sample.addr "10.0.0.2")
              {| sock_af := 2; sock_peer := ("10.0.0.2", 5672);
                 sock_timeout := -1; sock_ssl := false |})
    as (s' & Hr & Hst & Hsock & _ & Hexc & _).
  - reflexivity.
  - constructor; [right; split; by eexists | constructor].
  - reflexivity.
  - reflexivity.
  - exists s'. split; [exact Hr|]. split; [exact Hst|]. by rewrite Hsock.
Defined.

Lemma read_error_ends_the_loop_witness :
  let s := with_write_buffer [Sample.payload8] (Sample.fresh Sample.registry) in
  exists s',
    IO.run_loop Sample.marshal Sample.unmarshal Sample.open Sample.on_frame
      [Sample.read_fails; Sample.quiet] s = Returned s'
    /\ running s' = false
    /\ sent s' = []
    /\ write_buffer s' = [Sample.payload8].
Proof.
  intros s.
  destruct (read_error_ends_the_loop Sample.marshal Sample.unmarshal Sample.open
              Sample.on_frame Sample.read_fails [Sample.quiet] s Sample.refused
              Sample.channel0 [] [3] [3])
    as (s' & Hr & Hrun & _ & _ & Hsent & Hwb & _);
    [reflexivity | reflexivity | reflexivity | reflexivity | | | reflexivity |].
  - right. reflexivity.
  - by left.
  - by exists s'.
Defined.

Lemma send_error_ends_the_loop_witness :
  let s := with_write_buffer [Sample.payload8] (Sample.fresh Sample.registry) in
  exists s',
    IO.run_loop Sample.marshal Sample.unmarshal Sample.open Sample.on_frame
      [Sample.send_fails Sample.refused; Sample.quiet] s = Returned s'
    /\ running s' = false
    /\ sent s' = []
    /\ write_buffer s' = [].
Proof.
  intros s.
  destruct (send_error_ends_the_loop Sample.marshal Sample.unmarshal Sample.open
              Sample.on_frame (Sample.send_fails Sample.refused) [Sample.quiet] s
              Sample.refused Sample.channel0 [] [3] Sample.payload8 [])
    as (s' & Hr & Hrun & _ & _ & Hsent & Hwb & _);
    [reflexivity | reflexivity | reflexivity | reflexivity | done | reflexivity
     | reflexivity | done |].
  by exists s'.
Defined.

Lemma quiet_iteration_only_drains_witness :
  IO._poll Sample.marshal Sample.unmarshal Sample.open Sample.on_frame
    Sample.quiet Sample.loaded
  = Returned (IO.drained Sample.marshal Sample.loaded)
  /\ write_buffer (IO.drained Sample.marshal Sample.loaded)
     = [Sample.marshal Sample.frameA 0; Sample.marshal Sample.frameB 5].
Proof.
  destruct (quiet_iteration_only_drains Sample.marshal Sample.unmarshal Sample.open
              Sample.on_frame Sample.quiet Sample.loaded [] [])
    as (Hr & _); [reflexivity | | | |].
  - left. apply not_elem_of_nil.
  - left. apply not_elem_of_nil.
  - by left.
  - split; [exact Hr | reflexivity].
Defined.

Lemma on_read_keeps_undecodable_bytes_witness :
  let s := Sample.fresh Sample.registry in
  IO.on_read Sample.unmarshal Sample.on_frame (take 2 Sample.stream) s
  = Returned (IO.feed (take 2 Sample.stream) s).
Proof.
  intros s.
  destruct (on_read_keeps_undecodable_bytes Sample.unmarshal Sample.on_frame
              (take 2 Sample.stream) s) as (Hr & _); [by right|].
  exact Hr.
Defined.

Lemma registered_channel_receives_witness :
  let s := Sample.fresh ∅ in
  exists s1 s2,
    add_channel Sample.id Sample.channel5 [] s = Returned s1
    /\ IO.on_read Sample.unmarshal Sample.on_frame (Sample.marshal Sample.frameB 5) s1
       = Returned s2
    /\ channels s2 !! 5 = Some (Sample.channel5, [Sample.frameB]).
Proof.
  intros s.
  destruct (registered_channel_receives Sample.unmarshal Sample.id Sample.on_frame
              Sample.channel5 [] Sample.frameB (Sample.marshal Sample.frameB 5) s)
    as (s1 & s2 & H1 & H2 & _ & Hq & _); [reflexivity | done | reflexivity |].
  exists s1, s2. split; [exact H1|]. split; [exact H2|].
  by destruct Hq as [Hq _].
Defined.

Lemma on_read_decodes_what_was_marshaled_witness :
  let s := Sample.fresh Sample.registry in
  exists s',
    IO.on_read Sample.unmarshal Sample.on_frame
      (IO.marshal_all Sample.marshal Sample.outbound) s = Returned s'
    /\ buffer s' = []
    /\ trace s' = [LockAcquire; OnFrame Sample.frameA; LockRelease;
                   QueuePut 5 Sample.frameB].
Proof.
  intros s.
  destruct (on_read_decodes_what_was_marshaled Sample.marshal Sample.unmarshal
              Sample.on_frame Sample.outbound s sample_codec_round_trip)
    as (s' & Hr & Hb & Htr & _); [|reflexivity|].
  - intros d Hd.
    apply elem_of_cons in Hd as [->|Hd]; [by eexists|].
    apply elem_of_cons in Hd as [->|Hd]; [by eexists|].
    by apply elem_of_nil in Hd.
  - by exists s'.
Defined.

(** The sender has frames A and B queued and sends two bytes at a time;
    the receiver gets the six bytes as one byte followed by five. *)
Lemma transmitted_frames_are_dispatched_witness :
  let inputs := replicate 8 (Sample.writable [] 2) in
  let wire := sent (final (IO.run_loop Sample.marshal Sample.unmarshal Sample.open
                             Sample.on_frame inputs Sample.loaded)) in
  exists receiver',
    IO.deliver Sample.unmarshal Sample.on_frame [take 1 wire; drop 1 wire]
      (Sample.fresh Sample.registry) = Returned receiver'
    /\ trace receiver' = [LockAcquire; OnFrame Sample.frameA; LockRelease;
                          QueuePut 5 Sample.frameB].
Proof.
  intros inputs wire.
  destruct (transmitted_frames_are_dispatched Sample.marshal Sample.unmarshal
              Sample.open Sample.on_frame inputs Sample.loaded
              (Sample.fresh Sample.registry) [take 1 wire; drop 1 wire]
              sample_codec_framed sample_codec_prefix_stable
              sample_codec_round_trip)
    as (r' & Hr & _ & Htr & _).
  - reflexivity.
  - reflexivity.
  - reflexivity.
  - subst inputs. apply Forall_replicate.
    split; [reflexivity|]. split; [exists 2%nat; split; [reflexivity | lia]|].
    intros w. by eexists.
  - vm_compute. lia.
  - reflexivity.
  - intros d Hd.
    apply elem_of_cons in Hd as [->|Hd]; [by eexists|].
    apply elem_of_cons in Hd as [->|Hd]; [by eexists|].
    by apply elem_of_nil in Hd.
  - change (concat [take 1 wire; drop 1 wire] = wire). clearbody wire.
    cbn [concat]. by rewrite app_nil_r, take_drop.
  - exists r'. split; [exact Hr|]. rewrite Htr. reflexivity.
Defined.

End IOSpec.

(** * Properties of the message operations *)

Module MessageSpec.
Import Message.

Section Facts.

Context {Value : Type}.
Variable attributes : list string.

Abbreviation message := (Message.message Value).
Abbreviation publish := (Message.publish (Value:=Value) attributes).
Abbreviation _properties := (Message._properties (Value:=Value) attributes).

(** C9. For a message that carries a method frame, [nack] returns after
    handing the channel exactly one frame, a Basic.Ack with the message's
    delivery tag, which is what [ack] does; the frame is not a
    Basic.Nack. *)
Theorem C9_nack_writes_basic_ack (m : message) (meth : method_frame) :
  method m = Some meth ->
  nack m = Returned (with_channel
                       (write_frame (Basic_Ack (delivery_tag meth) false)
                                    (msg_channel m)) m)
  /\ nack m = ack m
  /\ written (msg_channel (final (nack m))) =
       written (msg_channel m) ++ [Basic_Ack (delivery_tag meth) false]
  /\ forall tag multiple requeue,
       last (written (msg_channel (final (nack m))))
         <> Some (Basic_Nack tag multiple requeue).
Proof.
  intros H. unfold nack, ack. rewrite H. simpl.
  repeat split. intros tag multiple requeue. by rewrite last_snoc.
Qed.

Lemma write_body_written (count : nat) (offset : Z) (m : message) :
  length (written (msg_channel (write_body count offset m))) =
  (length (written (msg_channel m)) + count)%nat.
Proof.
  revert offset m. induction count as [|count IH]; intros offset m; simpl.
  - lia.
  - rewrite IH. simpl. rewrite length_app. simpl. lia.
Qed.

(** C10. For a message with an empty body, [publish] hands the channel
    exactly two frames, the Basic.Publish method frame and then a content
    header with body size 0 carrying the pruned properties, and no
    content-body frame.  It returns normally unless the channel's maximum
    frame size is 0, in which case the division raises after the two
    frames were written. *)
Theorem C10_publish_empty_body
    (exchange : string + string) (routing_key : string) (m : message) :
  length (body m) = 0%nat ->
  let r := publish exchange routing_key m in
  let name := match exchange with inl n => n | inr n => n end in
  written (msg_channel (final r)) =
    written (msg_channel m) ++
    [Basic_Publish name routing_key; ContentHeader 0 (snd (_properties m))]
  /\ (forall v, ContentBody v ∉
        drop (length (written (msg_channel m))) (written (msg_channel (final r))))
  /\ (maximum_frame_size (msg_channel m) <> 0 -> exists m', r = Returned m')
  /\ (maximum_frame_size (msg_channel m) = 0 -> r = Raised ZeroDivisionError (final r)).
Proof.
  intros Hlen r name.
  assert (Hw : written (msg_channel (final r)) =
               written (msg_channel m) ++
               [Basic_Publish name routing_key; ContentHeader 0 (snd (_properties m))]).
  { subst r name. unfold Message.publish, Message._properties. simpl.
    rewrite Hlen.
    destruct (maximum_frame_size (msg_channel m) =? 0); simpl;
      by rewrite <- app_assoc. }
  split; [exact Hw|]. split; [|split].
  - intros v. rewrite Hw, drop_app_length.
    intros Hin. apply elem_of_cons in Hin as [Hin|Hin]; [done|].
    apply elem_of_cons in Hin as [Hin|Hin]; [done|].
    by apply elem_of_nil in Hin.
  - intros Hsz. subst r. unfold Message.publish, Message._properties. simpl.
    apply Z.eqb_neq in Hsz. rewrite Hsz. by eexists.
  - intros Hsz. subst r. unfold Message.publish, Message._properties. simpl.
    rewrite Hsz. reflexivity.
Qed.

(** *** Pruning the properties *)

Lemma fold_delete_lookup (ks : list string) (p : gmap string Value) (k : string) :
  fold_left (fun p key => delete key p) ks p !! k =
  if decide (k ∈ ks) then None else p !! k.
Proof.
  revert p. induction ks as [|key ks IH]; intros p; simpl.
  - destruct (decide (k ∈ [])) as [Hin|]; [by apply elem_of_nil in Hin | done].
  - rewrite IH. destruct (decide (k ∈ ks)) as [Hin|Hnin].
    + rewrite decide_True; [done | by right].
    + destruct (decide (k = key)) as [->|Hne].
      * rewrite lookup_delete_eq. rewrite decide_True; [done | by left].
      * rewrite lookup_delete_ne by done. rewrite decide_False; [done|].
        intros Hin. apply elem_of_cons in Hin as [?|?]; done.
Qed.

Lemma _properties_lookup (m : message) (k : string) :
  properties (fst (_properties m)) !! k =
  if decide (k ∈ attributes) then properties m !! k else None.
Proof.
  unfold Message._properties, _prune_invalid_properties. simpl.
  rewrite fold_delete_lookup.
  destruct (decide (k ∈ attributes)) as [Hin|Hnin].
  - rewrite decide_False; [done|]. intros Hf.
    apply list_elem_of_filter in Hf as [Hf _]. done.
  - destruct (properties m !! k) as [v|] eqn:Hk; [|by destruct (decide _)].
    rewrite decide_True; [done|]. apply list_elem_of_filter. split; [done|].
    apply list_elem_of_fmap. exists (k, v). split; [done|].
    by apply elem_of_map_to_list.
Qed.

Lemma _properties_idem (m : message) :
  let m' := fst (_properties m) in _properties m' = (m', properties m').
Proof.
  intros m'.
  assert (Hnone : filter (fun key => key ∉ attributes)
                    (map fst (map_to_list (properties m'))) = []).
  { destruct (filter _ _) as [|k ks] eqn:Hf; [done|]. exfalso.
    assert (Hk : k ∈ k :: ks) by left. rewrite <- Hf in Hk.
    apply list_elem_of_filter in Hk as [Hnot Hk].
    apply list_elem_of_fmap in Hk as ([k' v] & -> & Hkv). cbn [fst] in *.
    apply elem_of_map_to_list in Hkv. subst m'.
    rewrite _properties_lookup in Hkv. by rewrite decide_False in Hkv. }
  unfold Message._properties, _prune_invalid_properties.
  rewrite Hnone. cbn [fold_left].
  assert (Heta : with_properties (properties m') m' = m') by (by destruct m').
  by rewrite Heta.
Qed.

(** X1. Reading the property [_properties] leaves of the message's
    properties exactly the entries whose key is a Basic.Properties
    attribute, each with its value, and returns that dictionary; reading
    it again changes nothing more. *)
Theorem properties_pruned_to_attributes (m : message) :
  let m' := fst (_properties m) in
  (forall k, properties m' !! k =
             if decide (k ∈ attributes) then properties m !! k else None)
  /\ snd (_properties m) = properties m'
  /\ msg_channel m' = msg_channel m /\ body m' = body m /\ method m' = method m
  /\ _properties m' = (m', properties m').
Proof.
  intros m'. split; [apply _properties_lookup|]. repeat split.
  apply _properties_idem.
Qed.

(** *** Publishing *)

Abbreviation published := (@Message.published Value).

Lemma slice_is_piece (size : Z) (k : nat) (b : bytes) :
  0 < size ->
  let start := size * Z.of_nat k in
  let stop := start + size in
  slice start (if stop >? Z.of_nat (length b) then Z.of_nat (length b) else stop) b
  = body_piece size b k.
Proof.
  intros Hsize start stop. unfold slice, body_piece.
  assert (Hstart : Z.to_nat start = (Z.to_nat size * k)%nat) by (subst start; lia).
  rewrite Hstart. destruct (stop >? Z.of_nat (length b)) eqn:Hcmp.
  - rewrite Nat2Z.id.
    rewrite !take_ge; [done | rewrite length_drop; lia | rewrite length_drop; lia].
  - f_equal. subst stop. lia.
Qed.

(** The loop of [publish] writes the consecutive pieces of the body. *)
Lemma write_body_frames (count k0 : nat) (m : message) :
  0 < maximum_frame_size (msg_channel m) ->
  write_body count (Z.of_nat k0) m =
  with_channel
    {| maximum_frame_size := maximum_frame_size (msg_channel m);
       written := written (msg_channel m) ++
                  map (fun k => ContentBody
                                  (body_piece (maximum_frame_size (msg_channel m))
                                              (body m) k))
                      (seq k0 count) |} m.
Proof.
  revert k0 m. induction count as [|count IH]; intros k0 m Hsize.
  - simpl. rewrite app_nil_r. by destruct m as [[] ? ? ?].
  - cbn [write_body]. rewrite slice_is_piece by done.
    replace (Z.of_nat k0 + 1) with (Z.of_nat (S k0)) by lia.
    rewrite IH by done. simpl. by rewrite <- app_assoc.
Qed.

Lemma concat_body_pieces (size : Z) (b : bytes) (n k0 : nat) :
  concat (map (body_piece size b) (seq k0 n)) =
  take (Z.to_nat size * n) (drop (Z.to_nat size * k0) b).
Proof.
  revert k0. induction n as [|n IH]; intros k0; simpl.
  - by rewrite Nat.mul_0_r.
  - rewrite IH. unfold body_piece.
    replace (Z.to_nat size * S k0)%nat with (Z.to_nat size * k0 + Z.to_nat size)%nat
      by lia.
    rewrite <- drop_drop, take_take_drop. f_equal. lia.
Qed.

(** The number of pieces: enough to cover the body, and no piece empty. *)
Lemma pieces_bounds (len size : Z) :
  0 <= len -> 0 < size ->
  size * (pieces len size - 1) < len <= size * pieces len size.
Proof.
  intros Hlen Hsize. unfold pieces.
  pose proof (Z.div_mod (- len) size ltac:(lia)) as Hdm.
  pose proof (Z.mod_pos_bound (- len) size Hsize) as Hmod. nia.
Qed.

(** X2. With a positive maximum frame size, [publish] returns after
    handing the channel the method frame, a content header announcing the
    length of the body, and the body cut into consecutive content-body
    frames: their payloads concatenated are the body, each holds at least
    one and at most [maximum_frame_size] bytes.  The body and the method
    of the message are not touched. *)
Theorem publish_sends_the_whole_body
    (exchange : string + string) (routing_key : string) (m : message) :
  0 < maximum_frame_size (msg_channel m) ->
  exists m' payloads,
    publish exchange routing_key m = Returned m'
    /\ written (msg_channel m') =
         written (msg_channel m) ++
         [Basic_Publish (match exchange with inl n => n | inr n => n end) routing_key;
          ContentHeader (length (body m)) (snd (_properties m))] ++
         map ContentBody payloads
    /\ concat payloads = body m
    /\ Forall (fun p => (1 <= length p)%nat
                        /\ Z.of_nat (length p) <= maximum_frame_size (msg_channel m))
              payloads
    /\ body m' = body m /\ method m' = method m.
Proof.
  intros Hsize. set (size := maximum_frame_size (msg_channel m)) in *.
  set (n := Z.to_nat (pieces (Z.of_nat (length (body m))) size)).
  pose proof (pieces_bounds (Z.of_nat (length (body m))) size ltac:(lia) Hsize)
    as [Hlo Hhi].
  exists (final (publish exchange routing_key m)),
         (map (body_piece size (body m)) (seq 0 n)).
  unfold Message.publish, Message._properties, _prune_invalid_properties. simpl.
  fold size. destruct (size =? 0) eqn:Hz; [apply Z.eqb_eq in Hz; lia|].
  simpl. fold n.
  rewrite (write_body_frames n 0) by exact Hsize. simpl. fold size.
  split; [reflexivity|]. split.
  { rewrite <- !app_assoc. simpl. by rewrite map_map. }
  split.
  { rewrite concat_body_pieces, Nat.mul_0_r, drop_0. apply take_ge. subst n. nia. }
  split; [|done].
  apply Forall_forall. intros p Hp.
  apply list_elem_of_fmap in Hp as (k & -> & Hk). apply elem_of_seq in Hk.
  unfold body_piece. rewrite length_take, length_drop. subst n. nia.
Qed.

Lemma pieces_negative_size (len size : Z) :
  0 <= len -> size < 0 -> Z.to_nat (pieces len size) = 0%nat.
Proof.
  intros Hlen Hsize. unfold pieces.
  pose proof (Z.div_pos len (- size) ltac:(lia) ltac:(lia)) as Hq.
  assert (Heq : - len / size = len / - size).
  { rewrite <- (Z.div_opp_opp (- len) size) by lia. by rewrite Z.opp_involutive. }
  lia.
Qed.

(** What [publish] leaves behind when the frame size is not zero: the
    pruned message with the frames appended to the channel. *)
Lemma publish_result (exchange : string + string) (routing_key : string) (m : message) :
  maximum_frame_size (msg_channel m) <> 0 ->
  let size := maximum_frame_size (msg_channel m) in
  let n := Z.to_nat (pieces (Z.of_nat (length (body m))) size) in
  publish exchange routing_key m =
  Returned
    (with_channel
       {| maximum_frame_size := size;
          written :=
            written (msg_channel m) ++
            [Basic_Publish (match exchange with inl n => n | inr n => n end) routing_key;
             ContentHeader (length (body m)) (snd (_properties m))] ++
            map (fun k => ContentBody (body_piece size (body m) k)) (seq 0 n) |}
       (fst (_properties m))).
Proof.
  intros Hsize size n.
  unfold Message.publish, Message._properties, _prune_invalid_properties. simpl.
  fold size. apply Z.eqb_neq in Hsize. fold size in Hsize. rewrite Hsize. fold n.
  destruct (decide (0 < size)) as [Hpos|Hneg].
  - rewrite (write_body_frames n 0) by exact Hpos. simpl. fold size.
    rewrite <- !app_assoc. reflexivity.
  - assert (Hn : n = 0%nat).
    { subst n. apply Z.eqb_neq in Hsize. apply pieces_negative_size; lia. }
    rewrite Hn. unfold with_channel, write_frame. simpl.
    by rewrite <- app_assoc.
Qed.

(** X3. With a maximum frame size of 0 [publish] raises
    ZeroDivisionError after it has handed over the method frame and the
    content header; with a negative one it returns normally after those
    two frames.  In both cases the header announces the full body length
    and no content-body frame follows, whatever the body holds. *)
Theorem publish_without_positive_frame_size
    (exchange : string + string) (routing_key : string) (m : message) :
  maximum_frame_size (msg_channel m) <= 0 ->
  let r := publish exchange routing_key m in
  published m (final r) =
    [Basic_Publish (match exchange with inl n => n | inr n => n end) routing_key;
     ContentHeader (length (body m)) (snd (_properties m))]
  /\ (maximum_frame_size (msg_channel m) = 0 -> r = Raised ZeroDivisionError (final r))
  /\ (maximum_frame_size (msg_channel m) < 0 -> r = Returned (final r)).
Proof.
  intros Hsize r. unfold Message.published.
  destruct (decide (maximum_frame_size (msg_channel m) = 0)) as [Hz|Hnz].
  - subst r. unfold Message.publish, Message._properties, _prune_invalid_properties.
    simpl. rewrite Hz. simpl. rewrite <- app_assoc, drop_app_length.
    split; [done|]. split; [done | lia].
  - subst r. rewrite publish_result by done. simpl.
    assert (Hn : Z.to_nat (pieces (Z.of_nat (length (body m)))
                             (maximum_frame_size (msg_channel m))) = 0%nat).
    { apply pieces_negative_size; lia. }
    rewrite Hn. simpl. rewrite drop_app_length. split; [done|]. split; [lia | done].
Qed.

(** X4. Publishing a message a second time hands the channel the same
    frames again, in the same order, after the first ones: the first
    call has already removed the properties that are no attributes, and
    it changes nothing else of the message. *)
Theorem publish_twice_repeats_the_frames
    (exchange : string + string) (routing_key : string) (m : message) :
  maximum_frame_size (msg_channel m) <> 0 ->
  exists m' m'',
    publish exchange routing_key m = Returned m'
    /\ publish exchange routing_key m' = Returned m''
    /\ published m' m'' = published m m'
    /\ written (msg_channel m'') =
         written (msg_channel m) ++ published m m' ++ published m m'
    /\ properties m'' = properties m'.
Proof.
  intros Hsize.
  pose proof (publish_result exchange routing_key m Hsize) as H1.
  cbv zeta in H1.
  match type of H1 with _ = Returned ?x => set (m' := x) in * end.
  assert (Hsize' : maximum_frame_size (msg_channel m') <> 0) by exact Hsize.
  pose proof (publish_result exchange routing_key m' Hsize') as H2.
  cbv zeta in H2.
  assert (Hprops : Message._properties attributes m' = (m', properties m')).
  { pose proof (_properties_idem m) as Hi. cbv zeta in Hi.
    subst m'. unfold Message._properties, _prune_invalid_properties in *.
    simpl in *. injection Hi as Hi1 Hi2. by rewrite Hi2. }
  rewrite Hprops in H2. cbn [fst snd] in H2.
  match type of H2 with _ = Returned ?x => set (m'' := x) in * end.
  exists m', m''. split; [exact H1|]. split; [exact H2|].
  unfold Message.published. subst m''. simpl.
  rewrite !drop_app_length. repeat split.
  by rewrite <- !app_assoc.
Qed.

(** *** Construction *)

Abbreviation __init__ := (@Message.__init__ Value).

Lemma truthy_map_to_list (props : gmap string Value) :
  truthy (map_to_list props) = false <-> props = ∅.
Proof.
  rewrite <- map_to_list_empty_iff. by destruct (map_to_list props).
Qed.

(** The properties a constructed message starts with. *)
Lemma __init___properties (chan : Message.channel Value) (b : bytes)
    (props : gmap string Value) (auto_id : bool) (now uuid : Value) :
  let base := if truthy (map_to_list props) then props
              else _base_properties now in
  properties (__init__ chan b props auto_id now uuid) =
  if auto_id && bool_decide (base !! "message_id" = None)
  then <["message_id" := uuid]> base else base.
Proof.
  unfold Message.__init__. simpl.
  by destruct (auto_id && bool_decide _).
Qed.

Lemma constructed_message_fields (chan : Message.channel Value) (b : bytes)
    (props : gmap string Value) (auto_id : bool) (now uuid : Value) :
  let m := __init__ chan b props auto_id now uuid in
  msg_channel m = chan /\ body m = b /\ method m = None.
Proof. unfold Message.__init__. by destruct (auto_id && bool_decide _). Qed.

(** X5. A constructed message has the given channel and body and no
    method, so [ack], [nack] and [reject] raise ActionException on it
    and hand nothing to the channel.  A ["message_id"] passed in is never
    replaced; with [auto_id] the message always has one, the fresh UUID
    when none was passed.  Without [auto_id] the properties are the ones
    passed, or, when none were passed, just the timestamp of the
    construction. *)
Theorem constructed_message
    (chan : Message.channel Value) (b : bytes) (props : gmap string Value)
    (auto_id : bool) (now uuid : Value) :
  let m := __init__ chan b props auto_id now uuid in
  msg_channel m = chan /\ body m = b /\ method m = None
  /\ (forall r, r ∈ [ack m; nack m; reject m] ->
        exists text, r = Raised (ActionException text) m)
  /\ (forall v, props !! "message_id" = Some v -> properties m = props)
  /\ (auto_id = true -> props !! "message_id" = None ->
        properties m !! "message_id" = Some uuid)
  /\ (auto_id = false -> props <> ∅ -> properties m = props)
  /\ (auto_id = false -> props = ∅ -> properties m = {[ "timestamp" := now ]}).
Proof.
  intros m.
  destruct (constructed_message_fields chan b props auto_id now uuid)
    as (Hc & Hb & Hmeth).
  fold m in Hc, Hb, Hmeth. split; [done|]. split; [done|]. split; [done|].
  split.
  { intros r Hr. unfold ack, nack, reject in Hr. rewrite Hmeth in Hr.
    repeat (apply elem_of_cons in Hr as [->|Hr]; [by eexists|]).
    by apply elem_of_nil in Hr. }
  subst m. rewrite __init___properties. cbv zeta.
  split; [|split; [|split]].
  - intros v Hv.
    assert (Hne : props <> ∅) by (intros ->; by rewrite lookup_empty in Hv).
    destruct (truthy (map_to_list props)) eqn:Ht;
      [|by apply truthy_map_to_list in Ht].
    rewrite bool_decide_eq_false_2 by (by rewrite Hv).
    by rewrite andb_false_r.
  - intros -> Hnone. simpl.
    destruct (truthy (map_to_list props)) eqn:Ht.
    + rewrite bool_decide_eq_true_2 by done. apply lookup_insert_eq.
    + rewrite bool_decide_eq_true_2 by done. apply lookup_insert_eq.
  - intros -> Hne. simpl.
    destruct (truthy (map_to_list props)) eqn:Ht;
      [done | by apply truthy_map_to_list in Ht].
  - intros -> ->. simpl. by rewrite map_to_list_empty.
Qed.

(** X6. A message constructed with [auto_id] and then published on a
    channel whose frame size is not zero carries a ["message_id"] in its
    content header whenever that key is a Basic.Properties attribute: the
    one passed in, or else the fresh UUID. *)
Theorem published_message_has_an_id
    (chan : Message.channel Value) (b : bytes) (props : gmap string Value)
    (now uuid : Value) (exchange : string + string) (routing_key : string) :
  "message_id" ∈ attributes ->
  maximum_frame_size chan <> 0 ->
  let m := __init__ chan b props true now uuid in
  exists m' header body_frames,
    publish exchange routing_key m = Returned m'
    /\ published m m' =
         Basic_Publish (match exchange with inl n => n | inr n => n end) routing_key
         :: ContentHeader (length b) header :: body_frames
    /\ header !! "message_id" = Some (default uuid (props !! "message_id")).
Proof.
  intros Hattr Hsize m.
  destruct (constructed_message_fields chan b props true now uuid)
    as (Hc & Hb & _).
  fold m in Hc, Hb.
  assert (Hsize' : maximum_frame_size (msg_channel m) <> 0) by (by rewrite Hc).
  pose proof (publish_result exchange routing_key m Hsize') as Hp. cbv zeta in Hp.
  eexists. eexists. eexists. split; [exact Hp|].
  unfold Message.published. cbn [msg_channel with_channel written].
  rewrite drop_app_length, Hb. cbn [app].
  split; [reflexivity|].
  change (snd (_properties m)) with (properties (fst (_properties m))).
  rewrite _properties_lookup, decide_True by done.
  subst m. rewrite __init___properties. cbv zeta.
  destruct (props !! "message_id") as [v|] eqn:Hv; simpl.
  - assert (Hne : props <> ∅) by (intros ->; by rewrite lookup_empty in Hv).
    destruct (truthy (map_to_list props)) eqn:Ht;
      [|by apply truthy_map_to_list in Ht].
    by rewrite bool_decide_eq_false_2 by (by rewrite Hv).
  - destruct (truthy (map_to_list props)) eqn:Ht.
    + rewrite bool_decide_eq_true_2 by done. apply lookup_insert_eq.
    + rewrite bool_decide_eq_true_2 by done. apply lookup_insert_eq.
Qed.

End Facts.

(** *** The definitions on small inputs *)

Example publish_cuts_the_body :
  let m := {| msg_channel := {| maximum_frame_size := 2; written := [] |};
              body := ["a"; "b"; "c"; "d"; "e"]%byte;
              properties := (∅ : gmap string Z); method := None |} in
  written (msg_channel (final (Message.publish [] (inl "x") "k" m)))
  = [Basic_Publish "x" "k"; ContentHeader 5 ∅;
     ContentBody ["a"; "b"]%byte; ContentBody ["c"; "d"]%byte;
     ContentBody ["e"]%byte].
Proof. reflexivity. Qed.

Example publish_prunes_properties :
  let m := {| msg_channel := {| maximum_frame_size := 4; written := [] |};
              body := [];
              properties := <["bogus" := 1]> (<["message_id" := 7]> (∅ : gmap string Z));
              method := None |} in
  written (msg_channel (final (Message.publish ["message_id"] (inl "x") "k" m)))
  = [Basic_Publish "x" "k"; ContentHeader 0 (<["message_id" := 7]> ∅)].
Proof. vm_compute. reflexivity. Qed.

Example ack_needs_a_received_message :
  let m := {| msg_channel := {| maximum_frame_size := 4; written := [] |};
              body := []; properties := (∅ : gmap string Z); method := None |} in
  ack m = Raised (ActionException "Can not ack non-received message") m.
Proof. reflexivity. Qed.

Lemma C9_witness :
  let m := {| msg_channel := {| maximum_frame_size := 131072; written := [] |};
              body := Sample.payload8; properties := (∅ : gmap string Z);
              method := Some {| delivery_tag := 42 |} |} in
  written (msg_channel (final (nack m))) = [Basic_Ack 42 false]
  /\ nack m = ack m.
Proof.
  intros m.
  destruct (C9_nack_writes_basic_ack m {| delivery_tag := 42 |})
    as (_ & Heq & Hw & _); [reflexivity|].
  split; [exact Hw | exact Heq].
Defined.

Lemma C10_witness :
  let m := {| msg_channel := {| maximum_frame_size := 131072; written := [] |};
              body := []; properties := (∅ : gmap string Z); method := None |} in
  written (msg_channel
             (final (Message.publish ["message_id"] (inl "events") "created" m)))
  = [Basic_Publish "events" "created"; ContentHeader 0 ∅].
Proof.
  intros m.
  destruct (C10_publish_empty_body ["message_id"] (inl "events") "created" m)
    as (Hw & _); [reflexivity|].
  exact Hw.
Defined.

Lemma publish_sends_the_whole_body_witness :
  let m := {| msg_channel := {| maximum_frame_size := 3; written := [] |};
              body := Sample.payload8; properties := (∅ : gmap string Z);
              method := None |} in
  0 < maximum_frame_size (msg_channel m)
  /\ exists m' payloads,
       Message.publish [] (inl "x") "k" m = Returned m'
       /\ concat payloads = Sample.payload8.
Proof.
  intros m. split; [reflexivity|].
  destruct (publish_sends_the_whole_body [] (inl "x") "k" m)
    as (m' & payloads & Hr & Hw & Hc & _); [reflexivity|].
  exists m', payloads. split; [exact Hr | exact Hc].
Defined.

Lemma publish_without_positive_frame_size_witness :
  let m := {| msg_channel := {| maximum_frame_size := -4; written := [] |};
              body := Sample.payload8; properties := (∅ : gmap string Z);
              method := None |} in
  maximum_frame_size (msg_channel m) <= 0
  /\ written (msg_channel (final (Message.publish [] (inl "x") "k" m)))
     = [Basic_Publish "x" "k"; ContentHeader 8 ∅].
Proof.
  intros m. split; [done|].
  destruct (publish_without_positive_frame_size [] (inl "x") "k" m) as (Hw & _);
    [done|].
  exact Hw.
Defined.

Lemma publish_twice_repeats_the_frames_witness :
  let m := {| msg_channel := {| maximum_frame_size := 3; written := [] |};
              body := Sample.payload8;
              properties := <["bogus" := 1]> (∅ : gmap string Z);
              method := None |} in
  maximum_frame_size (msg_channel m) <> 0
  /\ exists m' m'',
       Message.publish ["message_id"] (inl "x") "k" m = Returned m'
       /\ Message.publish ["message_id"] (inl "x") "k" m' = Returned m''
       /\ Message.published m' m'' = Message.published m m'.
Proof.
  intros m. split; [done|].
  destruct (publish_twice_repeats_the_frames ["message_id"] (inl "x") "k" m)
    as (m' & m'' & H1 & H2 & H3 & _); [done|].
  by exists m', m''.
Defined.

Lemma published_message_has_an_id_witness :
  let chan := {| maximum_frame_size := 3; written := [] |} in
  let m := Message.__init__ chan Sample.payload8 (∅ : gmap string Z) true 1700000000 77 in
  "message_id" ∈ ["message_id"; "timestamp"]
  /\ exists m' header body_frames,
       Message.publish ["message_id"; "timestamp"] (inl "x") "k" m = Returned m'
       /\ Message.published m m' =
            Basic_Publish "x" "k" :: ContentHeader 8 header :: body_frames
       /\ header !! "message_id" = Some 77.
Proof.
  intros chan m.
  assert (Hin : "message_id" ∈ ["message_id"; "timestamp"]) by left.
  split; [exact Hin|].
  destruct (published_message_has_an_id ["message_id"; "timestamp"] chan
              Sample.payload8 ∅ 1700000000 77 (inl "x") "k" Hin)
    as (m' & header & frames & Hr & Hp & Hh); [done|].
  by exists m', header, frames.
Defined.

End MessageSpec.

(** * Properties of the pollers *)

Module PollerSpec.
Import Pollers.

(** *** SelectPoller *)

Lemma list_subseteq_nil_inv (l : list Z) : l ⊆ [] -> l = [].
Proof.
  destruct l as [|x l]; [done|]. intros H.
  assert (Hx : x ∈ []) by (apply H; left). by apply elem_of_nil in Hx.
Qed.

(** X16. A [SelectPoller] asks about the data socket and the trigger for
    reading and about the data socket alone for errors, and about the data
    socket for writing only when write is wanted.  So when [select]
    answers with descriptors it was asked about, nothing is reported
    writable unless write was wanted, and the trigger is never reported
    writable or errored; when [select] raises, all three lists are
    empty. *)
Theorem SelectPoller_reports (select : select_call) (fd write_trigger : Z)
    (write_wanted : bool) (rlist wlist xlist : list Z) :
  select_sound select ->
  SelectPoller_poll select write_wanted (SelectPoller_init fd write_trigger)
    = (rlist, wlist, xlist) ->
  rlist ⊆ [fd; write_trigger]
  /\ wlist ⊆ [fd]
  /\ xlist ⊆ [fd]
  /\ (write_wanted = false -> wlist = [])
  /\ (select [fd; write_trigger] (if write_wanted then [fd] else []) [fd] POLL_TIMEOUT
        = None -> rlist = [] /\ wlist = [] /\ xlist = []).
Proof.
  intros Hsound. unfold SelectPoller_poll, SelectPoller_init.
  destruct write_wanted; cbn [write read].
  - destruct (select _ _ _ _) as [[[r w] x]|] eqn:Hs; intros [= <- <- <-].
    + destruct (Hsound _ _ _ _ _ _ _ Hs) as (Hr & Hw & Hx).
      split; [exact Hr|]. split; [exact Hw|]. split; [exact Hx|]. split; done.
    + repeat split; try done; apply list_subseteq_nil.
  - destruct (select _ _ _ _) as [[[r w] x]|] eqn:Hs; intros [= <- <- <-].
    + destruct (Hsound _ _ _ _ _ _ _ Hs) as (Hr & Hw & Hx).
      apply list_subseteq_nil_inv in Hw. subst w.
      split; [exact Hr|]. split; [apply list_subseteq_nil|]. split; [exact Hx|].
      split; done.
    + repeat split; try done; apply list_subseteq_nil.
Qed.

(** *** PollPoller *)

Lemma _update_poll_consistent (write_wanted : bool) (p : PollPoller) :
  pp_consistent p ->
  exists p',
    _update_poll write_wanted p = Some p'
    /\ pp_consistent p'
    /\ pp_fd p' = pp_fd p
    /\ pp_write_in_last_poll p' = write_wanted || negb (pp_write_in_last_poll p)
    /\ (forall k, k <> pp_fd p -> pp_poll p' !! k = pp_poll p !! k).
Proof.
  unfold pp_consistent, _update_poll, poll_modify. intros Hc.
  destruct (pp_write_in_last_poll p) eqn:Hflag, write_wanted; simpl.
  - exists p. by rewrite Hflag.
  - rewrite Hc. simpl. eexists. split; [reflexivity|]. simpl.
    rewrite lookup_insert_eq. repeat split; try done.
    intros k Hk. by rewrite lookup_insert_ne.
  - rewrite Hc. simpl. eexists. split; [reflexivity|]. simpl.
    rewrite lookup_insert_eq. repeat split; try done.
    intros k Hk. by rewrite lookup_insert_ne.
  - rewrite Hc. simpl. eexists. split; [reflexivity|]. simpl.
    rewrite lookup_insert_eq. repeat split; try done.
    intros k Hk. by rewrite lookup_insert_ne.
Qed.

Lemma PollPoller_poll_consistent (os : option (list (Z * Z))) (write_wanted : bool)
    (p : PollPoller) :
  pp_consistent p ->
  exists p' lists,
    PollPoller_poll os write_wanted p = Some (p', lists)
    /\ pp_consistent p'
    /\ pp_fd p' = pp_fd p
    /\ pp_write_in_last_poll p' = write_wanted || negb (pp_write_in_last_poll p)
    /\ (forall k, k <> pp_fd p -> pp_poll p' !! k = pp_poll p !! k).
Proof.
  intros Hc. destruct (_update_poll_consistent write_wanted p Hc)
    as (p' & Hu & Hc' & Hfd & Hflag & Hother).
  unfold PollPoller_poll. rewrite Hu. simpl.
  destruct os as [events|]; eexists; eexists; (split; [reflexivity|]); done.
Qed.

Lemma PollPoller_init_consistent (fd write_trigger : Z) :
  pp_consistent (PollPoller_init fd write_trigger).
Proof.
  unfold pp_consistent, PollPoller_init. simpl.
  destruct (decide (write_trigger = fd)) as [->|Hne].
  - by rewrite lookup_insert_eq.
  - by rewrite lookup_insert_ne, lookup_insert_eq.
Qed.

Lemma PollPoller_polls_consistent (calls : list (bool * option (list (Z * Z))))
    (p : PollPoller) :
  pp_consistent p ->
  exists p',
    PollPoller_polls calls p = Some p'
    /\ pp_consistent p'
    /\ pp_fd p' = pp_fd p
    /\ (forall k, k <> pp_fd p -> pp_poll p' !! k = pp_poll p !! k).
Proof.
  revert p. induction calls as [|[w os] calls IH]; intros p Hc.
  - by exists p.
  - destruct (PollPoller_poll_consistent os w p Hc)
      as (p1 & lists & Hp & Hc1 & Hfd1 & _ & Ho1).
    destruct (IH p1 Hc1) as (p' & Hps & Hc' & Hfd' & Ho').
    exists p'. simpl. rewrite Hp. simpl. split; [exact Hps|]. split; [exact Hc'|].
    split; [congruence|]. intros k Hk. rewrite Ho' by congruence. by apply Ho1.
Qed.

(** X17. Over any sequence of calls of [poll] on a [PollPoller], with any
    answers of the operating system, [modify] never fails, the flag
    [_write_in_last_poll] always tells whether the data socket is
    registered with the WRITE mask or with the READ mask, and no other
    registration changes: the trigger stays registered for reading
    only. *)
Theorem PollPoller_registration_invariant
    (fd write_trigger : Z) (calls : list (bool * option (list (Z * Z)))) :
  exists p,
    PollPoller_polls calls (PollPoller_init fd write_trigger) = Some p
    /\ pp_fd p = fd
    /\ pp_poll p !! fd = Some (if pp_write_in_last_poll p then WRITE else READ)
    /\ (write_trigger <> fd -> pp_poll p !! write_trigger = Some READ)
    /\ (forall k, k <> fd -> k <> write_trigger -> pp_poll p !! k = None).
Proof.
  destruct (PollPoller_polls_consistent calls (PollPoller_init fd write_trigger)
              (PollPoller_init_consistent fd write_trigger))
    as (p & Hp & Hc & Hfd & Ho).
  simpl in Hfd, Ho. exists p. split; [exact Hp|]. split; [exact Hfd|].
  split; [unfold pp_consistent in Hc; by rewrite Hfd in Hc|]. split.
  - intros Hne. rewrite Ho by done. apply lookup_insert_eq.
  - intros k Hk1 Hk2. rewrite Ho by done.
    by rewrite !lookup_insert_ne, lookup_empty.
Qed.

Lemma PollPoller_polls_flag (n : nat) (os : option (list (Z * Z))) (p p' : PollPoller) :
  pp_consistent p ->
  PollPoller_polls (replicate n (false, os)) p = Some p' ->
  pp_write_in_last_poll p' =
  if Nat.even n then pp_write_in_last_poll p else negb (pp_write_in_last_poll p).
Proof.
  revert p. induction n as [|n IH]; intros p Hc.
  - simpl. by intros [= <-].
  - destruct (PollPoller_poll_consistent os false p Hc)
      as (p1 & lists & Hp & Hc1 & _ & Hflag & _).
    cbn [replicate PollPoller_polls]. rewrite Hp. cbn -[Nat.even].
    intros Hps. rewrite (IH p1 Hc1 Hps), Hflag.
    rewrite Nat.even_succ, <- Nat.negb_even.
    destruct (Nat.even n), (pp_write_in_last_poll p); done.
Qed.

(** X18. One call of [poll] on a [PollPoller] leaves the data socket
    registered for writing when write is wanted, and also when write is
    not wanted but the socket was not registered for writing before the
    call; it goes back to the READ mask only when write is not wanted and
    the WRITE mask was on.  So a poller that is never asked for write
    readiness has the WRITE mask on after every odd number of calls. *)
Theorem PollPoller_write_interest
    (os : option (list (Z * Z))) (write_wanted : bool) (p : PollPoller) :
  pp_consistent p ->
  (exists p' lists,
     PollPoller_poll os write_wanted p = Some (p', lists)
     /\ pp_poll p' !! pp_fd p =
          Some (if write_wanted || negb (pp_write_in_last_poll p)
                then WRITE else READ))
  /\ (forall n fd write_trigger p',
        PollPoller_polls (replicate n (false, os)) (PollPoller_init fd write_trigger)
          = Some p' ->
        pp_poll p' !! fd = Some (if Nat.odd n then WRITE else READ)).
Proof.
  intros Hc. split.
  - destruct (PollPoller_poll_consistent os write_wanted p Hc)
      as (p' & lists & Hp & Hc' & Hfd & Hflag & _).
    exists p', lists. split; [exact Hp|].
    unfold pp_consistent in Hc'. by rewrite Hfd, Hflag in Hc'.
  - intros n fd trig p' Hps.
    pose proof (PollPoller_init_consistent fd trig) as Hi.
    destruct (PollPoller_polls_consistent (replicate n (false, os)) _ Hi)
      as (p'' & Hps' & Hc'' & Hfd'' & _).
    assert (p'' = p') by congruence. subst p''.
    unfold pp_consistent in Hc''.
    rewrite (PollPoller_polls_flag n os _ p' Hi Hps), Hfd'' in Hc''.
    cbn [PollPoller_init pp_fd pp_write_in_last_poll] in Hc''.
    rewrite Hc'', <- Nat.negb_even. by destruct (Nat.even n).
Qed.

Lemma poll_events_acc (events : list (Z * Z)) (rlist wlist xlist : list Z) :
  poll_events events (rlist, wlist, xlist) =
  (rlist ++ map fst (base.filter (fun e => Z.land (snd e) POLLIN <> 0) events),
   wlist ++ map fst (base.filter (fun e => Z.land (snd e) POLLOUT <> 0) events),
   xlist ++ map fst (base.filter (fun e => Z.land (snd e) POLLERR <> 0) events)).
Proof.
  revert rlist wlist xlist.
  induction events as [|[fileno event] events IH]; intros rlist wlist xlist.
  - simpl. by rewrite !app_nil_r.
  - cbn [poll_events]. rewrite IH. rewrite !filter_cons. cbn [snd].
    destruct (Z.eqb_spec (Z.land event POLLIN) 0) as [Hi|Hi],
             (Z.eqb_spec (Z.land event POLLOUT) 0) as [Ho|Ho],
             (Z.eqb_spec (Z.land event POLLERR) 0) as [He|He];
      repeat case_decide; try done; cbn [map fst];
      rewrite <- ?app_assoc; reflexivity.
Qed.

(** X19. The lists a [PollPoller] returns are, in the order of the
    events the operating system reported: the descriptors whose event has
    the POLLIN bit, those whose event has the POLLOUT bit, and those whose
    event has the POLLERR bit; a descriptor can be in several.  An event
    with none of the three bits, such as a bare hang-up, puts its
    descriptor in no list; and when [poll] raises [select.error] all
    three lists are empty. *)
Theorem PollPoller_classifies_by_bits (write_wanted : bool) (p : PollPoller)
    (os : option (list (Z * Z))) :
  pp_consistent p ->
  exists p',
    PollPoller_poll os write_wanted p =
    Some (p',
          match os with
          | None => ([], [], [])
          | Some events =>
              (map fst (base.filter (fun e => Z.land (snd e) POLLIN <> 0) events),
               map fst (base.filter (fun e => Z.land (snd e) POLLOUT <> 0) events),
               map fst (base.filter (fun e => Z.land (snd e) POLLERR <> 0) events))
          end)
    /\ forall fileno event rest acc,
         Z.land event POLLIN = 0 -> Z.land event POLLOUT = 0 ->
         Z.land event POLLERR = 0 ->
         poll_events ((fileno, event) :: rest) acc = poll_events rest acc.
Proof.
  intros Hc. destruct (_update_poll_consistent write_wanted p Hc) as (p' & Hu & _).
  exists p'. unfold PollPoller_poll. rewrite Hu. simpl. split.
  - destruct os as [events|]; [|done]. by rewrite poll_events_acc.
  - intros fileno event rest [[r w] x] Hi Ho He. cbn [poll_events].
    by rewrite Hi, Ho, He.
Qed.

(** *** KQueuePoller *)

Lemma write_filter_on_app (fd : Z) (l1 l2 : list kevent) (on : bool) :
  write_filter_on fd (l1 ++ l2) on = write_filter_on fd l2 (write_filter_on fd l1 on).
Proof. revert on. induction l1 as [|c l1 IH]; intros on; simpl; [done | apply IH]. Qed.

(** What [_changelist] does to the flag and what it hands to the kernel. *)
Lemma _changelist_spec (write_wanted : bool) (p : KQueuePoller) :
  _changelist write_wanted p =
  (kq_with_flag write_wanted p,
   if eqb write_wanted (kq_write_in_last_poll p) then None
   else Some [change (kq_fd p) KQ_FILTER_WRITE
                     (if write_wanted then KQ_EV_ADD else KQ_EV_DELETE)]).
Proof.
  unfold _changelist.
  destruct write_wanted, (kq_write_in_last_poll p) eqn:Hf; simpl; try done;
    destruct p; simpl in *; by subst.
Qed.

Lemma write_filter_on_read_change (fd id flag : Z) (on : bool) :
  write_filter_on fd [change id KQ_FILTER_READ flag] on = on.
Proof. simpl. by rewrite andb_false_r. Qed.

Lemma write_filter_on_write_change (fd : Z) (write_wanted on : bool) :
  write_filter_on fd [change fd KQ_FILTER_WRITE
                        (if write_wanted then KQ_EV_ADD else KQ_EV_DELETE)] on
  = write_wanted.
Proof. simpl. rewrite Z.eqb_refl. by destruct write_wanted. Qed.

(** One call of [poll]: the flag, the descriptor and the changes. *)
Lemma KQueuePoller_poll_state (os : kq_os) (write_wanted : bool) (p : KQueuePoller) :
  let p' := fst (KQueuePoller_poll os write_wanted p) in
  kq_write_in_last_poll p' = write_wanted
  /\ kq_fd p' = kq_fd p
  /\ kq_write_trigger p' = kq_write_trigger p
  /\ exists cleanup,
       kq_submitted p' =
         kq_submitted p ++
         (if eqb write_wanted (kq_write_in_last_poll p) then []
          else [change (kq_fd p) KQ_FILTER_WRITE
                       (if write_wanted then KQ_EV_ADD else KQ_EV_DELETE)]) ++
         cleanup
       /\ (cleanup = []
           \/ cleanup = [change (kq_fd p) KQ_FILTER_READ KQ_EV_DELETE]
           \/ cleanup = [change (kq_fd p) KQ_FILTER_READ KQ_EV_DELETE;
                         change (kq_write_trigger p) KQ_FILTER_READ KQ_EV_DELETE]).
Proof.
  unfold KQueuePoller_poll. rewrite _changelist_spec.
  set (changes := if eqb write_wanted (kq_write_in_last_poll p) then None else _).
  assert (Hch : default [] changes =
                if eqb write_wanted (kq_write_in_last_poll p) then []
                else [change (kq_fd p) KQ_FILTER_WRITE
                             (if write_wanted then KQ_EV_ADD else KQ_EV_DELETE)]).
  { subst changes. by destruct (eqb _ _). }
  rewrite Hch. clear Hch changes.
  destruct (kq_events os) as [events|]; cbn [fst].
  - destruct (kq_classify events ([], [], [])) as [[rlist wlist] xlist].
    destruct (truthy xlist).
    + unfold _cleanup.
      destruct (kq_cleanup_fd_fails os) as [e|]; cbn [fst].
      * simpl. repeat split. eexists. rewrite <- app_assoc.
        split; [reflexivity|]. right. by left.
      * destruct (kq_cleanup_trigger_fails os) as [e|]; cbn [fst];
          simpl; repeat split; eexists; rewrite <- !app_assoc;
          (split; [reflexivity|]); right; by right.
    + simpl. repeat split. exists []. rewrite app_nil_r. split; [done | by left].
  - simpl. repeat split. exists []. rewrite app_nil_r. split; [done | by left].
Qed.

Lemma KQueuePoller_poll_filter (os : kq_os) (write_wanted : bool) (p : KQueuePoller) :
  kq_write_in_last_poll p = write_filter_on (kq_fd p) (kq_submitted p) false ->
  let p' := fst (KQueuePoller_poll os write_wanted p) in
  kq_write_in_last_poll p' = write_filter_on (kq_fd p') (kq_submitted p') false.
Proof.
  intros Hinv p'.
  destruct (KQueuePoller_poll_state os write_wanted p)
    as (Hflag & Hfd & _ & cleanup & Hsub & Hcl).
  fold p' in Hflag, Hfd, Hsub. rewrite Hflag, Hfd, Hsub, !write_filter_on_app, <- Hinv.
  assert (Hw : write_filter_on (kq_fd p)
                 (if eqb write_wanted (kq_write_in_last_poll p) then []
                  else [change (kq_fd p) KQ_FILTER_WRITE
                               (if write_wanted then KQ_EV_ADD else KQ_EV_DELETE)])
                 (kq_write_in_last_poll p) = write_wanted).
  { destruct (eqb write_wanted (kq_write_in_last_poll p)) eqn:He.
    - apply eqb_prop in He. by rewrite He.
    - apply write_filter_on_write_change. }
  rewrite Hw. destruct Hcl as [-> | [-> | ->]]; [done| |].
  - by rewrite write_filter_on_read_change.
  - change [change (kq_fd p) KQ_FILTER_READ KQ_EV_DELETE;
            change (kq_write_trigger p) KQ_FILTER_READ KQ_EV_DELETE]
      with ([change (kq_fd p) KQ_FILTER_READ KQ_EV_DELETE] ++
            [change (kq_write_trigger p) KQ_FILTER_READ KQ_EV_DELETE]).
    by rewrite write_filter_on_app, !write_filter_on_read_change.
Qed.

Lemma KQueuePoller_polls_filter (calls : list (bool * kq_os)) (p : KQueuePoller) :
  kq_write_in_last_poll p = write_filter_on (kq_fd p) (kq_submitted p) false ->
  let p' := KQueuePoller_polls calls p in
  kq_write_in_last_poll p' = write_filter_on (kq_fd p') (kq_submitted p') false
  /\ kq_fd p' = kq_fd p
  /\ kq_write_in_last_poll p' =
       match last calls with Some c => fst c | None => kq_write_in_last_poll p end.
Proof.
  revert p. induction calls as [|[w os] calls IH]; intros p Hinv; [done|].
  cbn [KQueuePoller_polls].
  pose proof (KQueuePoller_poll_filter os w p Hinv) as Hinv1.
  destruct (KQueuePoller_poll_state os w p) as (Hflag & Hfd & _).
  cbv zeta in *. destruct (IH _ Hinv1) as (H1 & H2 & H3).
  split; [exact H1|]. split; [congruence|].
  rewrite H3. destruct calls as [|c calls]; [exact Hflag|].
  rewrite last_cons_cons. by destruct (last (c :: calls)) eqn:Hl; [|by apply last_None in Hl].
Qed.

(** X20. A [KQueuePoller] hands the kernel a change of the write filter
    only when the wish changes: an ADD when write becomes wanted, a DELETE
    when it stops being wanted, nothing otherwise.  After every call of
    [poll], whatever the kernel answered, the flag is the wish of that
    call, and it is at all times what the submitted changes add up to for
    the write filter of the data socket. *)
Theorem KQueuePoller_write_filter_follows_the_wish
    (fd write_trigger : Z) (calls : list (bool * kq_os)) :
  let p := KQueuePoller_polls calls (KQueuePoller_init fd write_trigger) in
  kq_fd p = fd
  /\ kq_write_in_last_poll p = write_filter_on fd (kq_submitted p) false
  /\ kq_write_in_last_poll p =
       match last calls with Some c => fst c | None => false end
  /\ forall write_wanted,
       snd (_changelist write_wanted p) =
       if eqb write_wanted (kq_write_in_last_poll p) then None
       else Some [change fd KQ_FILTER_WRITE
                         (if write_wanted then KQ_EV_ADD else KQ_EV_DELETE)].
Proof.
  intros p.
  destruct (KQueuePoller_polls_filter calls (KQueuePoller_init fd write_trigger))
    as (H1 & H2 & H3); [simpl; by rewrite !andb_false_r|].
  fold p in H1, H2, H3. simpl in H2, H3. rewrite H2 in H1.
  split; [exact H2|]. split; [exact H1|]. split; [exact H3|].
  intros w. by rewrite _changelist_spec, H2.
Qed.

Lemma kq_classify_acc (events : list kevent) (rlist wlist xlist : list Z) :
  kq_classify events (rlist, wlist, xlist) =
  (rlist ++ map ident (base.filter (fun e => filter e = KQ_FILTER_READ) events),
   wlist ++ map ident (base.filter (fun e => filter e = KQ_FILTER_WRITE) events),
   xlist ++ concat (map (fun e =>
                      (if Z.land (flags e) KQ_EV_ERROR =? 0 then [] else [ident e]) ++
                      (if Z.land (flags e) KQ_EV_EOF =? KQ_EV_EOF then [data e] else []))
                    events)).
Proof.
  revert rlist wlist xlist.
  induction events as [|e events IH]; intros rlist wlist xlist.
  - simpl. by rewrite !app_nil_r.
  - cbn [kq_classify]. rewrite IH. rewrite !filter_cons. cbn [map concat].
    destruct (Z.eqb_spec (filter e) KQ_FILTER_READ) as [Hr|Hr],
             (Z.eqb_spec (filter e) KQ_FILTER_WRITE) as [Hw|Hw];
      try (rewrite Hr in Hw; discriminate);
      repeat case_decide; try done;
      destruct (Z.land (flags e) KQ_EV_ERROR =? 0),
               (Z.land (flags e) KQ_EV_EOF =? KQ_EV_EOF);
      cbn [map app]; rewrite <- ?app_assoc; reflexivity.
Qed.

(** X21. The lists a [KQueuePoller] returns are, in the order of the
    kernel's events: the descriptors of the read-filter events, the
    descriptors of the write-filter events, and for the errored list the
    descriptor of every event flagged EV_ERROR and the [data] field (not
    the descriptor) of every event flagged EV_EOF.  When that list is not
    empty and the kernel accepts them, [_cleanup] submits the deletion of
    the two read filters and nothing for the write filter, and the flag
    stays the wish of the call; when [control] raises [select.error], all
    lists are empty. *)
Theorem KQueuePoller_classifies (os : kq_os) (write_wanted : bool) (p : KQueuePoller) :
  let r := KQueuePoller_poll os write_wanted p in
  let wish := if eqb write_wanted (kq_write_in_last_poll p) then []
              else [change (kq_fd p) KQ_FILTER_WRITE
                           (if write_wanted then KQ_EV_ADD else KQ_EV_DELETE)] in
  (kq_events os = None ->
     snd r = inl ([], [], []) /\ kq_submitted (fst r) = kq_submitted p ++ wish)
  /\ (forall events,
        kq_events os = Some events ->
        let rlist := map ident (base.filter (fun e => filter e = KQ_FILTER_READ) events) in
        let wlist := map ident (base.filter (fun e => filter e = KQ_FILTER_WRITE) events) in
        let xlist :=
          concat (map (fun e =>
                    (if Z.land (flags e) KQ_EV_ERROR =? 0 then [] else [ident e]) ++
                    (if Z.land (flags e) KQ_EV_EOF =? KQ_EV_EOF then [data e] else []))
                  events) in
        (xlist = [] ->
           snd r = inl (rlist, wlist, []) /\ kq_submitted (fst r) = kq_submitted p ++ wish)
        /\ (xlist <> [] ->
            kq_cleanup_fd_fails os = None -> kq_cleanup_trigger_fails os = None ->
            snd r = inl (rlist, wlist, xlist)
            /\ kq_submitted (fst r) =
                 kq_submitted p ++ wish ++
                 [change (kq_fd p) KQ_FILTER_READ KQ_EV_DELETE;
                  change (kq_write_trigger p) KQ_FILTER_READ KQ_EV_DELETE]
            /\ kq_write_in_last_poll (fst r) = write_wanted)
        /\ (xlist <> [] -> forall e, kq_cleanup_fd_fails os = Some e -> snd r = inr e)).
Proof.
  intros r wish. subst r. unfold KQueuePoller_poll. rewrite _changelist_spec.
  set (changes := if eqb write_wanted (kq_write_in_last_poll p) then None else _).
  assert (Hch : default [] changes = wish).
  { subst changes wish. by destruct (eqb _ _). }
  rewrite Hch. clear Hch changes. split.
  - intros ->. by simpl.
  - intros events Hev. rewrite Hev, kq_classify_acc. cbn [app].
    set (rlist := map ident (base.filter (fun e => filter e = KQ_FILTER_READ) events)).
    set (wlist := map ident (base.filter (fun e => filter e = KQ_FILTER_WRITE) events)).
    set (xlist := concat _). clearbody rlist wlist xlist. split; [|split].
    + intros Hx. rewrite Hx. by simpl.
    + intros Hx Hc1 Hc2. destruct xlist as [|x xs]; [done|]. cbn [truthy].
      unfold _cleanup. rewrite Hc1, Hc2. simpl. by rewrite <- !app_assoc.
    + intros Hx e Hc1. destruct xlist as [|x xs]; [done|]. cbn [truthy].
      unfold _cleanup. by rewrite Hc1.
Qed.

(** *** The pollers inside [IOLoop._poll] *)

Lemma _create_poller_consistent (pl : platform) (fd write_trigger : Z) (q : PollPoller) :
  _create_poller pl fd write_trigger = UsePoll q -> pp_consistent q.
Proof.
  unfold _create_poller. destruct (has_poll pl), (has_kqueue pl); try done.
  all: intros [= <-]; apply PollPoller_init_consistent.
Qed.

Lemma poller_poll_interrupted (os : os_poll) (write_wanted : bool) (p : poller) :
  (forall q, p = UsePoll q -> pp_consistent q) ->
  (forall r w x timeout, os_select os r w x timeout = None) ->
  os_poll_events os = None ->
  kq_events (os_kqueue os) = None ->
  poller_poll os write_wanted p = Some ([], [], []).
Proof.
  intros Hc Hs Hp Hk. destruct p as [q|q|q]; cbn [poller_poll].
  - destruct (_update_poll_consistent write_wanted q (Hc q eq_refl)) as (q' & Hu & _).
    unfold PollPoller_poll. rewrite Hu, Hp. done.
  - unfold KQueuePoller_poll. destruct (_changelist write_wanted q) as [q1 ch].
    by rewrite Hk.
  - unfold SelectPoller_poll.
    destruct (if write_wanted then write q else read q) as [[[r w] x] timeout].
    by rewrite Hs.
Qed.

Lemma poll_events_errored (events : list (Z * Z)) (rlist wlist xlist : list Z) :
  poll_events events ([], [], []) = (rlist, wlist, xlist) ->
  Exists (fun e => Z.land (snd e) POLLERR <> 0) events ->
  xlist <> [].
Proof.
  rewrite poll_events_acc. intros [= _ _ <-] Hex.
  apply Exists_exists in Hex as (e & Hin & He).
  intros Hnil. apply fmap_nil_inv in Hnil.
  assert (Hf : e ∈ base.filter (fun e => Z.land (snd e) POLLERR <> 0) events).
  { apply list_elem_of_filter. by split. }
  rewrite Hnil in Hf. by apply elem_of_nil in Hf.
Qed.

Section Composition.
Context {Frame Consumer : Type}.
Variable marshal : Frame -> Z -> bytes.
Variable unmarshal : bytes -> option (nat * Z * Frame).
Variable channel_open : Consumer -> bool.
Variable on_frame : Consumer -> Frame -> Consumer * list (Z * Frame).

Local Abbreviation _poll := (IO._poll marshal unmarshal channel_open on_frame).
Local Abbreviation drained := (IO.drained marshal).

(** X22. When the wait of the poller is interrupted ([select.select],
    [poll.poll] or [kqueue.control] raises [select.error]), whichever
    poller [_create_poller] chose, the iteration of [IOLoop._poll] only
    moves the queued frames into the write buffer: nothing is read,
    nothing is sent, no event is set and no fault recorded, even with a
    write pending and whatever the sockets would have answered. *)
Theorem interrupted_wait_only_drains
    (pl : platform) (os : os_poll) (s : IO.io Frame Consumer)
    (trigger_recv : option IO.socket_error) (recv : IO.recv_outcome)
    (send : IO.send_outcome) :
  (forall r w x timeout, os_select os r w x timeout = None) ->
  os_poll_events os = None ->
  kq_events (os_kqueue os) = None ->
  let p := _create_poller pl (IO.fd_fileno s) (IO.trigger_fileno s) in
  poller_poll os (truthy (IO.write_buffer (drained s))) p = Some ([], [], [])
  /\ _poll (iteration os p trigger_recv recv send) s = IO.Returned (drained s)
  /\ IO.sent (drained s) = IO.sent s
  /\ IO.buffer (drained s) = IO.buffer s
  /\ IO.events (drained s) = IO.events s
  /\ IO.exceptions (drained s) = IO.exceptions s.
Proof.
  intros Hs Hp Hk p.
  assert (Hpoll : poller_poll os (truthy (IO.write_buffer (drained s))) p
                  = Some ([], [], [])).
  { apply poller_poll_interrupted; try done.
    intros q Hq. exact (_create_poller_consistent pl _ _ q Hq). }
  split; [exact Hpoll|]. split; [|done].
  apply (IOSpec._poll_quiet _ _ _ _ _ _ [] []).
  - cbn [iteration IO.poller_poll]. by rewrite Hpoll.
  - left. apply not_elem_of_nil.
  - left. apply not_elem_of_nil.
  - by left.
Qed.

(** X23. When [poll.poll] reports an event with the POLLERR bit, for any
    descriptor, the iteration of [IOLoop._poll] with a [PollPoller] sets
    SOCKET_CLOSE, records the one fault "Connection reset" and returns
    before the trigger is cleared or anything is read or sent, whatever
    else was reported ready. *)
Theorem POLLERR_resets_the_connection
    (os : os_poll) (q : PollPoller) (events : list (Z * Z))
    (s : IO.io Frame Consumer) (channel0 : Consumer) (queue0 : list Frame)
    (trigger_recv : option IO.socket_error) (recv : IO.recv_outcome)
    (send : IO.send_outcome) :
  pp_consistent q ->
  os_poll_events os = Some events ->
  Exists (fun e => Z.land (snd e) POLLERR <> 0) events ->
  IO.channels s !! 0 = Some (channel0, queue0) ->
  exists s',
    _poll (iteration os (UsePoll q) trigger_recv recv send) s = IO.Returned s'
    /\ IO.is_set IO.SOCKET_CLOSE (IO.events s') = true
    /\ IO.exceptions s' =
         IO.exceptions s ++
         [IO.fault_for channel_open (IO.ErrStr "Connection reset") channel0 s]
    /\ IO.sent s' = IO.sent s
    /\ IO.buffer s' = IO.buffer s
    /\ IO.trace s' = IO.trace s.
Proof.
  intros Hc Hev Hex Hch.
  destruct (_update_poll_consistent (truthy (IO.write_buffer (drained s))) q Hc)
    as (q' & Hu & _).
  destruct (poll_events events ([], [], [])) as [[rlist wlist] xlist] eqn:Hpe.
  destruct (IOSpec._poll_errored marshal unmarshal channel_open on_frame
              (iteration os (UsePoll q) trigger_recv recv send) s channel0 queue0
              rlist wlist xlist Hch)
    as (s' & Hr & Hclose & _ & Hexc & Hsent & Hbuf & Htr & _).
  - cbn [iteration IO.poller_poll poller_poll]. unfold PollPoller_poll.
    rewrite Hu, Hev. simpl. by rewrite Hpe.
  - by apply (poll_events_errored events rlist wlist).
  - by exists s'.
Qed.

(** X24. With a [KQueuePoller], an event flagged EV_EOF or EV_ERROR ends
    the connection the same way once [_cleanup] has removed the read
    filters: SOCKET_CLOSE is set and the one fault "Connection reset" is
    recorded, nothing is read or sent. *)
Theorem kqueue_EOF_resets_the_connection
    (os : os_poll) (q : KQueuePoller) (events : list kevent)
    (s : IO.io Frame Consumer) (channel0 : Consumer) (queue0 : list Frame)
    (trigger_recv : option IO.socket_error) (recv : IO.recv_outcome)
    (send : IO.send_outcome) :
  kq_events (os_kqueue os) = Some events ->
  Exists (fun e => Z.land (flags e) KQ_EV_ERROR <> 0
                   \/ Z.land (flags e) KQ_EV_EOF = KQ_EV_EOF) events ->
  kq_cleanup_fd_fails (os_kqueue os) = None ->
  kq_cleanup_trigger_fails (os_kqueue os) = None ->
  IO.channels s !! 0 = Some (channel0, queue0) ->
  exists s',
    _poll (iteration os (UseKQueue q) trigger_recv recv send) s = IO.Returned s'
    /\ IO.is_set IO.SOCKET_CLOSE (IO.events s') = true
    /\ IO.exceptions s' =
         IO.exceptions s ++
         [IO.fault_for channel_open (IO.ErrStr "Connection reset") channel0 s]
    /\ IO.sent s' = IO.sent s
    /\ IO.buffer s' = IO.buffer s
    /\ IO.trace s' = IO.trace s.
Proof.
  intros Hev Hex Hc1 Hc2 Hch.
  destruct (kq_classify events ([], [], [])) as [[rlist wlist] xlist] eqn:Hk.
  assert (Hx : xlist <> []).
  { rewrite kq_classify_acc in Hk. injection Hk as _ _ <-. cbn [app].
    apply Exists_exists in Hex as (e & Hin & He).
    apply list_elem_of_split in Hin as (l1 & l2 & ->).
    rewrite map_app, concat_app. cbn [map concat].
    intros Hnil. apply app_eq_nil in Hnil as [_ Hnil].
    apply app_eq_nil in Hnil as [Hnil _].
    apply app_eq_nil in Hnil as [H1 H2].
    destruct He as [He|He].
    - by destruct (Z.eqb_spec (Z.land (flags e) KQ_EV_ERROR) 0).
    - by destruct (Z.eqb_spec (Z.land (flags e) KQ_EV_EOF) KQ_EV_EOF). }
  destruct (IOSpec._poll_errored marshal unmarshal channel_open on_frame
              (iteration os (UseKQueue q) trigger_recv recv send) s channel0 queue0
              rlist wlist xlist Hch)
    as (s' & Hr & Hclose & _ & Hexc & Hsent & Hbuf & Htr & _).
  - cbn [iteration IO.poller_poll poller_poll]. unfold KQueuePoller_poll.
    destruct (_changelist _ q) as [q1 ch]. rewrite Hev, Hk.
    destruct xlist as [|x xs]; [done|]. cbn [truthy]. unfold _cleanup.
    by rewrite Hc1, Hc2.
  - exact Hx.
  - by exists s'.
Qed.

End Composition.

(** *** The theorems at sample pollers *)

Lemma SelectPoller_reports_witness :
  SelectPoller_poll Sample.select_all false (SelectPoller_init 3 4) = ([3; 4], [], [3])
  /\ [3; 4] ⊆ [3; 4] /\ ([] : list Z) ⊆ [3] /\ [3] ⊆ [3].
Proof.
  destruct (SelectPoller_reports Sample.select_all 3 4 false [3; 4] [] [3])
    as (Hr & Hw & Hx & _).
  - intros r w x timeout rlist wlist xlist [= <- <- <-]. done.
  - reflexivity.
  - split; [reflexivity|]. split; [exact Hr|]. split; [exact Hw | exact Hx].
Defined.

Lemma PollPoller_write_interest_witness :
  exists p' lists,
    PollPoller_poll None false (PollPoller_init 3 4) = Some (p', lists)
    /\ pp_poll p' !! 3 = Some WRITE.
Proof.
  destruct (PollPoller_write_interest None false (PollPoller_init 3 4))
    as (Hone & _); [apply PollPoller_init_consistent|].
  exact Hone.
Defined.

Lemma PollPoller_classifies_by_bits_witness :
  exists p',
    PollPoller_poll (Some [(3, 9); (4, 1); (3, 16); (3, 4)]) true (PollPoller_init 3 4)
    = Some (p', ([3; 4], [3], [3])).
Proof.
  destruct (PollPoller_classifies_by_bits true (PollPoller_init 3 4)
              (Some [(3, 9); (4, 1); (3, 16); (3, 4)]))
    as (p' & Hp & _); [apply PollPoller_init_consistent|].
  exists p'. exact Hp.
Defined.

Lemma KQueuePoller_classifies_witness :
  let r := KQueuePoller_poll (os_kqueue Sample.peer_gone) true (KQueuePoller_init 3 4) in
  snd r = inl ([3], [], [0])
  /\ kq_submitted (fst r) =
       [change 3 KQ_FILTER_READ KQ_EV_ADD; change 4 KQ_FILTER_READ KQ_EV_ADD;
        change 3 KQ_FILTER_WRITE KQ_EV_ADD;
        change 3 KQ_FILTER_READ KQ_EV_DELETE; change 4 KQ_FILTER_READ KQ_EV_DELETE].
Proof.
  intros r.
  destruct (KQueuePoller_classifies (os_kqueue Sample.peer_gone) true
              (KQueuePoller_init 3 4)) as (_ & Hev).
  destruct (Hev [Sample.eof_event] eq_refl) as (_ & Herr & _).
  destruct Herr as (Hr & Hs & _); [done | reflexivity | reflexivity |].
  split; [exact Hr | exact Hs].
Defined.

Lemma interrupted_wait_only_drains_witness :
  IO._poll Sample.marshal Sample.unmarshal Sample.open Sample.on_frame
    (iteration Sample.interrupted (_create_poller Sample.linux 3 4)
               None (IO.RecvOk Sample.stream) (IO.SendOk 1))
    Sample.loaded
  = IO.Returned (IO.drained Sample.marshal Sample.loaded).
Proof.
  destruct (interrupted_wait_only_drains Sample.marshal Sample.unmarshal Sample.open
              Sample.on_frame Sample.linux Sample.interrupted Sample.loaded
              None (IO.RecvOk Sample.stream) (IO.SendOk 1))
    as (_ & Hr & _); [done | reflexivity | reflexivity |].
  exact Hr.
Defined.

Lemma POLLERR_resets_the_connection_witness :
  exists s',
    IO._poll Sample.marshal Sample.unmarshal Sample.open Sample.on_frame
      (iteration Sample.peer_gone (UsePoll (PollPoller_init 3 4))
                 None (IO.RecvOk Sample.stream) (IO.SendOk 1))
      Sample.loaded
    = IO.Returned s'
    /\ IO.is_set IO.SOCKET_CLOSE (IO.events s') = true
    /\ IO.sent s' = [].
Proof.
  destruct (POLLERR_resets_the_connection Sample.marshal Sample.unmarshal Sample.open
              Sample.on_frame Sample.peer_gone (PollPoller_init 3 4) [(3, 9)]
              Sample.loaded Sample.channel0 []
              None (IO.RecvOk Sample.stream) (IO.SendOk 1))
    as (s' & Hr & Hclose & _ & Hsent & _).
  - apply PollPoller_init_consistent.
  - reflexivity.
  - apply Exists_cons_hd. done.
  - reflexivity.
  - exists s'. split; [exact Hr|]. split; [exact Hclose | exact Hsent].
Defined.

Lemma kqueue_EOF_resets_the_connection_witness :
  exists s',
    IO._poll Sample.marshal Sample.unmarshal Sample.open Sample.on_frame
      (iteration Sample.peer_gone (UseKQueue (KQueuePoller_init 3 4))
                 None (IO.RecvOk Sample.stream) (IO.SendOk 1))
      Sample.loaded
    = IO.Returned s'
    /\ IO.is_set IO.SOCKET_CLOSE (IO.events s') = true
    /\ IO.sent s' = [].
Proof.
  destruct (kqueue_EOF_resets_the_connection Sample.marshal Sample.unmarshal Sample.open
              Sample.on_frame Sample.peer_gone (KQueuePoller_init 3 4)
              [Sample.eof_event] Sample.loaded Sample.channel0 []
              None (IO.RecvOk Sample.stream) (IO.SendOk 1))
    as (s' & Hr & Hclose & _ & Hsent & _).
  - reflexivity.
  - apply Exists_cons_hd. by right.
  - reflexivity.
  - reflexivity.
  - reflexivity.
  - exists s'. split; [exact Hr|]. split; [exact Hclose | exact Hsent].
Defined.

End PollerSpec.
